(** * Strassen matrix multiplication over aliased views

    A shallow embedding of the two Strassen programs of the repository:

    - [Strassen]: the program with a padding calculator, bounds-checked
      views ([submatrix]) over shared buffers ([matrix_data]) and one scratch
      arena that is partitioned at every recursion level;
    - [StrassenAlloc]: the earlier program ([_strassen.cpp]) whose recursive
      [mul] allocates its temporaries at every level;
    - [LinearOnly]: the first program of [part_000], which has the views
      and the linear multiplier only.

    Conventions of the model.

    - Matrix entries are C++ [int]s.  Their arithmetic is modelled on [Z]
      with the 32-bit two's complement wrap-around written out ([wrap]).
    - Dimensions, coordinates and linear indices are [int]s as well.
      Inside a buffer they are bounded by the size of its vector and are
      modelled by [Z] as they are.  Where the code computes a size from
      a dimension of the command line, the [int] arithmetic is written
      out with [wrap]: the padded side in [padding_size], the square
      [dimension * dimension] in the constructor [new_matrix_data] and
      in the reading loop, and the amount [3 * dimension * dimension]
      that [main] of [_strassen.cpp] takes off its allocation counter.
      A buffer made below [main], or beside two inputs of its side, has
      the side of one that exists already; it is allocated with the
      exact square ([alloc_matrix_data]).
    - A [std::shared_ptr<std::vector<int>>] is a pointer (a [nat]) into a
      heap of vectors; copying a [matrix_data] or a [submatrix] copies the
      pointer, so every copy aliases the same vector. *)

From Stdlib Require Import ZArith Lia Bool.
From stdpp Require Import prelude.

Open Scope Z_scope.

(** ** Machine integers *)

Definition wrap (z : Z) : Z := (z + 2 ^ 31) mod 2 ^ 32 - 2 ^ 31.

(** [INT_MAX] *)
Definition int_max : Z := 2 ^ 31 - 1.

Definition int_add (a b : Z) : Z := wrap (a + b).
Definition int_sub (a b : Z) : Z := wrap (a - b).
Definition int_mul (a b : Z) : Z := wrap (a * b).

(** ** The heap of vectors *)

Abbreviation heap := (list (list Z)).

(** What [submatrix::at] returns a reference to: a cell of a vector on the
    heap, or the [padding] field of the view object itself. *)
Inductive ref :=
  | Cell (p : nat) (k : nat)
  | Padding.

Definition ref_eqb (r r' : ref) : bool :=
  match r, r' with
  | Cell p k, Cell p' k' => Nat.eqb p p' && Nat.eqb k k'
  | Padding, Padding => true
  | _, _ => false
  end.

(** Reading through a reference.  [at] zeroes [padding] before it hands out
    a reference to it, so such a read yields 0. *)
Definition load (h : heap) (r : ref) : Z :=
  match r with
  | Cell p k => default 0 (h !! p ≫= λ v, v !! k)
  | Padding => 0
  end.

(** Writing through a reference.  A write to [padding] changes the view
    object only (a by-value copy whose field is zeroed again by the next
    [at]); the heap is left alone. *)
Definition store (h : heap) (r : ref) (v : Z) : heap :=
  match r with
  | Cell p k => alter (<[k:=v]>) p h
  | Padding => h
  end.

(** The sizes of the vectors: all that addressing depends on. *)
Definition shape (h : heap) : list nat := length <$> h.

Definition vsize (sh : list nat) (p : nat) : Z :=
  Z.of_nat (default 0%nat (sh !! p)).

(** [for (int k = 0; k < n; ++k) body(k)]: [count] iterations from [k]. *)
Fixpoint for_loop_from {St : Type} (count : nat) (k : Z) (body : Z → St → St)
    (s : St) : St :=
  match count with
  | O => s
  | S count' => for_loop_from count' (k + 1) body (body k s)
  end.

Definition for_loop {St : Type} (n : Z) (body : Z → St → St) (s : St) : St :=
  for_loop_from (Z.to_nat n) 0 body s.

(** Sums over [0, n), used to state what a product is. *)
Definition zsum (n : Z) (f : Z → Z) : Z :=
  for_loop n (λ k acc, acc + f k) 0.

Module Strassen.

(** [static inline int ceil_divide(int x) { return x / 2 + (x % 2 != 0); }]
    C++ division truncates: [Z.quot] and [Z.rem]. *)
Definition ceil_divide (x : Z) : Z :=
  Z.quot x 2 + (if Z.rem x 2 =? 0 then 0 else 1).

(** The loop of [padding_size]; [None] when the fuel runs out.  The result
    [dimension * (1 << power)] is an [int]: the shift and the product wrap
    around. *)
Fixpoint padding_size_loop (fuel : nat) (dimension cutoff power : Z) : option Z :=
  if cutoff <? dimension then
    match fuel with
    | O => None
    | S fuel' => padding_size_loop fuel' (ceil_divide dimension) cutoff (power + 1)
    end
  else Some (int_mul dimension (wrap (Z.shiftl 1 power))).

(** A loop that is entered halves a value of at least 2 when it terminates
    at all, so [dimension] iterations are more than it can use. *)
Definition padding_size (dimension cutoff : Z) : option Z :=
  padding_size_loop (Z.to_nat dimension) dimension cutoff 0.

(** [class matrix_data]: a dimension and a shared vector. *)
Record matrix_data := MatrixData {
  md_dimension : Z;
  md_data : nat;
}.

(** The buffer a constructor call yields when its [dimension * dimension]
    is the exact product: a fresh zero-filled vector of that many cells. *)
Definition alloc_matrix_data (dimension : Z) (h : heap) : matrix_data * heap :=
  (MatrixData dimension (length h),
   h ++ [replicate (Z.to_nat (dimension * dimension)) 0]).

(** [matrix_data(int dimension)].  The size [dimension * dimension] is an
    [int] product converted to [size_t]: a product that wraps to a
    negative [int] becomes a size above [max_size()] and [std::vector]
    throws [std::length_error] ([None]); one that wraps to a non-negative
    [int] gives a vector of that many cells. *)
Definition new_matrix_data (dimension : Z) (h : heap)
    : option (matrix_data * heap) :=
  let size := int_mul dimension dimension in
  if size <? 0 then None
  else Some (MatrixData dimension (length h),
             h ++ [replicate (Z.to_nat size) 0]).

Definition matrix_data_in_bounds (sh : list nat) (m : matrix_data) (i j : Z) : bool :=
  (0 <=? i) && (0 <=? j) && (i + md_dimension m * j <? vsize sh (md_data m)).

(** [data->at(i + dimension * j)] throws [std::out_of_range] ([None]) when
    the index is not below the size. *)
Definition matrix_data_get (h : heap) (m : matrix_data) (i j : Z) : option Z :=
  let k := i + md_dimension m * j in
  if (0 <=? k) && (k <? vsize (shape h) (md_data m))
  then Some (load h (Cell (md_data m) (Z.to_nat k)))
  else None.

(** [class submatrix]: a window into a [matrix_data]. *)
Record submatrix := Submatrix {
  sm_data : matrix_data;
  sm_i : Z;
  sm_j : Z;
  sm_dimension : Z;
}.

(** [submatrix(matrix_data data)], also the implicit conversion. *)
Definition submatrix_of (data : matrix_data) : submatrix :=
  Submatrix data 0 0 (md_dimension data).

Definition with_dimension (m : submatrix) (dimension : Z) : submatrix :=
  Submatrix (sm_data m) (sm_i m) (sm_j m) dimension.

(** [submatrix::sub] *)
Definition submatrix_sub (m : submatrix) (x y : Z) : submatrix :=
  let d := ceil_divide (sm_dimension m) in
  Submatrix (sm_data m) (sm_i m + x * d) (sm_j m + y * d) d.

(** [submatrix::in_bounds] *)
Definition submatrix_in_bounds (sh : list nat) (m : submatrix) (x y : Z) : bool :=
  matrix_data_in_bounds sh (sm_data m) (x + sm_i m) (y + sm_j m)
  && ((0 <=? x) && (x <? sm_dimension m) && (0 <=? y) && (y <? sm_dimension m)).

(** [submatrix::at].  In the second branch [in_bounds] has established that
    the index is inside the vector, so [vector::at] does not throw
    ([submatrix_at_in_range] below). *)
Definition submatrix_at (sh : list nat) (m : submatrix) (x y : Z) : ref :=
  if submatrix_in_bounds sh m x y
  then Cell (md_data (sm_data m))
            (Z.to_nat ((x + sm_i m) + md_dimension (sm_data m) * (y + sm_j m)))
  else Padding.

(** [m.at(x, y)] read and [m.at(x, y) = v]. *)
Definition get (h : heap) (m : submatrix) (x y : Z) : Z :=
  load h (submatrix_at (shape h) m x y).

Definition set (h : heap) (m : submatrix) (x y : Z) (v : Z) : heap :=
  store h (submatrix_at (shape h) m x y) v.

(** [submatrix::clear] *)
Definition submatrix_clear (m : submatrix) (h : heap) : heap :=
  for_loop (sm_dimension m) (λ j h,
    for_loop (sm_dimension m) (λ i h, set h m i j 0) h) h.

(** [void sum(submatrix a, submatrix b, submatrix c)] *)
Definition sum (a b c : submatrix) (h : heap) : heap :=
  let dimension := sm_dimension c in
  for_loop dimension (λ j h,
    for_loop dimension (λ i h,
      set h c i j (int_add (get h a i j) (get h b i j))) h) h.

(** [void sub(submatrix a, submatrix b, submatrix c)] *)
Definition sub (a b c : submatrix) (h : heap) : heap :=
  let dimension := sm_dimension c in
  for_loop dimension (λ j h,
    for_loop dimension (λ i h,
      set h c i j (int_sub (get h a i j) (get h b i j))) h) h.

(** [void linear_mul(submatrix a, submatrix b, submatrix c)] *)
Definition linear_mul (a b c : submatrix) (h : heap) : heap :=
  let dimension := sm_dimension c in
  for_loop dimension (λ k h,
    for_loop dimension (λ i h,
      let r := get h a i k in
      for_loop dimension (λ j h,
        set h c i j (int_add (get h c i j) (int_mul r (get h b k j)))) h) h) h.

(** The two ways a call of the recursive multiply can go. *)
Inductive branch := Delegate | Decompose.

(** [if (C.dimension % 2 == 1 || C.dimension <= cutoff)] *)
Definition strassen_branch (cutoff : Z) (C : submatrix) : branch :=
  if (Z.rem (sm_dimension C) 2 =? 1) || (sm_dimension C <=? cutoff)
  then Delegate else Decompose.

Definition multiplier : Type :=
  submatrix → submatrix → submatrix → submatrix → heap → option heap.

(** The part of the lambda after the base case: quadrants, the seven
    products and their recombination.  [self] is the [std::function] the
    lambda calls itself through. *)
Definition strassen_decompose (self : multiplier) (A B C S : submatrix)
    (h : heap) : option heap :=
  let A00 := submatrix_sub A 0 0 in
  let A01 := submatrix_sub A 0 1 in
  let A10 := submatrix_sub A 1 0 in
  let A11 := submatrix_sub A 1 1 in
  let B00 := submatrix_sub B 0 0 in
  let B01 := submatrix_sub B 0 1 in
  let B10 := submatrix_sub B 1 0 in
  let B11 := submatrix_sub B 1 1 in
  let C00 := submatrix_sub C 0 0 in
  let C01 := submatrix_sub C 0 1 in
  let C10 := submatrix_sub C 1 0 in
  let C11 := submatrix_sub C 1 1 in
  let M := submatrix_sub S 0 0 in
  let SR := submatrix_sub S 0 1 in
  let sum0 := submatrix_sub S 1 0 in
  let sum1 := submatrix_sub S 1 1 in
  (* M1 *)
  let h := sum A00 A11 sum0 h in
  let h := sum B00 B11 sum1 h in
  h ← self sum0 sum1 M SR h;
  let h := sum C00 M C00 h in
  let h := sum C11 M C11 h in
  (* M2 *)
  let h := sum A10 A11 sum0 h in
  h ← self sum0 B00 M SR h;
  let h := sum C10 M C10 h in
  let h := sub C11 M C11 h in
  (* M3 *)
  let h := sub B01 B11 sum0 h in
  h ← self A00 sum0 M SR h;
  let h := sum C01 M C01 h in
  let h := sum C11 M C11 h in
  (* M4 *)
  let h := sub B10 B00 sum0 h in
  h ← self A11 sum0 M SR h;
  let h := sum C00 M C00 h in
  let h := sum C10 M C10 h in
  (* M5 *)
  let h := sum A00 A01 sum0 h in
  h ← self sum0 B11 M SR h;
  let h := sub C00 M C00 h in
  let h := sum C01 M C01 h in
  (* M6 *)
  let h := sub A10 A00 sum0 h in
  let h := sum B00 B01 sum1 h in
  h ← self sum0 sum1 M SR h;
  let h := sum C11 M C11 h in
  (* M7 *)
  let h := sub A01 A11 sum0 h in
  let h := sum B10 B11 sum1 h in
  h ← self sum0 sum1 M SR h;
  Some (sum C00 M C00 h).

(** The body of the lambda [strassen_mul_recursion]. *)
Definition strassen_mul_recursion_body (cutoff : Z) (self : multiplier)
    : multiplier := λ A B C S h,
  let h := submatrix_clear C h in
  match strassen_branch cutoff C with
  | Delegate => Some (linear_mul A B C h)
  | Decompose => strassen_decompose self A B C S h
  end.

(** The lambda tied to itself; [None] when the fuel runs out. *)
Fixpoint strassen_mul_recursion (cutoff : Z) (fuel : nat) : multiplier :=
  match fuel with
  | O => λ _ _ _ _ _, None
  | S fuel' =>
      strassen_mul_recursion_body cutoff (strassen_mul_recursion cutoff fuel')
  end.

(** [void strassen_mul(submatrix a, submatrix b, submatrix c, int cutoff)].
    The scratch arena has the side of [c].  [c] is a buffer the constructor
    has made ([main] passes [c_padded]), so the square of that side has
    been computed before without a throw: the arena is
    [alloc_matrix_data]. *)
Definition strassen_mul (fuel : nat) (a b c : submatrix) (cutoff : Z)
    (h : heap) : option heap :=
  let dimension := sm_dimension c in
  let a := with_dimension a dimension in
  let b := with_dimension b dimension in
  let '(scratch_space, h) := alloc_matrix_data dimension h in
  strassen_mul_recursion cutoff fuel a b c (submatrix_of scratch_space) h.

(** One comparison of [operator==]: [None] when a [get] throws. *)
Definition cells_differ (h : heap) (m other : submatrix) (x y : Z) : option bool :=
  u ← matrix_data_get h (sm_data m) x y;
  v ← matrix_data_get h (sm_data other) x y;
  Some (negb (u =? v)).

(** The first of a list of comparisons that throws or finds a difference
    ends the loops of [operator==]. *)
Fixpoint first_difference (h : heap) (m other : submatrix)
    (cells : list (Z * Z)) : option bool :=
  match cells with
  | [] => Some true
  | (x, y) :: cells' =>
      d ← cells_differ h m other x y;
      if d : bool then Some false else first_difference h m other cells'
  end.

(** [bool submatrix::operator==(const submatrix& other) const] *)
Definition submatrix_eq (h : heap) (m other : submatrix) : option bool :=
  if negb (sm_dimension m =? sm_dimension other) then Some false
  else first_difference h m other
         (x ← seqZ 0 (sm_dimension other);
          y ← seqZ 0 (sm_dimension other); [(x, y)]).

End Strassen.

(** * The allocating program ([_strassen.cpp]) *)

Module StrassenAlloc.

(** How a piece of the program ends: it returns; it is aborted, by an
    exception of [vector::at] that nothing catches or by a failed
    [assert]; or the model ran out of fuel before it did either. *)
Inductive result (A : Type) : Type :=
  | Return (a : A)
  | Abort
  | OutOfFuel.

Arguments Return {A} a.
Arguments Abort {A}.
Arguments OutOfFuel {A}.

#[global] Instance result_bind : MBind result := λ A B f r,
  match r with
  | Return a => f a
  | Abort => Abort
  | OutOfFuel => OutOfFuel
  end.

(** [struct global_stats]: three [long] counters, on [Z]. *)
Record global_stats := GlobalStats {
  multiplications : Z;
  additions : Z;
  ints_allocated : Z;
}.

(** The heap of vectors and the global [stats]. *)
Record state := State {
  st_heap : heap;
  st_stats : global_stats;
}.

(** [struct matrix_data]: the shared vector and the side [N] of the buffer. *)
Record matrix_data := MatrixData {
  md_data : nat;
  md_N : Z;
}.

(** [inline int ceil_divide(int x) { return x / 2 + (x % 2 != 0); }] *)
Definition ceil_divide (x : Z) : Z :=
  Z.quot x 2 + (if Z.rem x 2 =? 0 then 0 else 1).

(** [struct matrix]: a window of side [n] at [(i, j)] into a buffer. *)
Record matrix := Matrix {
  mat_i : Z;
  mat_j : Z;
  mat_n : Z;
  mat_data : matrix_data;
}.

(** [matrix(int N)]: a fresh vector of [N * N] value-initialised [int]s,
    counted in [stats.ints_allocated]. *)
Definition new_matrix (N : Z) (s : state) : matrix * state :=
  (Matrix 0 0 N (MatrixData (length (st_heap s)) N),
   State (st_heap s ++ [replicate (Z.to_nat (N * N)) 0])
     (GlobalStats (multiplications (st_stats s)) (additions (st_stats s))
        (ints_allocated (st_stats s) + N * N))).

(** [matrix::sub] *)
Definition matrix_sub (m : matrix) (x y : Z) : matrix :=
  let n := ceil_divide (mat_n m) in
  Matrix (mat_i m + x * n) (mat_j m + y * n) n (mat_data m).

(** [vector::at], read and written: out of range it throws.  A negative
    index, converted to [size_t], is out of range. *)
Definition vector_at (h : heap) (p : nat) (k : Z) : result Z :=
  if (0 <=? k) && (k <? vsize (shape h) p)
  then Return (load h (Cell p (Z.to_nat k))) else Abort.

Definition vector_put (h : heap) (p : nat) (k v : Z) : result heap :=
  if (0 <=? k) && (k <? vsize (shape h) p)
  then Return (store h (Cell p (Z.to_nat k)) v) else Abort.

(** [matrix::at]: the coordinates are checked against the side of the
    buffer only, and only from above. *)
Definition matrix_at (h : heap) (m : matrix) (x y : Z) : result Z :=
  let d := mat_data m in
  if (x + mat_i m <? md_N d) && (y + mat_j m <? md_N d)
  then vector_at h (md_data d) (x + mat_i m + md_N d * (y + mat_j m))
  else Return 0.

(** [matrix::set] *)
Definition matrix_set (m : matrix) (x y value : Z) (h : heap) : result heap :=
  let d := mat_data m in
  if (x + mat_i m <? md_N d) && (y + mat_j m <? md_N d)
  then vector_put h (md_data d) (x + mat_i m + md_N d * (y + mat_j m)) value
  else Return h.

(** [for (int k = 0; k < n; ++k) body(k)] where the body may not return. *)
Definition for_loop_try {St : Type} (n : Z) (body : Z → St → result St)
    (s : St) : result St :=
  for_loop n (λ k r, r ≫= body k) (Return s).

(** [++stats.additions] and [++stats.multiplications] *)
Definition count (mults adds : Z) (h : heap) (t : global_stats) : state :=
  State h (GlobalStats (multiplications t + mults) (additions t + adds)
             (ints_allocated t)).

(** The lambda [sum]. *)
Definition sum (a b c : matrix) (s : state) : result state :=
  for_loop_try (mat_n c) (λ y s,
    for_loop_try (mat_n c) (λ x s,
      va ← matrix_at (st_heap s) a x y;
      vb ← matrix_at (st_heap s) b x y;
      h ← matrix_set c x y (int_add va vb) (st_heap s);
      Return (count 0 1 h (st_stats s))) s) s.

(** The lambda [sub]. *)
Definition sub (a b c : matrix) (s : state) : result state :=
  for_loop_try (mat_n c) (λ y s,
    for_loop_try (mat_n c) (λ x s,
      va ← matrix_at (st_heap s) a x y;
      vb ← matrix_at (st_heap s) b x y;
      h ← matrix_set c x y (int_sub va vb) (st_heap s);
      Return (count 0 1 h (st_stats s))) s) s.

(** The base case of [mul]: the triple loop, accumulating into [c]. *)
Definition mul_base (a b c : matrix) (s : state) : result state :=
  for_loop_try (mat_n c) (λ x s,
    for_loop_try (mat_n c) (λ y s,
      for_loop_try (mat_n c) (λ z s,
        vc ← matrix_at (st_heap s) c x y;
        va ← matrix_at (st_heap s) a x z;
        vb ← matrix_at (st_heap s) b z y;
        h ← matrix_set c x y (int_add vc (int_mul va vb)) (st_heap s);
        Return (count 1 1 h (st_stats s))) s) s) s.

Definition multiplier : Type := matrix → matrix → matrix → state → result state.

(** The other case of [mul]: nine temporaries of side [m], seven products
    by [self], and the recombination into the quadrants of [c]. *)
Definition mul_split (self : multiplier) (a b c : matrix) (s : state)
    : result state :=
  let m := ceil_divide (mat_n c) in
  let '(sum0, s) := new_matrix m s in
  let '(sum1, s) := new_matrix m s in
  let '(m0, s) := new_matrix m s in
  s ← sum (matrix_sub a 0 0) (matrix_sub a 1 1) sum0 s;
  s ← sum (matrix_sub b 0 0) (matrix_sub b 1 1) sum1 s;
  s ← self sum0 sum1 m0 s;
  let '(m1, s) := new_matrix m s in
  s ← sum (matrix_sub a 1 0) (matrix_sub a 1 1) sum0 s;
  s ← self sum0 (matrix_sub b 0 0) m1 s;
  let '(m2, s) := new_matrix m s in
  s ← sub (matrix_sub b 0 1) (matrix_sub b 1 1) sum1 s;
  s ← self (matrix_sub a 0 0) sum1 m2 s;
  let '(m3, s) := new_matrix m s in
  s ← sub (matrix_sub b 1 0) (matrix_sub b 0 0) sum1 s;
  s ← self (matrix_sub a 1 1) sum1 m3 s;
  let '(m4, s) := new_matrix m s in
  s ← sum (matrix_sub a 0 0) (matrix_sub a 0 1) sum0 s;
  s ← self sum0 (matrix_sub b 1 1) m4 s;
  let '(m5, s) := new_matrix m s in
  s ← sub (matrix_sub a 1 0) (matrix_sub a 0 0) sum0 s;
  s ← sum (matrix_sub b 0 0) (matrix_sub b 0 1) sum1 s;
  s ← self sum0 sum1 m5 s;
  let '(m6, s) := new_matrix m s in
  s ← sub (matrix_sub a 0 1) (matrix_sub a 1 1) sum0 s;
  s ← sum (matrix_sub b 1 0) (matrix_sub b 1 1) sum1 s;
  s ← self sum0 sum1 m6 s;
  let c00 := matrix_sub c 0 0 in
  let c10 := matrix_sub c 1 0 in
  let c01 := matrix_sub c 0 1 in
  let c11 := matrix_sub c 1 1 in
  s ← sum m0 m3 c00 s;
  s ← sum c00 m6 c00 s;
  s ← sub c00 m4 c00 s;
  s ← sum m2 m4 c01 s;
  s ← sum m1 m3 c10 s;
  s ← sum m0 m2 c11 s;
  s ← sum c11 m5 c11 s;
  sub c11 m1 c11 s.

(** The body of the lambda [mul], its self-reference abstracted.  The
    [assert] is taken to be compiled in. *)
Definition mul_body (cutoff : Z) (self : multiplier) : multiplier :=
  λ a b c s,
    if negb ((mat_n a =? mat_n b) && (mat_n b =? mat_n c)) then Abort
    else if mat_n c <=? cutoff then mul_base a b c s
    else mul_split self a b c s.

(** [mul], with fuel for the depth of the recursion. *)
Fixpoint mul (cutoff : Z) (fuel : nat) : multiplier :=
  match fuel with
  | O => λ _ _ _ _, OutOfFuel
  | S fuel' => mul_body cutoff (mul cutoff fuel')
  end.

(** [main] from the point where [a] and [b] are filled: [c] is allocated,
    [mul(a, b, c)] runs, and the three matrices of [main] are taken off
    the allocation counter.  The counters are [long]; the amount taken
    off, [3 * dimension * dimension], is an [int] product and wraps
    around before it is subtracted. *)
Definition main_mul (fuel : nat) (dimension cutoff : Z) (va vb : list Z)
    : result (matrix * state) :=
  let a := Matrix 0 0 dimension (MatrixData 0 dimension) in
  let b := Matrix 0 0 dimension (MatrixData 1 dimension) in
  let s := State [va; vb] (GlobalStats 0 0 (2 * (dimension * dimension))) in
  let '(c, s) := new_matrix dimension s in
  s ← mul cutoff fuel a b c s;
  Return (c, State (st_heap s)
               (GlobalStats (multiplications (st_stats s))
                  (additions (st_stats s))
                  (ints_allocated (st_stats s)
                   - int_mul (int_mul 3 dimension) dimension))).

End StrassenAlloc.

(** * The first program of [part_000]: the linear multiplier alone *)

Module LinearOnly.

(** [matrix_data], [submatrix] and [operator==] are those of [Strassen],
    word for word; the views have no [in_bounds], [sub] or [clear]. *)

(** [submatrix::at]: the coordinates are checked against the side of the
    view only; behind the check [vector::at] throws ([None]) when the
    index is outside the vector. *)
Definition submatrix_at (sh : list nat) (m : Strassen.submatrix) (x y : Z)
    : option ref :=
  if (x <? 0) || (Strassen.sm_dimension m <=? x)
     || (y <? 0) || (Strassen.sm_dimension m <=? y)
  then Some Padding
  else
    let d := Strassen.sm_data m in
    let k := (x + Strassen.sm_i m)
             + Strassen.md_dimension d * (y + Strassen.sm_j m) in
    if (0 <=? k) && (k <? vsize sh (Strassen.md_data d))
    then Some (Cell (Strassen.md_data d) (Z.to_nat k))
    else None.

(** [m.at(x, y)] read. *)
Definition get (h : heap) (m : Strassen.submatrix) (x y : Z) : option Z :=
  r ← submatrix_at (shape h) m x y; Some (load h r).

(** [for (int k = 0; k < n; ++k) body(k)] where the body may throw. *)
Definition for_loop_opt {St : Type} (n : Z) (body : Z → St → option St)
    (s : St) : option St :=
  for_loop n (λ k r, r ≫= body k) (Some s).

(** [void sum(submatrix a, submatrix b, submatrix c)]: over the smaller of
    the sides of [a] and [b]; the [assert] is taken to be compiled in. *)
Definition sum (a b c : Strassen.submatrix) (h : heap) : option heap :=
  let dimension := Z.min (Strassen.sm_dimension a) (Strassen.sm_dimension b) in
  if dimension <=? Strassen.sm_dimension c then
    for_loop_opt dimension (λ j h,
      for_loop_opt dimension (λ i h,
        va ← get h a i j;
        vb ← get h b i j;
        r ← submatrix_at (shape h) c i j;
        Some (store h r (int_add va vb))) h) h
  else None.

(** [void linear_mul(submatrix a, submatrix b, submatrix c)]: over the
    larger of the sides of [a] and [b]. *)
Definition linear_mul (a b c : Strassen.submatrix) (h : heap) : option heap :=
  let dimension := Z.max (Strassen.sm_dimension a) (Strassen.sm_dimension b) in
  if dimension <=? Strassen.sm_dimension c then
    for_loop_opt dimension (λ k h,
      for_loop_opt dimension (λ i h,
        r ← get h a i k;
        for_loop_opt dimension (λ j h,
          vb ← get h b k j;
          rc ← submatrix_at (shape h) c i j;
          Some (store h rc (int_add (load h rc) (int_mul r vb)))) h) h) h
  else None.

(** [operator<<]: the rows it prints.  It passes [x + m.i] and [y + m.j] to
    [at], which adds the origin again. *)
Definition print (h : heap) (m : Strassen.submatrix) : option (list (list Z)) :=
  mapM (λ x,
    mapM (λ y, get h m (x + Strassen.sm_i m) (y + Strassen.sm_j m))
      (seqZ 0 (Strassen.sm_dimension m)))
    (seqZ 0 (Strassen.sm_dimension m)).

(** [main] from the point where [a] and [b] are filled: [linear_mul(a, b, c)]
    into the buffer allocated third, which has their side. *)
Definition main_multiply (dimension : Z) (va vb : list Z)
    : option (heap * Strassen.submatrix) :=
  let a := Strassen.MatrixData dimension 0 in
  let b := Strassen.MatrixData dimension 1 in
  let '(c, h) := Strassen.alloc_matrix_data dimension [va; vb] in
  h ← linear_mul (Strassen.submatrix_of a) (Strassen.submatrix_of b)
         (Strassen.submatrix_of c) h;
  Some (h, Strassen.submatrix_of c).

(** The [VERIFY] branch of [main]: the value of the asserted comparison. *)
Definition main_verify (dimension : Z) (h : heap) (c : Strassen.submatrix)
    : option bool :=
  let a := Strassen.MatrixData dimension 0 in
  let b := Strassen.MatrixData dimension 1 in
  let '(check, h) := Strassen.alloc_matrix_data dimension h in
  h ← linear_mul (Strassen.submatrix_of a) (Strassen.submatrix_of b)
         (Strassen.submatrix_of check) h;
  Strassen.submatrix_eq h c (Strassen.submatrix_of check).

End LinearOnly.

Import Strassen.

(** * Specification vocabulary *)

(** Equality of machine integers: congruence modulo [2 ^ 32]. *)
Inductive eqw (a b : Z) : Prop :=
  | eqw_intro : a mod 2 ^ 32 = b mod 2 ^ 32 → eqw a b.

#[export] Instance ref_eq_dec : EqDecision ref.
Proof. solve_decision. Defined.

Definition valid_ref (sh : list nat) (r : ref) : Prop :=
  match r with
  | Cell p k => Z.of_nat k < vsize sh p
  | Padding => True
  end.

Definition ptr (m : submatrix) : nat := md_data (sm_data m).

(** Every cell of the view is a cell of its vector. *)
Definition good (sh : list nat) (m : submatrix) : Prop :=
  ∀ x y, 0 ≤ x < sm_dimension m → 0 ≤ y < sm_dimension m →
    submatrix_at sh m x y ≠ Padding.

(** A cell of [a] that is a cell of [c] sits at the same coordinates. *)
Definition compat (sh : list nat) (a c : submatrix) : Prop :=
  ∀ x y x' y', submatrix_at sh a x y = submatrix_at sh c x' y' →
    submatrix_at sh a x y ≠ Padding → x = x' ∧ y = y'.

(** The two views share no cell. *)
Definition sep (sh : list nat) (a c : submatrix) : Prop :=
  ∀ x y x' y', submatrix_at sh a x y = submatrix_at sh c x' y' →
    submatrix_at sh a x y = Padding.

(** The common shape of [clear], [sum] and [sub]. *)
Definition fill (c : submatrix) (val : heap → Z → Z → Z) (h : heap) : heap :=
  for_loop (sm_dimension c) (λ j h,
    for_loop (sm_dimension c) (λ i h, set h c i j (val h i j)) h) h.

(** What a loop that has written [vspec] through [c] leaves behind. *)
Definition written (sh : list nat) (c : submatrix) (vspec : Z → Z → Z)
    (h0 hf : heap) : Prop :=
  shape hf = sh
  ∧ (∀ x y, 0 ≤ x < sm_dimension c → 0 ≤ y < sm_dimension c →
       submatrix_at sh c x y ≠ Padding →
       load hf (submatrix_at sh c x y) = vspec x y)
  ∧ (∀ r, (∀ x y, 0 ≤ x < sm_dimension c → 0 ≤ y < sm_dimension c →
             submatrix_at sh c x y ≠ r) → load hf r = load h0 r).

(** Round [k] of [linear_mul]: the loops over [i] and [j]. *)
Definition linear_round (a b c : submatrix) (k : Z) (h : heap) : heap :=
  for_loop (sm_dimension c) (λ i h,
    let r := get h a i k in
    for_loop (sm_dimension c) (λ j h,
      set h c i j (int_add (get h c i j) (int_mul r (get h b k j)))) h) h.

(** The value a cell has accumulated after [k] rounds. *)
Definition accumulate (k : Z) (c0 : Z) (f : Z → Z) : Z :=
  for_loop k (λ k' v, int_add v (f k')) c0.

Record layout (sh : list nat) (n : Z) (A B C S : submatrix) : Prop := {
  lay_A : sm_dimension A = n;
  lay_B : sm_dimension B = n;
  lay_C : sm_dimension C = n;
  lay_S : sm_dimension S = n;
  lay_DC : 0 ≤ md_dimension (sm_data C);
  lay_DS : 0 ≤ md_dimension (sm_data S);
  lay_goodC : good sh C;
  lay_goodS : good sh S;
  lay_injC : compat sh C C;
  lay_injS : compat sh S S;
  lay_CS : sep sh C S;
  lay_AC : sep sh A C;
  lay_AS : sep sh A S;
  lay_BC : sep sh B C;
  lay_BS : sep sh B S;
}.

(** [r] is no cell of the view. *)
Definition outside (sh : list nat) (m : submatrix) (r : ref) : Prop :=
  ∀ x y, submatrix_at sh m x y ≠ r.

(** The entry [(x, y)] of the product of the matrices read through [A]
    and [B], in machine arithmetic. *)
Definition product (h : heap) (A B : submatrix) (n x y : Z) : Z :=
  wrap (zsum n (λ k, get h A x k * get h B k y)).

Definition multiplies (self : multiplier) (n : Z) : Prop :=
  ∀ sh A B C S h, layout sh n A B C S → shape h = sh →
    ∃ h', self A B C S h = Some h' ∧ shape h' = sh
      ∧ (∀ x y, 0 ≤ x < n → 0 ≤ y < n → get h' C x y = product h A B n x y)
      ∧ (∀ r, outside sh C r → outside sh S r → load h' r = load h r).

(** Matrices as functions of the coordinates. *)
Definition madd (f g : Z → Z → Z) : Z → Z → Z := λ x y, int_add (f x y) (g x y).
Definition msub (f g : Z → Z → Z) : Z → Z → Z := λ x y, int_sub (f x y) (g x y).
Definition mmul (m : Z) (f g : Z → Z → Z) : Z → Z → Z :=
  λ x y, wrap (zsum m (λ k, f x k * g k y)).

(** The views one level of the recursion writes ... *)
Inductive region := RC (qx qy : bool) | RM | RS0 | RS1.

(** ... and the views it reads. *)
Inductive source := SA (qx qy : bool) | SB (qx qy : bool) | SReg (t : region).

#[export] Instance region_eq_dec : EqDecision region.
Proof. solve_decision. Defined.

Definition region_eqb (t t' : region) : bool :=
  match t, t' with
  | RC qx qy, RC qx' qy' => Bool.eqb qx qx' && Bool.eqb qy qy'
  | RM, RM | RS0, RS0 | RS1, RS1 => true
  | _, _ => false
  end.

(** The matrices held by the regions. *)
Record contents := Contents {
  c00 : Z → Z → Z;
  c01 : Z → Z → Z;
  c10 : Z → Z → Z;
  c11 : Z → Z → Z;
  cM : Z → Z → Z;
  cS0 : Z → Z → Z;
  cS1 : Z → Z → Z;
}.

Definition cget (σ : contents) (t : region) : Z → Z → Z :=
  match t with
  | RC false false => c00 σ
  | RC false true => c01 σ
  | RC true false => c10 σ
  | RC true true => c11 σ
  | RM => cM σ
  | RS0 => cS0 σ
  | RS1 => cS1 σ
  end.

Definition cset (σ : contents) (t : region) (f : Z → Z → Z) : contents :=
  match t with
  | RC false false => Contents f (c01 σ) (c10 σ) (c11 σ) (cM σ) (cS0 σ) (cS1 σ)
  | RC false true => Contents (c00 σ) f (c10 σ) (c11 σ) (cM σ) (cS0 σ) (cS1 σ)
  | RC true false => Contents (c00 σ) (c01 σ) f (c11 σ) (cM σ) (cS0 σ) (cS1 σ)
  | RC true true => Contents (c00 σ) (c01 σ) (c10 σ) f (cM σ) (cS0 σ) (cS1 σ)
  | RM => Contents (c00 σ) (c01 σ) (c10 σ) (c11 σ) f (cS0 σ) (cS1 σ)
  | RS0 => Contents (c00 σ) (c01 σ) (c10 σ) (c11 σ) (cM σ) f (cS1 σ)
  | RS1 => Contents (c00 σ) (c01 σ) (c10 σ) (c11 σ) (cM σ) (cS0 σ) f
  end.

(** The view is a square inside [[0, D) × [0, D)] of a buffer that holds
    [D * D] integers. *)
Definition proper (sh : list nat) (m : submatrix) : bool :=
  (0 <=? sm_i m) && (0 <=? sm_j m) && (0 <=? sm_dimension m)
  && (sm_i m + sm_dimension m <=? md_dimension (sm_data m))
  && (sm_j m + sm_dimension m <=? md_dimension (sm_data m))
  && (vsize sh (ptr m) =? md_dimension (sm_data m) * md_dimension (sm_data m)).

(** The references [at] hands out over the side of the view. *)
Definition cells (sh : list nat) (m : submatrix) : list ref :=
  x ← seqZ 0 (sm_dimension m); y ← seqZ 0 (sm_dimension m);
  [submatrix_at sh m x y].

(** No cell of [a] is a cell of [c]. *)
Definition disjoint (sh : list nat) (a c : submatrix) : bool :=
  forallb (λ r, match r with
                | Padding => true
                | Cell _ _ => negb (bool_decide (r ∈ cells sh c))
                end) (cells sh a).

(** Every vector but those at [pC] and [pS] is as it was. *)
Definition frame2 (pC pS : nat) (h h' : heap) : Prop :=
  length h' = length h ∧ ∀ p, p ≠ pC → p ≠ pS → h' !! p = h !! p.

(** The ceiling of [x / 2]. *)
Definition ceil_half (x : Z) : Z := (x + 1) `div` 2.

(** The work of [main] between reading the input and printing: the padded
    output buffer, the view [c] of its true region, and the multiplication.
    [va] and [vb] are the vectors of [a] and [b] once they are populated.
    [None] is a run that does not come back: the constructor of
    [c_padded] throws, or the fuel of the recursion runs out. *)
Definition main_multiply (fuel : nat) (dimension cutoff : Z) (va vb : list Z)
    : option (heap * submatrix) :=
  let h := [va; vb] in
  let a := MatrixData dimension 0 in
  let b := MatrixData dimension 1 in
  P ← padding_size dimension cutoff;
  '(c_padded, h) ← new_matrix_data P h;
  let c := with_dimension (submatrix_of c_padded) dimension in
  h ← strassen_mul fuel (submatrix_of a) (submatrix_of b)
         (submatrix_of c_padded) cutoff h;
  Some (h, c).

(** The [VERIFY] branch of [main]: the value of the asserted comparison. *)
Definition main_verify (dimension : Z) (h : heap) (c : submatrix) : option bool :=
  let a := MatrixData dimension 0 in
  let b := MatrixData dimension 1 in
  '(check, h) ← new_matrix_data dimension h;
  let h := linear_mul (submatrix_of a) (submatrix_of b) (submatrix_of check) h in
  submatrix_eq h c (submatrix_of check).

(** The entry [(x, y)] of the product of two [n × n] matrices stored as
    vectors, first coordinate fastest, in machine arithmetic. *)
Definition matrix_product (n : Z) (va vb : list Z) (x y : Z) : Z :=
  wrap (zsum n (λ k, default 0 (va !! Z.to_nat (x + n * k))
                     * default 0 (vb !! Z.to_nat (k + n * y)))).

(** The cell [(x, y)] of a buffer, as [matrix_data::at] lays it out. *)
Definition buffer_cell (h : heap) (m : matrix_data) (x y : Z) : Z :=
  load h (Cell (md_data m) (Z.to_nat (x + md_dimension m * y))).

(** The buffer holds the square of side [n] at its origin. *)
Definition holds_square (sh : list nat) (m : matrix_data) (n : Z) : bool :=
  (n <=? md_dimension m)
  && (vsize sh (md_data m) =? md_dimension m * md_dimension m).

(** The naive reference: [linear_mul] on the populated [a] and [b] and a
    fresh output buffer of their side. *)
Definition linear_reference (dimension : Z) (va vb : list Z) : heap * submatrix :=
  let '(check, h) := alloc_matrix_data dimension [va; vb] in
  (linear_mul (submatrix_of (MatrixData dimension 0))
     (submatrix_of (MatrixData dimension 1)) (submatrix_of check) h,
   submatrix_of check).

(** C1 as it is stated, at a dimension and a cutoff: for all matrices of
    that side the run of [main] returns and gives, cell for cell, what the
    linear multiplier gives. *)
Definition equals_linear_claim (N cutoff : Z) : Prop :=
  ∀ va vb,
    Z.of_nat (length va) = N * N → Z.of_nat (length vb) = N * N →
    ∃ P, padding_size N cutoff = Some P ∧
      ∀ fuel, (Z.to_nat P < fuel)%nat →
      ∃ h c, main_multiply fuel N cutoff va vb = Some (h, c)
        ∧ ∀ x y, 0 ≤ x < N → 0 ≤ y < N →
            get h c x y
            = get (fst (linear_reference N va vb))
                  (snd (linear_reference N va vb)) x y.

(** C3 as it is stated, at a dimension and a cutoff: the calculator
    returns [final * 2 ^ k] for the number [k] of ceiling-halvings that
    bring [N] down to a value [final <= C]. *)
Definition halvings_claim (N C : Z) : Prop :=
  ∃ k : nat,
    padding_size N C = Some (Nat.iter k ceil_half N * 2 ^ Z.of_nat k)
    ∧ Nat.iter k ceil_half N ≤ C
    ∧ ∀ k' : nat, (k' < k)%nat → C < Nat.iter k' ceil_half N.

(** C2 as it is stated: the cell [(origin_row + x, origin_col + y)] of the
    buffer is read and written when it lies inside
    [[0, dimension) × [0, dimension)]; otherwise the read is 0 and the
    write changes nothing. *)
Definition access_claim (h : heap) (m : submatrix) (x y v : Z) : Prop :=
  let X := sm_i m + x in
  let Y := sm_j m + y in
  let D := md_dimension (sm_data m) in
  (0 ≤ X < D ∧ 0 ≤ Y < D →
     get h m x y = buffer_cell h (sm_data m) X Y
     ∧ buffer_cell (set h m x y v) (sm_data m) X Y = v)
  ∧ (¬ (0 ≤ X < D ∧ 0 ≤ Y < D) →
     get h m x y = 0 ∧ set h m x y v = h).

(** C5 as it is stated, for all views. *)
Definition accumulates (h : heap) (a b c : submatrix) : Prop :=
  ∀ i j, 0 ≤ i < sm_dimension c → 0 ≤ j < sm_dimension c →
    get (linear_mul a b c h) c i j
    = wrap (get h c i j
            + zsum (sm_dimension c) (λ k, get h a i k * get h b k j)).

(** [vector::at] as the target of an assignment: out of range it throws. *)
Definition vector_at_put (v : list Z) (k x : Z) : option (list Z) :=
  if (0 <=? k) && (k <? Z.of_nat (length v))
  then Some (<[Z.to_nat k := x]> v) else None.

(** One turn of the reading loop of [main]: line [i] of the file, holding
    the integer [v], goes to [a] while [i < dimension * dimension] and to
    [b] afterwards.  The counter, the square and the difference are
    [int]s. *)
Definition read_line (dimension : Z) (st : Z * list Z * list Z) (v : Z)
    : option (Z * list Z * list Z) :=
  let '(i, a, b) := st in
  if i <? int_mul dimension dimension
  then a ← vector_at_put a i v; Some (int_add i 1, a, b)
  else b ← vector_at_put b (int_sub i (int_mul dimension dimension)) v;
       Some (int_add i 1, a, b).

(** [matrix_data a(dimension); matrix_data b(dimension);] and the reading
    loop over the lines of the file; [None] is an exception leaving
    [main]: [std::length_error] from a constructor or [std::out_of_range]
    from [vector::at]. *)
Definition read_lines (dimension : Z) (lines : list Z)
    : option (list Z * list Z) :=
  '(a, h) ← new_matrix_data dimension [];
  '(b, h) ← new_matrix_data dimension h;
  '(_, va, vb) ← foldl (λ st v, st ← st; read_line dimension st v)
                   (Some (0, default [] (h !! md_data a),
                          default [] (h !! md_data b))) lines;
  Some (va, vb).


(** The entry [(x, y)] of the product over the integers, without
    wrap-around. *)
Definition exact_product (n : Z) (va vb : list Z) (x y : Z) : Z :=
  zsum n (λ k, default 0 (va !! Z.to_nat (x + n * k))
               * default 0 (vb !! Z.to_nat (k + n * y))).

(** The cell that [matrix::at] and [matrix::set] address. *)
Definition alloc_cell (m : StrassenAlloc.matrix) (x y : Z) : ref :=
  let d := StrassenAlloc.mat_data m in
  if (x + StrassenAlloc.mat_i m <? StrassenAlloc.md_N d)
     && (y + StrassenAlloc.mat_j m <? StrassenAlloc.md_N d)
  then Cell (StrassenAlloc.md_data d)
         (Z.to_nat (x + StrassenAlloc.mat_i m
                    + StrassenAlloc.md_N d * (y + StrassenAlloc.mat_j m)))
  else Padding.

(** What a read through the view yields when [vector::at] does not throw. *)
Definition alloc_val (h : heap) (m : StrassenAlloc.matrix) (x y : Z) : Z :=
  load h (alloc_cell m x y).

Definition alloc_ptr (m : StrassenAlloc.matrix) : nat :=
  StrassenAlloc.md_data (StrassenAlloc.mat_data m).

(** The view has its origin inside the positive quadrant and its vector
    holds the [N × N] cells of the buffer. *)
Definition alloc_wf (sh : list nat) (m : StrassenAlloc.matrix) : bool :=
  (0 <=? StrassenAlloc.mat_i m) && (0 <=? StrassenAlloc.mat_j m)
  && (0 <=? StrassenAlloc.md_N (StrassenAlloc.mat_data m))
  && (vsize sh (alloc_ptr m)
      =? StrassenAlloc.md_N (StrassenAlloc.mat_data m)
         * StrassenAlloc.md_N (StrassenAlloc.mat_data m))
  && bool_decide (alloc_ptr m < length sh)%nat.

(** The view is its whole buffer, as [matrix(N)] makes it. *)
Definition alloc_exact (sh : list nat) (m : StrassenAlloc.matrix) : bool :=
  alloc_wf sh m
  && (StrassenAlloc.mat_i m =? 0) && (StrassenAlloc.mat_j m =? 0)
  && (StrassenAlloc.mat_n m =? StrassenAlloc.md_N (StrassenAlloc.mat_data m)).

(** The counters have moved by the given amounts. *)
Definition counted (mults adds ints : Z) (t t' : StrassenAlloc.global_stats)
    : Prop :=
  StrassenAlloc.multiplications t' = StrassenAlloc.multiplications t + mults
  ∧ StrassenAlloc.additions t' = StrassenAlloc.additions t + adds
  ∧ StrassenAlloc.ints_allocated t' = StrassenAlloc.ints_allocated t + ints.

(** A cell of [a] that is a cell of [c] sits at the same coordinates. *)
Definition alloc_compat (a c : StrassenAlloc.matrix) : Prop :=
  ∀ x y x' y', 0 ≤ x → 0 ≤ y → 0 ≤ x' → 0 ≤ y' →
    alloc_cell a x y = alloc_cell c x' y' → alloc_cell a x y ≠ Padding →
    x = x' ∧ y = y'.

(** What a loop that has written [vspec] through [c] leaves behind. *)
Definition alloc_written (sh : list nat) (c : StrassenAlloc.matrix)
    (vspec : Z → Z → Z) (h0 hf : heap) : Prop :=
  shape hf = sh
  ∧ (∀ x y, 0 ≤ x < StrassenAlloc.mat_n c → 0 ≤ y < StrassenAlloc.mat_n c →
       alloc_cell c x y ≠ Padding → load hf (alloc_cell c x y) = vspec x y)
  ∧ (∀ r, (∀ x y, 0 ≤ x < StrassenAlloc.mat_n c →
             0 ≤ y < StrassenAlloc.mat_n c → alloc_cell c x y ≠ r) →
       load hf r = load h0 r).

(** The entry [(x, y)] of the product of the matrices read through [a] and
    [b], in machine arithmetic. *)
Definition alloc_product (h : heap) (a b : StrassenAlloc.matrix) (n x y : Z) : Z :=
  wrap (zsum n (λ k, alloc_val h a x k * alloc_val h b k y)).

(** What [mul] changes in the counters on matrices of side [n], and [None]
    when the fuel does not reach the bottom of the recursion. *)
Fixpoint mul_counts (cutoff : Z) (fuel : nat) (n : Z) : option (Z * Z * Z) :=
  match fuel with
  | O => None
  | S fuel' =>
      if n <=? cutoff then Some (n * n * n, n * n * n, 0)
      else
        let m := StrassenAlloc.ceil_divide n in
        '(mults, adds, ints) ← mul_counts cutoff fuel' m;
        Some (7 * mults, 7 * adds + 18 * (m * m), 7 * ints + 9 * (m * m))
  end.

(** The contract of a call of [mul] on matrices of side [n]: [c] is a
    zeroed buffer of its own, and one of the inputs reads 0 at the index
    [n] and beyond. *)
Definition alloc_multiplies (self : StrassenAlloc.multiplier) (n : Z)
    (K : Z * Z * Z) : Prop :=
  ∀ a b c s,
    alloc_wf (shape (StrassenAlloc.st_heap s)) a = true →
    alloc_wf (shape (StrassenAlloc.st_heap s)) b = true →
    alloc_exact (shape (StrassenAlloc.st_heap s)) c = true →
    StrassenAlloc.mat_n a = n → StrassenAlloc.mat_n b = n →
    StrassenAlloc.mat_n c = n →
    alloc_ptr a ≠ alloc_ptr c → alloc_ptr b ≠ alloc_ptr c →
    ((∀ x k, 0 ≤ x → n ≤ k → alloc_val (StrassenAlloc.st_heap s) a x k = 0)
     ∨ (∀ k y, n ≤ k → 0 ≤ y → alloc_val (StrassenAlloc.st_heap s) b k y = 0)) →
    (∀ x y, 0 ≤ x < n → 0 ≤ y < n →
       alloc_val (StrassenAlloc.st_heap s) c x y = 0) →
    ∃ s', self a b c s = StrassenAlloc.Return s'
      ∧ (∃ ext, shape (StrassenAlloc.st_heap s')
                = shape (StrassenAlloc.st_heap s) ++ ext)
      ∧ (∀ p k, (p < length (StrassenAlloc.st_heap s))%nat → p ≠ alloc_ptr c →
           load (StrassenAlloc.st_heap s') (Cell p k)
           = load (StrassenAlloc.st_heap s) (Cell p k))
      ∧ (∀ x y, 0 ≤ x < n → 0 ≤ y < n →
           alloc_val (StrassenAlloc.st_heap s') c x y
           = alloc_product (StrassenAlloc.st_heap s) a b n x y)
      ∧ counted K.1.1 K.1.2 K.2 (StrassenAlloc.st_stats s)
          (StrassenAlloc.st_stats s').

(** A temporary of side [m] allocated after [h0], and what it holds. *)
Definition alloc_temp (h0 : heap) (m : Z) (h : heap)
    (Tv : StrassenAlloc.matrix * (Z → Z → Z)) : Prop :=
  alloc_exact (shape h) Tv.1 = true ∧ StrassenAlloc.mat_n Tv.1 = m
  ∧ (length h0 ≤ alloc_ptr Tv.1)%nat
  ∧ ∀ x y, 0 ≤ x < m → 0 ≤ y < m → alloc_val h Tv.1 x y = Tv.2 x y.

(** The heap while the products are computed: the vectors of [h0] are as
    they were and the temporaries hold the values listed. *)
Definition alloc_live (h0 : heap) (m : Z)
    (σ : list (StrassenAlloc.matrix * (Z → Z → Z))) (h : heap) : Prop :=
  (∃ ext, shape h = shape h0 ++ ext)
  ∧ (∀ p k, (p < length h0)%nat → load h (Cell p k) = load h0 (Cell p k))
  ∧ Forall (alloc_temp h0 m h) σ
  ∧ NoDup ((λ Tv, alloc_ptr Tv.1) <$> σ).

(** What an operation reads: a quadrant of [a], a quadrant of [b], or the
    temporary number [j]. *)
Inductive operand :=
  | OpA (qx qy : Z)
  | OpB (qx qy : Z)
  | OpT (j : nat).

Definition op_matrix (a b : StrassenAlloc.matrix)
    (σ : list (StrassenAlloc.matrix * (Z → Z → Z))) (o : operand)
    : StrassenAlloc.matrix :=
  match o with
  | OpA qx qy => StrassenAlloc.matrix_sub a qx qy
  | OpB qx qy => StrassenAlloc.matrix_sub b qx qy
  | OpT j => match σ !! j with Some Tv => Tv.1 | None => a end
  end.

Definition op_val (h0 : heap) (a b : StrassenAlloc.matrix)
    (σ : list (StrassenAlloc.matrix * (Z → Z → Z))) (o : operand)
    : Z → Z → Z :=
  match o with
  | OpA qx qy => alloc_val h0 (StrassenAlloc.matrix_sub a qx qy)
  | OpB qx qy => alloc_val h0 (StrassenAlloc.matrix_sub b qx qy)
  | OpT j => match σ !! j with Some Tv => Tv.2 | None => λ _ _, 0 end
  end.

(** The operand is not the target [j]. *)
Definition op_ok (σ : list (StrassenAlloc.matrix * (Z → Z → Z))) (j : nat)
    (o : operand) : bool :=
  match o with
  | OpA qx qy | OpB qx qy => (0 <=? qx) && (0 <=? qy)
  | OpT j' => negb (j' =? j)%nat && (j' <? length σ)%nat
  end.

Definition op_temp (o : operand) : bool :=
  match o with OpT _ => true | _ => false end.

(** The values of the four quadrants, one of them replaced. *)
Definition quad_update (V : Z → Z → Z → Z → Z) (tx ty : Z) (v : Z → Z → Z)
    : Z → Z → Z → Z → Z :=
  λ qx qy, if (qx =? tx) && (qy =? ty) then v else V qx qy.

(** The values of the four quadrants, listed. *)
Definition quad4 (v00 v01 v10 v11 : Z → Z → Z) : Z → Z → Z → Z → Z :=
  λ qx qy, if qx =? 0 then (if qy =? 0 then v00 else v01)
           else (if qy =? 0 then v10 else v11).

(** * Proofs *)

(** ** Facts on machine integers *)

Lemma eqw_mod a b : eqw a b → a mod 2 ^ 32 = b mod 2 ^ 32.
Proof. now intros []. Qed.

Lemma wrap_eqw a : eqw (wrap a) a.
Proof.
  constructor. unfold wrap.
  rewrite Zminus_mod_idemp_l. f_equal. lia.
Qed.

Lemma wrap_eq_iff a b : wrap a = wrap b ↔ eqw a b.
Proof.
  split; intros H.
  - constructor. rewrite <- (eqw_mod _ _ (wrap_eqw a)), <- (eqw_mod _ _ (wrap_eqw b)).
    now rewrite H.
  - apply eqw_mod in H. unfold wrap. f_equal.
    rewrite (Z.add_mod a), (Z.add_mod b) by lia. now rewrite H.
Qed.

Lemma wrap_range a : - 2 ^ 31 ≤ wrap a < 2 ^ 31.
Proof. unfold wrap. pose proof (Z.mod_pos_bound (a + 2 ^ 31) (2 ^ 32)). lia. Qed.

Lemma wrap_small a : - 2 ^ 31 ≤ a < 2 ^ 31 → wrap a = a.
Proof. intros H. unfold wrap. rewrite Z.mod_small; lia. Qed.

Lemma wrap_wrap a : wrap (wrap a) = wrap a.
Proof. apply wrap_eq_iff, wrap_eqw. Qed.

#[export] Instance eqw_equivalence : Equivalence eqw.
Proof.
  split.
  - intros x. now constructor.
  - intros x y H. apply eqw_mod in H. now constructor.
  - intros x y z H1 H2. apply eqw_mod in H1, H2. constructor. now rewrite H1.
Qed.

#[export] Instance eqw_add : Proper (eqw ==> eqw ==> eqw) Z.add.
Proof.
  intros a a' Ha b b' Hb. apply eqw_mod in Ha, Hb. constructor.
  rewrite (Z.add_mod a), (Z.add_mod a') by lia. now rewrite Ha, Hb.
Qed.

#[export] Instance eqw_sub : Proper (eqw ==> eqw ==> eqw) Z.sub.
Proof.
  intros a a' Ha b b' Hb. apply eqw_mod in Ha, Hb. constructor.
  rewrite (Zminus_mod a), (Zminus_mod a'). now rewrite Ha, Hb.
Qed.

#[export] Instance eqw_mul : Proper (eqw ==> eqw ==> eqw) Z.mul.
Proof.
  intros a a' Ha b b' Hb. apply eqw_mod in Ha, Hb. constructor.
  rewrite (Z.mul_mod a), (Z.mul_mod a') by lia. now rewrite Ha, Hb.
Qed.

(** ** Loops *)

Lemma for_loop_from_snoc {St} (count : nat) k (body : Z → St → St) s :
  for_loop_from (S count) k body s
  = body (k + Z.of_nat count) (for_loop_from count k body s).
Proof.
  revert k s. induction count as [|c IH]; intros k s.
  - simpl. now rewrite Z.add_0_r.
  - change (for_loop_from (S (S c)) k body s)
      with (for_loop_from (S c) (k + 1) body (body k s)).
    rewrite IH. simpl for_loop_from at 2. f_equal. lia.
Qed.

Lemma for_loop_nonpos {St} n (body : Z → St → St) s :
  n ≤ 0 → for_loop n body s = s.
Proof.
  intros H. unfold for_loop. now replace (Z.to_nat n) with O by lia.
Qed.

Lemma for_loop_succ {St} n (body : Z → St → St) s :
  0 ≤ n → for_loop (n + 1) body s = body n (for_loop n body s).
Proof.
  intros H. unfold for_loop.
  replace (Z.to_nat (n + 1)) with (S (Z.to_nat n)) by lia.
  rewrite for_loop_from_snoc. f_equal. lia.
Qed.

(** The invariant rule of a counting loop. *)
Lemma for_loop_ind {St} (P : Z → St → Prop) n (body : Z → St → St) s :
  0 ≤ n →
  P 0 s →
  (∀ k t, 0 ≤ k < n → P k t → P (k + 1) (body k t)) →
  P n (for_loop n body s).
Proof.
  intros Hn H0 Hstep.
  assert (∀ m, 0 ≤ m → m ≤ n → P m (for_loop m body s)) as Hall.
  { intros m Hm. pattern m. apply natlike_ind; [| |exact Hm].
    - intros _. now rewrite for_loop_nonpos.
    - intros x Hx IH Hle. unfold Z.succ. rewrite for_loop_succ by lia.
      apply Hstep; [lia|]. apply IH. lia. }
  apply Hall; lia.
Qed.

(** ** Sums *)

Lemma zsum_nonpos n f : n ≤ 0 → zsum n f = 0.
Proof. intros H. unfold zsum. now rewrite for_loop_nonpos. Qed.

Lemma zsum_succ n f : 0 ≤ n → zsum (n + 1) f = zsum n f + f n.
Proof. intros H. unfold zsum. now rewrite for_loop_succ. Qed.

Lemma zsum_ext n f g :
  (∀ k, 0 ≤ k < n → f k = g k) → zsum n f = zsum n g.
Proof.
  destruct (Z.le_gt_cases 0 n) as [Hn|Hn]; [|intros; rewrite !zsum_nonpos; lia].
  revert f g. pattern n. apply natlike_ind; [| |exact Hn].
  - intros. now rewrite !zsum_nonpos.
  - intros x Hx IH f g Hfg. unfold Z.succ. rewrite !zsum_succ by lia.
    rewrite (IH f g), Hfg; [reflexivity|lia|]. intros; apply Hfg; lia.
Qed.

Lemma zsum_eqw n f g :
  (∀ k, 0 ≤ k < n → eqw (f k) (g k)) → eqw (zsum n f) (zsum n g).
Proof.
  destruct (Z.le_gt_cases 0 n) as [Hn|Hn];
    [|intros; rewrite !zsum_nonpos by lia; reflexivity].
  revert f g. pattern n. apply natlike_ind; [| |exact Hn].
  - intros. rewrite !zsum_nonpos by lia. reflexivity.
  - intros x Hx IH f g Hfg. unfold Z.succ. rewrite !zsum_succ by lia.
    apply eqw_add; [apply IH; intros; apply Hfg; lia | apply Hfg; lia].
Qed.

Lemma zsum_add n f g : zsum n (λ k, f k + g k) = zsum n f + zsum n g.
Proof.
  destruct (Z.le_gt_cases 0 n) as [Hn|Hn]; [|rewrite !zsum_nonpos; lia].
  pattern n. apply natlike_ind; [| |exact Hn].
  - now rewrite !zsum_nonpos.
  - intros x Hx IH. unfold Z.succ. rewrite !zsum_succ by lia. lia.
Qed.

Lemma zsum_sub n f g : zsum n (λ k, f k - g k) = zsum n f - zsum n g.
Proof.
  destruct (Z.le_gt_cases 0 n) as [Hn|Hn]; [|rewrite !zsum_nonpos; lia].
  pattern n. apply natlike_ind; [| |exact Hn].
  - now rewrite !zsum_nonpos.
  - intros x Hx IH. unfold Z.succ. rewrite !zsum_succ by lia. lia.
Qed.

Lemma zsum_zero n : zsum n (λ _, 0) = 0.
Proof.
  destruct (Z.le_gt_cases 0 n) as [Hn|Hn]; [|rewrite !zsum_nonpos; lia].
  pattern n. apply natlike_ind; [| |exact Hn].
  - now rewrite !zsum_nonpos.
  - intros x Hx IH. unfold Z.succ. rewrite !zsum_succ by lia. lia.
Qed.

Lemma zsum_app a b f :
  0 ≤ a → 0 ≤ b → zsum (a + b) f = zsum a f + zsum b (λ k, f (a + k)).
Proof.
  intros Ha Hb. pattern b. apply natlike_ind; [| |exact Hb].
  - rewrite Z.add_0_r, (zsum_nonpos 0); lia.
  - intros x Hx IH. unfold Z.succ. rewrite Z.add_assoc, !zsum_succ by lia. lia.
Qed.

(** ** The heap *)

Lemma shape_store h r v : shape (store h r v) = shape h.
Proof.
  destruct r as [p k|]; [|reflexivity]. unfold shape, store.
  apply list_eq. intros q. rewrite !list_lookup_fmap.
  destruct (decide (p = q)) as [->|Hne].
  - rewrite list_lookup_alter_eq. destruct (h !! q); simpl; [|reflexivity].
    now rewrite length_insert.
  - now rewrite list_lookup_alter_ne.
Qed.

Lemma load_store_same h p k v :
  Z.of_nat k < vsize (shape h) p → load (store h (Cell p k) v) (Cell p k) = v.
Proof.
  unfold vsize, shape. simpl. rewrite list_lookup_fmap, list_lookup_alter_eq.
  destruct (h !! p) as [vec|]; simpl; [|lia]. intros H.
  rewrite list_lookup_insert_eq by lia. reflexivity.
Qed.

Lemma load_store_other h r r' v : r ≠ r' → load (store h r v) r' = load h r'.
Proof.
  destruct r as [p k|], r' as [p' k'|]; try reflexivity. intros Hne.
  simpl. destruct (decide (p = p')) as [->|Hp].
  - rewrite list_lookup_alter_eq. destruct (h !! p'); simpl; [|reflexivity].
    rewrite list_lookup_insert_ne; [reflexivity|congruence].
  - now rewrite list_lookup_alter_ne.
Qed.

Lemma lookup_store_ne h p k v q : p ≠ q → store h (Cell p k) v !! q = h !! q.
Proof. intros H. simpl. now rewrite list_lookup_alter_ne. Qed.

Lemma length_store h r v : length (store h r v) = length h.
Proof. destruct r; [|reflexivity]. simpl. apply length_alter. Qed.

(** ** Loops that write one cell per iteration *)

Section block_writes.
Context (sh : list nat) (n m : Z) (cell : Z → Z → ref) (vspec : Z → Z → Z).

Hypothesis cell_inj : ∀ o u o' u',
  0 ≤ o < n → 0 ≤ u < m → 0 ≤ o' < n → 0 ≤ u' < m →
  cell o u = cell o' u' → cell o u ≠ Padding → o = o' ∧ u = u'.

(** What a loop over [k] blocks has done to [h0]. *)
Definition blocks_done (h0 : heap) (k : Z) (h : heap) : Prop :=
  shape h = sh
  ∧ (∀ o u, 0 ≤ o < k → 0 ≤ u < m → cell o u ≠ Padding →
       load h (cell o u) = vspec o u)
  ∧ (∀ r, (∀ o u, 0 ≤ o < k → 0 ≤ u < m → cell o u ≠ r) →
       load h r = load h0 r).

Lemma block_writes (body : Z → heap → heap) (h0 : heap) :
  shape h0 = sh →
  (∀ o h, 0 ≤ o < n → shape h = sh →
     (∀ r, (∀ o' u', 0 ≤ o' < o → 0 ≤ u' < m → cell o' u' ≠ r) →
        load h r = load h0 r) →
     shape (body o h) = sh
     ∧ (∀ u, 0 ≤ u < m → cell o u ≠ Padding →
          load (body o h) (cell o u) = vspec o u)
     ∧ (∀ r, (∀ u, 0 ≤ u < m → cell o u ≠ r) →
          load (body o h) r = load h r)) →
  blocks_done h0 n (for_loop n body h0).
Proof.
  intros Hsh Hbody.
  destruct (Z.le_gt_cases 0 n) as [Hn|Hn].
  2:{ rewrite for_loop_nonpos by lia. split; [|split]; [done|intros; lia|done]. }
  apply (for_loop_ind (blocks_done h0)); [done| |].
  { split; [|split]; [done|intros; lia|done]. }
  intros k t Hk (Ht & Hval & Hfr).
  destruct (Hbody k t Hk Ht Hfr) as (Hs' & Hv' & Hf').
  split; [done|]. split.
  - intros o u Ho Hu Hne. destruct (decide (o = k)) as [->|Hok].
    + now apply Hv'.
    + rewrite Hf'; [apply Hval; [lia|done|done]|].
      intros u' Hu' Heq. destruct (cell_inj k u' o u) as [? _]; [lia..|done| |lia].
      congruence.
  - intros r Hr. rewrite Hf'; [apply Hfr|].
    + intros o u Ho Hu. apply Hr; [lia|done].
    + intros u Hu. apply Hr; [lia|done].
Qed.
End block_writes.

Section row_writes.
Context (sh : list nat) (n : Z) (cell : Z → ref) (vspec : Z → Z).

Hypothesis cell_valid : ∀ u, 0 ≤ u < n → valid_ref sh (cell u).
Hypothesis cell_inj : ∀ u u', 0 ≤ u < n → 0 ≤ u' < n →
  cell u = cell u' → cell u ≠ Padding → u = u'.

Lemma row_writes (body : Z → heap → heap) (h0 : heap) :
  shape h0 = sh →
  (∀ u h, 0 ≤ u < n → shape h = sh →
     (∀ r, (∀ u', 0 ≤ u' < u → cell u' ≠ r) → load h r = load h0 r) →
     body u h = store h (cell u) (vspec u)) →
  let hf := for_loop n body h0 in
  shape hf = sh
  ∧ (∀ u, 0 ≤ u < n → cell u ≠ Padding → load hf (cell u) = vspec u)
  ∧ (∀ r, (∀ u, 0 ≤ u < n → cell u ≠ r) → load hf r = load h0 r).
Proof.
  intros Hsh Hbody hf.
  destruct (block_writes sh n 1 (λ o _, cell o) (λ o _, vspec o)) with
    (body := body) (h0 := h0) as (H1 & H2 & H3).
  - intros o u o' u' Ho Hu Ho' Hu' Heq Hne. split; [|lia]. now apply cell_inj.
  - done.
  - intros o h Ho Hh Hfr. rewrite Hbody; [|done|done|].
    2:{ intros r Hr. apply Hfr. intros o' _ Ho' _. now apply Hr. }
    split; [by rewrite shape_store|]. split.
    + intros _ _ Hne. pose proof (cell_valid o Ho) as Hv.
      destruct (cell o) as [p k|]; [|done]. apply load_store_same.
      simpl in Hv. now rewrite Hh.
    + intros r Hr. apply load_store_other. apply (Hr 0). lia.
  - split; [done|]. split.
    + intros u Hu Hne. apply (H2 u 0); [done|lia|done].
    + intros r Hr. apply H3. intros o _ Ho _. now apply Hr.
Qed.
End row_writes.

Lemma submatrix_at_cell sh m x y :
  submatrix_at sh m x y ≠ Padding →
  submatrix_in_bounds sh m x y = true
  ∧ 0 ≤ x < sm_dimension m ∧ 0 ≤ y < sm_dimension m
  ∧ 0 ≤ x + sm_i m ∧ 0 ≤ y + sm_j m
  ∧ (x + sm_i m) + md_dimension (sm_data m) * (y + sm_j m) < vsize sh (ptr m).
Proof.
  unfold submatrix_at. destruct (submatrix_in_bounds sh m x y) eqn:E; [|done].
  intros _. split; [done|]. unfold submatrix_in_bounds, matrix_data_in_bounds in E.
  unfold ptr. lia.
Qed.

(** [vector::at] does not throw behind [in_bounds]. *)
Lemma submatrix_at_in_range sh m x y :
  0 ≤ md_dimension (sm_data m) → valid_ref sh (submatrix_at sh m x y).
Proof.
  intros HD. destruct (submatrix_at sh m x y) as [p k|] eqn:E; [|done].
  assert (submatrix_at sh m x y ≠ Padding) as H by congruence.
  apply submatrix_at_cell in H. unfold submatrix_at in E.
  destruct (submatrix_in_bounds sh m x y); [|done].
  injection E as <- <-. simpl. unfold ptr in H. nia.
Qed.

Lemma sep_compat sh a c : sep sh a c → compat sh a c.
Proof. intros H x y x' y' Heq Hne. now apply H in Heq. Qed.

Lemma sep_sym sh a c : sep sh a c → sep sh c a.
Proof.
  intros H x y x' y' Heq. symmetry in Heq. pose proof (H _ _ _ _ Heq). congruence.
Qed.

Lemma get_shape h sh m x y :
  shape h = sh → get h m x y = load h (submatrix_at sh m x y).
Proof. now intros <-. Qed.

Lemma set_shape h sh m x y v :
  shape h = sh → set h m x y v = store h (submatrix_at sh m x y) v.
Proof. now intros <-. Qed.

(** A read through [a] at [(x, y)] sees no write to another cell of [c]. *)
Lemma get_stable sh a c h h0 x y :
  shape h = sh → shape h0 = sh → compat sh a c →
  (∀ r, (∀ x' y', 0 ≤ x' < sm_dimension c → 0 ≤ y' < sm_dimension c →
           x' ≠ x ∨ y' ≠ y → submatrix_at sh c x' y' ≠ r) →
        load h r = load h0 r) →
  get h a x y = get h0 a x y.
Proof.
  intros Hh Hh0 Hc Hfr. rewrite (get_shape h sh), (get_shape h0 sh) by done.
  destruct (submatrix_at sh a x y) as [p k|] eqn:E; [|done].
  apply Hfr. intros x' y' Hx' Hy' Hne Heq.
  rewrite <- E in Heq. symmetry in Heq.
  destruct (Hc _ _ _ _ Heq); [congruence|lia].
Qed.

(** A read through a view that shares no cell with [c]. *)
Lemma get_frame sh a c h h0 x y :
  shape h = sh → shape h0 = sh → sep sh a c →
  (∀ r, (∀ x' y', 0 ≤ x' < sm_dimension c → 0 ≤ y' < sm_dimension c →
           submatrix_at sh c x' y' ≠ r) → load h r = load h0 r) →
  get h a x y = get h0 a x y.
Proof.
  intros Hh Hh0 Hs Hfr. rewrite (get_shape h sh), (get_shape h0 sh) by done.
  destruct (submatrix_at sh a x y) as [p k|] eqn:E; [|done].
  apply Hfr. intros x' y' _ _ Heq.
  rewrite <- E in Heq. symmetry in Heq. apply Hs in Heq. congruence.
Qed.

(** ** The element-wise loops *)

Lemma fill_spec sh c val vspec h0 :
  shape h0 = sh → 0 ≤ md_dimension (sm_data c) → compat sh c c →
  (∀ h x y, 0 ≤ x < sm_dimension c → 0 ≤ y < sm_dimension c → shape h = sh →
     (∀ r, (∀ x' y', 0 ≤ x' < sm_dimension c → 0 ≤ y' < sm_dimension c →
              x' ≠ x ∨ y' ≠ y → submatrix_at sh c x' y' ≠ r) →
           load h r = load h0 r) →
     val h x y = vspec x y) →
  written sh c vspec h0 (fill c val h0).
Proof.
  intros Hsh HD Hinj Hval. set (n := sm_dimension c) in *.
  destruct (block_writes sh n n (λ o u, submatrix_at sh c u o) (λ o u, vspec u o))
    with (body := λ j h, for_loop n (λ i h, set h c i j (val h i j)) h) (h0 := h0)
    as (H1 & H2 & H3).
  - intros o u o' u' _ _ _ _ Heq Hne. destruct (Hinj _ _ _ _ Heq Hne). done.
  - done.
  - intros o h Ho Hh Hfr.
    apply (row_writes sh n (λ u, submatrix_at sh c u o) (λ u, vspec u o)).
    + intros u _. now apply submatrix_at_in_range.
    + intros u u' _ _ Heq Hne. now destruct (Hinj _ _ _ _ Heq Hne).
    + done.
    + intros u h' Hu Hh' Hfr'. rewrite (set_shape h' sh) by done. f_equal.
      apply Hval; [done..|]. intros r Hr.
      rewrite Hfr'.
      * apply Hfr. intros o' u' Ho' Hu'. apply Hr; [done|lia|lia].
      * intros u' Hu'. apply Hr; [lia|lia|lia].
  - split; [done|]. split.
    + intros x y Hx Hy. now apply H2.
    + intros r Hr. apply H3. intros o u Ho Hu. now apply Hr.
Qed.

Lemma clear_spec sh c h0 :
  shape h0 = sh → 0 ≤ md_dimension (sm_data c) → compat sh c c →
  written sh c (λ _ _, 0) h0 (submatrix_clear c h0).
Proof.
  intros. change (submatrix_clear c h0) with (fill c (λ _ _ _, 0) h0).
  now apply fill_spec.
Qed.

Lemma sum_spec sh a b c h0 :
  shape h0 = sh → 0 ≤ md_dimension (sm_data c) →
  compat sh c c → compat sh a c → compat sh b c →
  written sh c (λ x y, int_add (get h0 a x y) (get h0 b x y)) h0 (sum a b c h0).
Proof.
  intros Hsh HD Hc Ha Hb.
  change (sum a b c h0)
    with (fill c (λ h i j, int_add (get h a i j) (get h b i j)) h0).
  apply fill_spec; [done..|]. intros h x y Hx Hy Hh Hfr.
  now rewrite (get_stable sh a c h h0), (get_stable sh b c h h0).
Qed.

Lemma sub_spec sh a b c h0 :
  shape h0 = sh → 0 ≤ md_dimension (sm_data c) →
  compat sh c c → compat sh a c → compat sh b c →
  written sh c (λ x y, int_sub (get h0 a x y) (get h0 b x y)) h0 (sub a b c h0).
Proof.
  intros Hsh HD Hc Ha Hb.
  change (sub a b c h0)
    with (fill c (λ h i j, int_sub (get h a i j) (get h b i j)) h0).
  apply fill_spec; [done..|]. intros h x y Hx Hy Hh Hfr.
  now rewrite (get_stable sh a c h h0), (get_stable sh b c h h0).
Qed.

(** ** The linear multiplier *)

Lemma accumulate_succ k c0 f :
  0 ≤ k → accumulate (k + 1) c0 f = int_add (accumulate k c0 f) (f k).
Proof. intros Hk. unfold accumulate. now rewrite for_loop_succ. Qed.

Lemma accumulate_eqw k c0 f :
  0 ≤ k → eqw (accumulate k c0 f) (c0 + zsum k f).
Proof.
  intros Hk. pattern k. apply natlike_ind; [| |exact Hk].
  - unfold accumulate. rewrite for_loop_nonpos, zsum_nonpos by lia.
    now rewrite Z.add_0_r.
  - intros x Hx IH. unfold Z.succ.
    rewrite accumulate_succ, zsum_succ by lia. unfold int_add.
    rewrite wrap_eqw, IH. now rewrite Z.add_assoc.
Qed.

Lemma accumulate_wrap k c0 f :
  1 ≤ k → accumulate k c0 f = wrap (c0 + zsum k f).
Proof.
  intros Hk. replace k with ((k - 1) + 1) by lia.
  rewrite accumulate_succ, zsum_succ by lia.
  unfold int_add. apply wrap_eq_iff.
  rewrite accumulate_eqw by lia. now rewrite Z.add_assoc.
Qed.

Lemma linear_round_spec sh a b c k h0 :
  shape h0 = sh → 0 ≤ md_dimension (sm_data c) →
  compat sh c c → sep sh a c → sep sh b c →
  written sh c
    (λ x y, int_add (get h0 c x y) (int_mul (get h0 a x k) (get h0 b k y)))
    h0 (linear_round a b c k h0).
Proof.
  intros Hsh HD Hinj Ha Hb. set (n := sm_dimension c) in *.
  destruct (block_writes sh n n (λ o u, submatrix_at sh c o u)
    (λ x y, int_add (get h0 c x y) (int_mul (get h0 a x k) (get h0 b k y))))
    with (body := λ i h, for_loop n (λ j h', set h' c i j
            (int_add (get h' c i j) (int_mul (get h a i k) (get h' b k j)))) h)
         (h0 := h0) as (H1 & H2 & H3).
  - intros o u o' u' _ _ _ _ Heq Hne. by destruct (Hinj _ _ _ _ Heq Hne).
  - done.
  - intros o h Ho Hh Hfr.
    apply (row_writes sh n (λ u, submatrix_at sh c o u)
      (λ y, int_add (get h0 c o y) (int_mul (get h0 a o k) (get h0 b k y)))).
    + intros u _. now apply submatrix_at_in_range.
    + intros u u' _ _ Heq Hne. now destruct (Hinj _ _ _ _ Heq Hne).
    + done.
    + intros u h' Hu Hh' Hfr'. rewrite (set_shape h' sh) by done. f_equal.
      assert (∀ r, (∀ x' y', 0 ≤ x' < sm_dimension c → 0 ≤ y' < sm_dimension c →
                x' ≠ o ∨ y' ≠ u → submatrix_at sh c x' y' ≠ r) →
              load h' r = load h0 r) as Hboth.
      { intros r Hr. rewrite Hfr'.
        - apply Hfr. intros o' u' Ho' Hu'. apply Hr; lia.
        - intros u' Hu'. apply Hr; lia. }
      rewrite (get_stable sh c c h' h0) by done.
      rewrite (get_frame sh a c h h0); [|done|done|done|].
      2:{ intros r Hr. apply Hfr. intros o' u' Ho' Hu'. apply Hr; lia. }
      rewrite (get_frame sh b c h' h0); [done|done|done|done|].
      intros r Hr. apply Hboth. intros x' y' Hx' Hy' _. now apply Hr.
  - split; [done|]. split.
    + intros x y Hx Hy. now apply H2.
    + intros r Hr. apply H3. intros o u Ho Hu. now apply Hr.
Qed.

Lemma linear_mul_rounds sh a b c h0 :
  shape h0 = sh → 0 ≤ md_dimension (sm_data c) →
  compat sh c c → sep sh a c → sep sh b c →
  written sh c
    (λ x y, accumulate (sm_dimension c) (get h0 c x y)
              (λ k, int_mul (get h0 a x k) (get h0 b k y)))
    h0 (linear_mul a b c h0).
Proof.
  intros Hsh HD Hinj Ha Hb. set (n := sm_dimension c) in *.
  change (linear_mul a b c h0) with (for_loop n (linear_round a b c) h0).
  destruct (Z.le_gt_cases 0 n) as [Hn|Hn].
  2:{ rewrite for_loop_nonpos by lia. split; [|split]; [done|intros; lia|done]. }
  apply (for_loop_ind (λ k h, written sh c
    (λ x y, accumulate k (get h0 c x y)
              (λ k, int_mul (get h0 a x k) (get h0 b k y))) h0 h)); [done| |].
  - split; [|split]; [done| |done]. intros x y _ _ _.
    unfold accumulate. rewrite for_loop_nonpos by lia. now rewrite (get_shape h0 sh).
  - intros k t Hk (Ht & Hv & Hfr).
    destruct (linear_round_spec sh a b c k t) as (Ht' & Hv' & Hfr'); [done..|].
    split; [|split]; [done| |].
    + intros x y Hx Hy Hne. rewrite Hv' by done.
      rewrite accumulate_succ by lia. f_equal.
      * rewrite (get_shape t sh) by done. now apply Hv.
      * f_equal; now apply (get_frame sh _ c).
    + intros r Hr. rewrite Hfr' by done. now apply Hfr.
Qed.

(** [linear_mul] adds the product of [a] and [b] to [c]. *)
Lemma linear_mul_spec sh a b c h0 :
  shape h0 = sh → 0 ≤ md_dimension (sm_data c) →
  compat sh c c → sep sh a c → sep sh b c →
  written sh c
    (λ x y, wrap (get h0 c x y
                  + zsum (sm_dimension c) (λ k, get h0 a x k * get h0 b k y)))
    h0 (linear_mul a b c h0).
Proof.
  intros Hsh HD Hinj Ha Hb.
  destruct (linear_mul_rounds sh a b c h0) as (H1 & H2 & H3); [done..|].
  split; [|split]; [done| |done].
  intros x y Hx Hy Hne. rewrite H2 by done.
  rewrite accumulate_wrap by lia. apply wrap_eq_iff.
  apply eqw_add; [reflexivity|]. apply zsum_eqw. intros k _.
  unfold int_mul. apply wrap_eqw.
Qed.

(** ** Quadrants *)

Lemma ceil_divide_even m : ceil_divide (2 * m) = m.
Proof.
  unfold ceil_divide. rewrite (Z.mul_comm 2 m), Z.quot_mul, Z.rem_mul by lia.
  simpl. lia.
Qed.

Lemma ceil_divide_ceiling x : 0 ≤ x → ceil_divide x = (x + 1) `div` 2.
Proof.
  intros Hx. unfold ceil_divide.
  rewrite Z.quot_div_nonneg, Z.rem_mod_nonneg by lia.
  pose proof (Z.div_mod x 2). pose proof (Z.mod_pos_bound x 2).
  pose proof (Z.div_mod (x + 1) 2). pose proof (Z.mod_pos_bound (x + 1) 2).
  destruct (x `mod` 2 =? 0) eqn:E; lia.
Qed.

Section quadrants.
Context (sh : list nat) (m : Z).

(** The quadrant [(qx, qy)] of a view of side [2 * m]. *)
Definition quadrant (P : submatrix) (qx qy : bool) : submatrix :=
  submatrix_sub P (Z.b2z qx) (Z.b2z qy).

Lemma quadrant_dimension P qx qy :
  sm_dimension P = 2 * m → sm_dimension (quadrant P qx qy) = m.
Proof. intros H. unfold quadrant. simpl. now rewrite H, ceil_divide_even. Qed.

Lemma quadrant_data P qx qy : sm_data (quadrant P qx qy) = sm_data P.
Proof. reflexivity. Qed.

Lemma quadrant_at P qx qy x y :
  sm_dimension P = 2 * m → 0 ≤ x < m → 0 ≤ y < m →
  submatrix_at sh (quadrant P qx qy) x y
  = submatrix_at sh P (Z.b2z qx * m + x) (Z.b2z qy * m + y).
Proof.
  intros HP Hx Hy. unfold submatrix_at, submatrix_in_bounds, quadrant. simpl.
  rewrite HP, ceil_divide_even.
  replace (x + (sm_i P + Z.b2z qx * m)) with (Z.b2z qx * m + x + sm_i P) by lia.
  replace (y + (sm_j P + Z.b2z qy * m)) with (Z.b2z qy * m + y + sm_j P) by lia.
  destruct (matrix_data_in_bounds sh (sm_data P) _ _); [|done]. simpl.
  assert (((0 <=? x) && (x <? m) && (0 <=? y) && (y <? m)) = true) as -> by lia.
  assert (((0 <=? Z.b2z qx * m + x) && (Z.b2z qx * m + x <? 2 * m)
           && (0 <=? Z.b2z qy * m + y) && (Z.b2z qy * m + y <? 2 * m)) = true)
    as ->; [destruct qx, qy; simpl; lia|done].
Qed.

Lemma quadrant_cell P qx qy x y :
  sm_dimension P = 2 * m →
  submatrix_at sh (quadrant P qx qy) x y ≠ Padding →
  0 ≤ x < m ∧ 0 ≤ y < m.
Proof.
  intros HP H. apply submatrix_at_cell in H.
  rewrite quadrant_dimension in H by done. lia.
Qed.

Lemma quadrant_good P qx qy :
  sm_dimension P = 2 * m → good sh P → good sh (quadrant P qx qy).
Proof.
  intros HP HG x y. rewrite quadrant_dimension by done. intros Hx Hy.
  rewrite quadrant_at by done. apply HG; rewrite HP; destruct qx, qy; simpl; lia.
Qed.

Lemma quadrant_sep P Q qx qy qx' qy' :
  sm_dimension P = 2 * m → sm_dimension Q = 2 * m →
  sep sh P Q → sep sh (quadrant P qx qy) (quadrant Q qx' qy').
Proof.
  intros HP HQ HS x y x' y' Heq.
  destruct (decide (submatrix_at sh (quadrant P qx qy) x y = Padding)) as [|Hne];
    [done|].
  assert (submatrix_at sh (quadrant Q qx' qy') x' y' ≠ Padding) as Hne'
    by congruence.
  apply quadrant_cell in Hne as Hr; [|done].
  apply quadrant_cell in Hne' as Hr'; [|done].
  rewrite !quadrant_at in Heq by (done || lia).
  apply HS in Heq. rewrite quadrant_at in Hne by (done || lia). done.
Qed.

Lemma quadrant_compat P Q qx qy :
  sm_dimension P = 2 * m → sm_dimension Q = 2 * m →
  compat sh P Q → compat sh (quadrant P qx qy) (quadrant Q qx qy).
Proof.
  intros HP HQ HC x y x' y' Heq Hne.
  assert (submatrix_at sh (quadrant Q qx qy) x' y' ≠ Padding) as Hne'
    by congruence.
  apply quadrant_cell in Hne as Hr; [|done].
  apply quadrant_cell in Hne' as Hr'; [|done].
  rewrite !quadrant_at in Heq by (done || lia).
  rewrite quadrant_at in Hne by (done || lia).
  destruct (HC _ _ _ _ Heq Hne). lia.
Qed.

Lemma quadrant_apart P qx qy qx' qy' :
  sm_dimension P = 2 * m → compat sh P P → (qx, qy) ≠ (qx', qy') →
  sep sh (quadrant P qx qy) (quadrant P qx' qy').
Proof.
  intros HP HC Hq x y x' y' Heq.
  destruct (decide (submatrix_at sh (quadrant P qx qy) x y = Padding)) as [|Hne];
    [done|].
  assert (submatrix_at sh (quadrant P qx' qy') x' y' ≠ Padding) as Hne'
    by congruence.
  apply quadrant_cell in Hne as Hr; [|done].
  apply quadrant_cell in Hne' as Hr'; [|done].
  rewrite !quadrant_at in Heq by (done || lia).
  rewrite quadrant_at in Hne by (done || lia).
  destruct (HC _ _ _ _ Heq Hne) as [Hx Hy]. exfalso. apply Hq.
  destruct qx, qx', qy, qy'; simpl in *; try done; lia.
Qed.

Lemma quadrant_get h P qx qy x y :
  shape h = sh → sm_dimension P = 2 * m → 0 ≤ x < m → 0 ≤ y < m →
  get h (quadrant P qx qy) x y
  = get h P (Z.b2z qx * m + x) (Z.b2z qy * m + y).
Proof.
  intros Hh HP Hx Hy. rewrite !(get_shape h sh) by done.
  now rewrite quadrant_at.
Qed.
End quadrants.

(** ** What a call of the recursive multiply needs and gives *)

Lemma sep_outside sh a c x y :
  sep sh a c → submatrix_at sh a x y ≠ Padding →
  outside sh c (submatrix_at sh a x y).
Proof. intros HS Hne x' y' Heq. symmetry in Heq. apply HS in Heq. done. Qed.

Lemma written_outside sh c vspec h0 hf r :
  written sh c vspec h0 hf → outside sh c r → load hf r = load h0 r.
Proof. intros (_ & _ & H) Ho. apply H. intros x y _ _. apply Ho. Qed.

Lemma written_get sh c vspec h0 hf x y :
  written sh c vspec h0 hf → good sh c →
  0 ≤ x < sm_dimension c → 0 ≤ y < sm_dimension c →
  get hf c x y = vspec x y.
Proof.
  intros (Hs & Hv & _) Hg Hx Hy. rewrite (get_shape hf sh) by done.
  apply Hv; [done..|]. now apply Hg.
Qed.

(** A read through a view that shares no cell with the views written. *)
Lemma get_outside sh a h h' x y (F : ref → Prop) :
  shape h = sh → shape h' = sh →
  (∀ r, F r → load h' r = load h r) →
  (submatrix_at sh a x y ≠ Padding → F (submatrix_at sh a x y)) →
  get h' a x y = get h a x y.
Proof.
  intros Hh Hh' Hfr HF. rewrite (get_shape h sh), (get_shape h' sh) by done.
  destruct (submatrix_at sh a x y) eqn:E; [|done]. apply Hfr, HF. done.
Qed.

Lemma region_eqb_eq t t' : region_eqb t t' = true ↔ t = t'.
Proof.
  destruct t as [[] []| | |], t' as [[] []| | |]; simpl; split; congruence.
Qed.

Lemma cget_cset σ t f t' :
  cget (cset σ t f) t' = if region_eqb t t' then f else cget σ t'.
Proof.
  destruct t as [[] []| | |], t' as [[] []| | |]; reflexivity.
Qed.

Section decompose.
Context (sh : list nat) (m : Z) (A B C S : submatrix).
Context (L : layout sh (2 * m) A B C S).
Context (h0 : heap) (Hh0 : shape h0 = sh).

Definition rview (t : region) : submatrix :=
  match t with
  | RC qx qy => quadrant C qx qy
  | RM => quadrant S false false
  | RS0 => quadrant S true false
  | RS1 => quadrant S true true
  end.

Definition SR : submatrix := quadrant S false true.

Definition sview (X : source) : submatrix :=
  match X with
  | SA qx qy => quadrant A qx qy
  | SB qx qy => quadrant B qx qy
  | SReg t => rview t
  end.

Lemma rview_dimension t : sm_dimension (rview t) = m.
Proof. destruct L, t; cbn [rview sview]; now apply quadrant_dimension. Qed.

Lemma sview_dimension X : sm_dimension (sview X) = m.
Proof.
  destruct X; [destruct L; cbn [rview sview]; now apply quadrant_dimension..|].
  apply rview_dimension.
Qed.

Lemma SR_dimension : sm_dimension SR = m.
Proof. destruct L. now apply quadrant_dimension. Qed.

Lemma rview_buffer t : 0 ≤ md_dimension (sm_data (rview t)).
Proof. destruct L, t; cbn [rview sview]; done. Qed.

Lemma rview_good t : good sh (rview t).
Proof. destruct L, t; cbn [rview sview]; now apply (quadrant_good sh m). Qed.

Lemma rview_inj t : compat sh (rview t) (rview t).
Proof. destruct L, t; cbn [rview sview]; now apply (quadrant_compat sh m). Qed.

Lemma rview_sep t t' : t ≠ t' → sep sh (rview t) (rview t').
Proof.
  intros Hne. destruct L.
  destruct t as [qx qy| | |], t' as [qx' qy'| | |]; cbn [rview sview]; try done;
    try (apply (quadrant_sep sh m); done || (apply sep_sym; done));
    apply (quadrant_apart sh m); try done; congruence.
Qed.

Lemma rview_sep_SR t : sep sh (rview t) SR.
Proof.
  destruct L. destruct t as [qx qy| | |]; cbn [rview sview]; unfold SR;
    try (apply (quadrant_sep sh m); done);
    apply (quadrant_apart sh m); done.
Qed.

Lemma sview_compat X t : compat sh (sview X) (rview t).
Proof.
  destruct X as [qx qy|qx qy|t'].
  - apply sep_compat. destruct L, t; cbn [rview sview]; now apply (quadrant_sep sh m).
  - apply sep_compat. destruct L, t; cbn [rview sview]; now apply (quadrant_sep sh m).
  - destruct (decide (t' = t)) as [->|Hne]; [apply rview_inj|].
    apply sep_compat. now apply rview_sep.
Qed.

Lemma sview_sep_SR X : sep sh (sview X) SR.
Proof.
  destruct X as [qx qy|qx qy|t]; [| |apply rview_sep_SR];
    destruct L; cbn [rview sview]; now apply (quadrant_sep sh m).
Qed.

Lemma sview_sep_M X : X ≠ SReg RM → sep sh (sview X) (rview RM).
Proof.
  intros Hne. destruct X as [qx qy|qx qy|t].
  - destruct L; cbn [rview sview]; now apply (quadrant_sep sh m).
  - destruct L; cbn [rview sview]; now apply (quadrant_sep sh m).
  - apply rview_sep. congruence.
Qed.

Lemma outside_quadrant P qx qy r :
  sm_dimension P = 2 * m → outside sh P r → outside sh (quadrant P qx qy) r.
Proof.
  intros HP Ho x y Heq.
  destruct (decide (r = Padding)) as [->|Hne].
  - apply (Ho (-1) 0). unfold submatrix_at, submatrix_in_bounds.
    replace (0 <=? -1) with false by done. now rewrite !andb_false_r.
  - rewrite <- Heq in Hne. apply (quadrant_cell sh m) in Hne as Hr; [|done].
    rewrite (quadrant_at sh m) in Heq by (done || lia). now apply Ho in Heq.
Qed.

Lemma outside_rview t r :
  outside sh C r → outside sh S r → outside sh (rview t) r.
Proof.
  intros HC HS. destruct L, t; cbn [rview sview]; now apply outside_quadrant.
Qed.

Lemma outside_SR r : outside sh S r → outside sh SR r.
Proof. intros HS. destruct L. now apply outside_quadrant. Qed.

(** The contents of the regions, and what has been left alone. *)
Definition holds (σ : contents) (h : heap) : Prop :=
  shape h = sh
  ∧ (∀ r, outside sh C r → outside sh S r → load h r = load h0 r)
  ∧ (∀ t x y, 0 ≤ x < m → 0 ≤ y < m → get h (rview t) x y = cget σ t x y).

Definition sval (σ : contents) (X : source) : Z → Z → Z :=
  match X with
  | SA qx qy => get h0 (quadrant A qx qy)
  | SB qx qy => get h0 (quadrant B qx qy)
  | SReg t => cget σ t
  end.

Lemma input_outside P qx qy x y V :
  sm_dimension P = 2 * m → sep sh P V →
  submatrix_at sh (quadrant P qx qy) x y ≠ Padding →
  outside sh V (submatrix_at sh (quadrant P qx qy) x y).
Proof.
  intros HP HS Hne. apply (quadrant_cell sh m) in Hne as Hr; [|done].
  rewrite (quadrant_at sh m) in * by (done || lia). now apply sep_outside.
Qed.

Lemma sval_get σ h X x y :
  holds σ h → 0 ≤ x < m → 0 ≤ y < m → get h (sview X) x y = sval σ X x y.
Proof.
  intros (Hh & Hfr & Hv) Hx Hy. destruct X as [qx qy|qx qy|t]; cbn [rview sview sval].
  - apply (get_outside sh _ h0 h x y (λ r, outside sh C r ∧ outside sh S r));
      [done|done|intros r []; now apply Hfr|].
    intros Hne. destruct L. split; now apply input_outside.
  - apply (get_outside sh _ h0 h x y (λ r, outside sh C r ∧ outside sh S r));
      [done|done|intros r []; now apply Hfr|].
    intros Hne. destruct L. split; now apply input_outside.
  - now apply Hv.
Qed.

(** A [sum] or [sub] into a region. *)
Lemma step_combine (op : Z → Z → Z) (f : submatrix → submatrix → submatrix → heap → heap)
    σ h X Y t :
  (∀ a b c h, shape h = sh → 0 ≤ md_dimension (sm_data c) →
     compat sh c c → compat sh a c → compat sh b c →
     written sh c (λ x y, op (get h a x y) (get h b x y)) h (f a b c h)) →
  holds σ h →
  holds (cset σ t (λ x y, op (sval σ X x y) (sval σ Y x y)))
        (f (sview X) (sview Y) (rview t) h).
Proof.
  intros Hf Hσ. pose proof Hσ as (Hh & Hfr & Hv).
  pose proof (Hf (sview X) (sview Y) (rview t) h Hh (rview_buffer t)
                (rview_inj t) (sview_compat X t) (sview_compat Y t)) as Hw.
  pose proof Hw as (Hs' & _ & _).
  split; [done|]. split.
  - intros r HC HS. rewrite (written_outside _ _ _ _ _ _ Hw).
    + now apply Hfr.
    + now apply outside_rview.
  - intros t' x y Hx Hy. rewrite cget_cset.
    destruct (region_eqb t t') eqn:E.
    + apply region_eqb_eq in E as <-.
      rewrite (written_get _ _ _ _ _ _ _ Hw (rview_good t));
        rewrite ?rview_dimension; [|done..].
      now rewrite !(sval_get σ).
    + assert (t' ≠ t) as Hne.
      { intros ->. assert (region_eqb t t = true) by now apply region_eqb_eq.
        congruence. }
      rewrite <- (Hv t' x y) by done.
      apply (get_outside sh _ h _ x y (outside sh (rview t))); [done..| |].
      * intros r Hr. now apply (written_outside _ _ _ _ _ _ Hw).
      * intros Hc. apply sep_outside; [|done]. now apply rview_sep.
Qed.

Lemma step_sum σ h X Y t :
  holds σ h →
  holds (cset σ t (madd (sval σ X) (sval σ Y)))
        (sum (sview X) (sview Y) (rview t) h).
Proof. apply (step_combine int_add sum). intros. now apply sum_spec. Qed.

Lemma step_sub σ h X Y t :
  holds σ h →
  holds (cset σ t (msub (sval σ X) (sval σ Y)))
        (sub (sview X) (sview Y) (rview t) h).
Proof. apply (step_combine int_sub sub). intros. now apply sub_spec. Qed.

(** A recursive call into the product slot. *)
Lemma step_mul self σ h X Y :
  multiplies self m →
  X ≠ SReg RM → Y ≠ SReg RM →
  holds σ h →
  ∃ h', self (sview X) (sview Y) (rview RM) SR h = Some h'
        ∧ holds (cset σ RM (mmul m (sval σ X) (sval σ Y))) h'.
Proof.
  intros Hself HX HY Hσ. pose proof Hσ as (Hh & Hfr & Hv).
  destruct (Hself sh (sview X) (sview Y) (rview RM) SR h) as (h' & E & Hs' & Hp & Hf').
  { destruct L. split.
    - apply sview_dimension.
    - apply sview_dimension.
    - apply rview_dimension.
    - apply SR_dimension.
    - apply (rview_buffer RM).
    - done.
    - apply rview_good.
    - unfold SR. now apply (quadrant_good sh m).
    - apply rview_inj.
    - unfold SR. now apply (quadrant_compat sh m).
    - apply rview_sep_SR.
    - now apply sview_sep_M.
    - apply sview_sep_SR.
    - now apply sview_sep_M.
    - apply sview_sep_SR. }
  { done. }
  exists h'. split; [done|]. split; [done|]. split.
  - intros r HC HS. rewrite Hf'; [now apply Hfr| |].
    + now apply (outside_rview RM).
    + now apply outside_SR.
  - intros t' x y Hx Hy. rewrite cget_cset.
    destruct (region_eqb RM t') eqn:E'.
    + apply region_eqb_eq in E' as <-. rewrite Hp by done.
      unfold product, mmul. f_equal. apply zsum_ext. intros k Hk.
      now rewrite !(sval_get σ).
    + assert (t' ≠ RM) as Hne.
      { intros ->. simpl in E'. done. }
      rewrite <- (Hv t' x y) by done.
      apply (get_outside sh _ h _ x y
               (λ r, outside sh (rview RM) r ∧ outside sh SR r)); [done..| |].
      * intros r [? ?]. now apply Hf'.
      * intros Hc. split; apply sep_outside; try done.
        -- now apply rview_sep.
        -- apply rview_sep_SR.
Qed.
End decompose.

#[export] Instance zsum_proper n : Proper (pointwise_relation Z eqw ==> eqw) (zsum n).
Proof. intros f g H. apply zsum_eqw. intros k _. apply H. Qed.

Ltac strassen_algebra :=
  unfold madd, msub, mmul, int_add, int_sub; apply wrap_eq_iff;
  repeat setoid_rewrite wrap_eqw;
  match goal with
  | |- eqw ?l ?r => replace l with r; [reflexivity|]
  end;
  rewrite ?Z.add_0_l;
  repeat (rewrite <- zsum_add || rewrite <- zsum_sub);
  apply zsum_ext; intros; ring.

(** Strassen's recombination, in machine arithmetic. *)
Section identities.
Context (m : Z) (a00 a01 a10 a11 b00 b01 b10 b11 : Z → Z → Z).

Let z : Z → Z → Z := λ _ _, 0.
Let M1 := mmul m (madd a00 a11) (madd b00 b11).
Let M2 := mmul m (madd a10 a11) b00.
Let M3 := mmul m a00 (msub b01 b11).
Let M4 := mmul m a11 (msub b10 b00).
Let M5 := mmul m (madd a00 a01) b11.
Let M6 := mmul m (msub a10 a00) (madd b00 b01).
Let M7 := mmul m (msub a01 a11) (madd b10 b11).

Lemma strassen_c00 x y :
  madd (msub (madd (madd z M1) M4) M5) M7 x y
  = wrap (zsum m (λ k, a00 x k * b00 k y) + zsum m (λ k, a01 x k * b10 k y)).
Proof. subst z M1 M2 M3 M4 M5 M6 M7. strassen_algebra. Qed.

Lemma strassen_c01 x y :
  madd (madd z M3) M5 x y
  = wrap (zsum m (λ k, a00 x k * b01 k y) + zsum m (λ k, a01 x k * b11 k y)).
Proof. subst z M1 M2 M3 M4 M5 M6 M7. strassen_algebra. Qed.

Lemma strassen_c10 x y :
  madd (madd z M2) M4 x y
  = wrap (zsum m (λ k, a10 x k * b00 k y) + zsum m (λ k, a11 x k * b10 k y)).
Proof. subst z M1 M2 M3 M4 M5 M6 M7. strassen_algebra. Qed.

Lemma strassen_c11 x y :
  madd (madd (msub (madd z M1) M2) M3) M6 x y
  = wrap (zsum m (λ k, a10 x k * b01 k y) + zsum m (λ k, a11 x k * b11 k y)).
Proof. subst z M1 M2 M3 M4 M5 M6 M7. strassen_algebra. Qed.
End identities.

Lemma product_split sh m h A B (qx qy : bool) x y :
  shape h = sh → 0 ≤ m →
  sm_dimension A = 2 * m → sm_dimension B = 2 * m →
  0 ≤ x < m → 0 ≤ y < m →
  product h A B (2 * m) (Z.b2z qx * m + x) (Z.b2z qy * m + y)
  = wrap (zsum m (λ k, get h (quadrant A qx false) x k
                       * get h (quadrant B false qy) k y)
          + zsum m (λ k, get h (quadrant A qx true) x k
                         * get h (quadrant B true qy) k y)).
Proof.
  intros Hh Hm HA HB Hx Hy. unfold product. f_equal.
  replace (2 * m) with (m + m) by lia. rewrite zsum_app by done.
  f_equal; apply zsum_ext; intros k Hk;
    rewrite !(quadrant_get sh m) by done; simpl Z.b2z;
    repeat f_equal; lia.
Qed.

Section contents_equations.
Context (a b c d e f g v : Z → Z → Z).

Lemma cget_c00 : cget (Contents a b c d e f g) (RC false false) = a.
Proof. reflexivity. Qed.
Lemma cget_c01 : cget (Contents a b c d e f g) (RC false true) = b.
Proof. reflexivity. Qed.
Lemma cget_c10 : cget (Contents a b c d e f g) (RC true false) = c.
Proof. reflexivity. Qed.
Lemma cget_c11 : cget (Contents a b c d e f g) (RC true true) = d.
Proof. reflexivity. Qed.
Lemma cget_cM : cget (Contents a b c d e f g) RM = e.
Proof. reflexivity. Qed.
Lemma cget_cS0 : cget (Contents a b c d e f g) RS0 = f.
Proof. reflexivity. Qed.
Lemma cget_cS1 : cget (Contents a b c d e f g) RS1 = g.
Proof. reflexivity. Qed.

Lemma cset_c00 :
  cset (Contents a b c d e f g) (RC false false) v = Contents v b c d e f g.
Proof. reflexivity. Qed.
Lemma cset_c01 :
  cset (Contents a b c d e f g) (RC false true) v = Contents a v c d e f g.
Proof. reflexivity. Qed.
Lemma cset_c10 :
  cset (Contents a b c d e f g) (RC true false) v = Contents a b v d e f g.
Proof. reflexivity. Qed.
Lemma cset_c11 :
  cset (Contents a b c d e f g) (RC true true) v = Contents a b c v e f g.
Proof. reflexivity. Qed.
Lemma cset_cM : cset (Contents a b c d e f g) RM v = Contents a b c d v f g.
Proof. reflexivity. Qed.
Lemma cset_cS0 : cset (Contents a b c d e f g) RS0 v = Contents a b c d e v g.
Proof. reflexivity. Qed.
Lemma cset_cS1 : cset (Contents a b c d e f g) RS1 v = Contents a b c d e f v.
Proof. reflexivity. Qed.
End contents_equations.

Lemma sval_A A B h σ qx qy : sval A B h σ (SA qx qy) = get h (quadrant A qx qy).
Proof. reflexivity. Qed.

Lemma sval_B A B h σ qx qy : sval A B h σ (SB qx qy) = get h (quadrant B qx qy).
Proof. reflexivity. Qed.

Lemma sval_reg A B h σ t : sval A B h σ (SReg t) = cget σ t.
Proof. reflexivity. Qed.

Ltac contents_norm H :=
  rewrite ?sval_A, ?sval_B, ?sval_reg in H;
  rewrite ?cget_c00, ?cget_c01, ?cget_c10, ?cget_c11, ?cget_cM, ?cget_cS0,
    ?cget_cS1 in H;
  rewrite ?cset_c00, ?cset_c01, ?cset_c10, ?cset_c11, ?cset_cM, ?cset_cS0,
    ?cset_cS1 in H.

(** One level of the recursion: seven products of quadrants give the
    product of the whole. *)
Lemma decompose_spec sh m A B C S self h :
  layout sh (2 * m) A B C S → 0 ≤ m → shape h = sh →
  multiplies self m →
  (∀ x y, 0 ≤ x < 2 * m → 0 ≤ y < 2 * m → get h C x y = 0) →
  ∃ h', strassen_decompose self A B C S h = Some h' ∧ shape h' = sh
    ∧ (∀ x y, 0 ≤ x < 2 * m → 0 ≤ y < 2 * m →
         get h' C x y = product h A B (2 * m) x y)
    ∧ (∀ r, outside sh C r → outside sh S r → load h' r = load h r).
Proof.
  intros L Hm Hh Hself Hzero.
  set (σ0 := Contents (λ _ _, 0) (λ _ _, 0) (λ _ _, 0) (λ _ _, 0)
               (get h (rview C S RM)) (get h (rview C S RS0))
               (get h (rview C S RS1))).
  assert (holds sh m C S h σ0 h) as H.
  { split; [done|]. split; [done|]. intros t x y Hx Hy.
    destruct t as [qx qy| | |]; try done.
    transitivity 0; [|by destruct qx, qy]. cbn [rview].
    destruct L. rewrite (quadrant_get sh m) by done.
    apply Hzero; destruct qx, qy; simpl; lia. }
  subst σ0.
  (* M1 *)
  apply (step_sum sh m A B C S L h Hh _ _ (SA false false) (SA true true) RS0) in H. contents_norm H.
  apply (step_sum sh m A B C S L h Hh _ _ (SB false false) (SB true true) RS1) in H. contents_norm H.
  apply (step_mul sh m A B C S L h Hh self _ _ (SReg RS0) (SReg RS1) Hself) in H;
    [|done..]. destruct H as (h1 & E1 & H). contents_norm H.
  apply (step_sum sh m A B C S L h Hh _ _ (SReg (RC false false)) (SReg RM)
           (RC false false)) in H. contents_norm H.
  apply (step_sum sh m A B C S L h Hh _ _ (SReg (RC true true)) (SReg RM)
           (RC true true)) in H. contents_norm H.
  (* M2 *)
  apply (step_sum sh m A B C S L h Hh _ _ (SA true false) (SA true true) RS0) in H. contents_norm H.
  apply (step_mul sh m A B C S L h Hh self _ _ (SReg RS0) (SB false false) Hself) in H;
    [|done..]. destruct H as (h2 & E2 & H). contents_norm H.
  apply (step_sum sh m A B C S L h Hh _ _ (SReg (RC true false)) (SReg RM)
           (RC true false)) in H. contents_norm H.
  apply (step_sub sh m A B C S L h Hh _ _ (SReg (RC true true)) (SReg RM)
           (RC true true)) in H. contents_norm H.
  (* M3 *)
  apply (step_sub sh m A B C S L h Hh _ _ (SB false true) (SB true true) RS0) in H. contents_norm H.
  apply (step_mul sh m A B C S L h Hh self _ _ (SA false false) (SReg RS0) Hself) in H;
    [|done..]. destruct H as (h3 & E3 & H). contents_norm H.
  apply (step_sum sh m A B C S L h Hh _ _ (SReg (RC false true)) (SReg RM)
           (RC false true)) in H. contents_norm H.
  apply (step_sum sh m A B C S L h Hh _ _ (SReg (RC true true)) (SReg RM)
           (RC true true)) in H. contents_norm H.
  (* M4 *)
  apply (step_sub sh m A B C S L h Hh _ _ (SB true false) (SB false false) RS0) in H. contents_norm H.
  apply (step_mul sh m A B C S L h Hh self _ _ (SA true true) (SReg RS0) Hself) in H;
    [|done..]. destruct H as (h4 & E4 & H). contents_norm H.
  apply (step_sum sh m A B C S L h Hh _ _ (SReg (RC false false)) (SReg RM)
           (RC false false)) in H. contents_norm H.
  apply (step_sum sh m A B C S L h Hh _ _ (SReg (RC true false)) (SReg RM)
           (RC true false)) in H. contents_norm H.
  (* M5 *)
  apply (step_sum sh m A B C S L h Hh _ _ (SA false false) (SA false true) RS0) in H. contents_norm H.
  apply (step_mul sh m A B C S L h Hh self _ _ (SReg RS0) (SB true true) Hself) in H;
    [|done..]. destruct H as (h5 & E5 & H). contents_norm H.
  apply (step_sub sh m A B C S L h Hh _ _ (SReg (RC false false)) (SReg RM)
           (RC false false)) in H. contents_norm H.
  apply (step_sum sh m A B C S L h Hh _ _ (SReg (RC false true)) (SReg RM)
           (RC false true)) in H. contents_norm H.
  (* M6 *)
  apply (step_sub sh m A B C S L h Hh _ _ (SA true false) (SA false false) RS0) in H. contents_norm H.
  apply (step_sum sh m A B C S L h Hh _ _ (SB false false) (SB false true) RS1) in H. contents_norm H.
  apply (step_mul sh m A B C S L h Hh self _ _ (SReg RS0) (SReg RS1) Hself) in H;
    [|done..]. destruct H as (h6 & E6 & H). contents_norm H.
  apply (step_sum sh m A B C S L h Hh _ _ (SReg (RC true true)) (SReg RM)
           (RC true true)) in H. contents_norm H.
  (* M7 *)
  apply (step_sub sh m A B C S L h Hh _ _ (SA false true) (SA true true) RS0) in H. contents_norm H.
  apply (step_sum sh m A B C S L h Hh _ _ (SB true false) (SB true true) RS1) in H. contents_norm H.
  apply (step_mul sh m A B C S L h Hh self _ _ (SReg RS0) (SReg RS1) Hself) in H;
    [|done..]. destruct H as (h7 & E7 & H). contents_norm H.
  apply (step_sum sh m A B C S L h Hh _ _ (SReg (RC false false)) (SReg RM)
           (RC false false)) in H. contents_norm H.
  unfold sview, rview, SR, quadrant in E1, E2, E3, E4, E5, E6, E7, H.
  cbn [Z.b2z] in E1, E2, E3, E4, E5, E6, E7, H.
  eexists. split.
  { unfold strassen_decompose. cbv zeta.
    rewrite E1. cbn [mbind option_bind]. rewrite E2. cbn [mbind option_bind].
    rewrite E3. cbn [mbind option_bind]. rewrite E4. cbn [mbind option_bind].
    rewrite E5. cbn [mbind option_bind]. rewrite E6. cbn [mbind option_bind].
    rewrite E7. cbn [mbind option_bind]. reflexivity. }
  destruct H as (Hs & Hfr & Hv). split; [done|]. split; [|done].
  intros x y Hx Hy.
  assert (∃ qx x', 0 ≤ x' < m ∧ x = Z.b2z qx * m + x') as (qx & x' & Hx' & ->).
  { exists (m <=? x), (x - Z.b2z (m <=? x) * m).
    destruct (m <=? x) eqn:?; simpl; lia. }
  assert (∃ qy y', 0 ≤ y' < m ∧ y = Z.b2z qy * m + y') as (qy & y' & Hy' & ->).
  { exists (m <=? y), (y - Z.b2z (m <=? y) * m).
    destruct (m <=? y) eqn:?; simpl; lia. }
  destruct L.
  rewrite <- (quadrant_get sh m) by done.
  rewrite (product_split sh m) by done.
  specialize (Hv (RC qx qy) x' y' Hx' Hy'). cbn [rview] in Hv.
  unfold quadrant in Hv |- *. rewrite Hv.
  destruct qx, qy;
    rewrite ?cget_c00, ?cget_c01, ?cget_c10, ?cget_c11; cbn [Z.b2z].
  - apply strassen_c11.
  - apply strassen_c10.
  - apply strassen_c01.
  - apply strassen_c00.
Qed.

Lemma strassen_branch_delegate cutoff C :
  strassen_branch cutoff C = Delegate
  ↔ Z.rem (sm_dimension C) 2 = 1 ∨ sm_dimension C ≤ cutoff.
Proof.
  unfold strassen_branch.
  destruct (Z.rem (sm_dimension C) 2 =? 1) eqn:E1;
    destruct (sm_dimension C <=? cutoff) eqn:E2; simpl; split;
    intros; try done; try lia.
Qed.

Lemma strassen_branch_decompose cutoff C :
  1 ≤ cutoff → strassen_branch cutoff C = Decompose →
  ∃ m, sm_dimension C = 2 * m ∧ 1 ≤ m ∧ cutoff < 2 * m.
Proof.
  intros Hc H. unfold strassen_branch in H.
  destruct (Z.rem (sm_dimension C) 2 =? 1) eqn:E1; [done|].
  destruct (sm_dimension C <=? cutoff) eqn:E2; [done|].
  exists (sm_dimension C `div` 2).
  rewrite Z.rem_mod_nonneg in E1 by lia.
  pose proof (Z.div_mod (sm_dimension C) 2). pose proof (Z.mod_pos_bound (sm_dimension C) 2).
  lia.
Qed.

(** Reads through the inputs do not see what is written through [C]. *)
Lemma product_frame sh h h' A B C n :
  shape h = sh → shape h' = sh → sep sh A C → sep sh B C →
  (∀ r, outside sh C r → load h' r = load h r) →
  ∀ x y, product h' A B n x y = product h A B n x y.
Proof.
  intros Hh Hh' HA HB Hfr x y. unfold product. f_equal. apply zsum_ext.
  intros k _. f_equal.
  - apply (get_outside sh _ h h' _ _ (outside sh C)); [done..|].
    intros Hne. now apply sep_outside.
  - apply (get_outside sh _ h h' _ _ (outside sh C)); [done..|].
    intros Hne. now apply sep_outside.
Qed.

(** The recursive multiply stores the product of [A] and [B] in [C] and
    writes nowhere but through [C] and [S]. *)
Lemma strassen_mul_recursion_multiplies cutoff fuel :
  1 ≤ cutoff → ∀ n, (Z.to_nat n < fuel)%nat →
  multiplies (strassen_mul_recursion cutoff fuel) n.
Proof.
  intros Hc. induction fuel as [|fuel IH]; intros n Hf; [lia|].
  intros sh A B C S h L Hh. cbn [strassen_mul_recursion].
  unfold strassen_mul_recursion_body.
  pose proof L as [HA HB HC HS HDC HDS HgC HgS HiC HiS HCS HAC HAS HBC HBS].
  pose proof (clear_spec sh C h Hh HDC HiC) as Hcl.
  set (h1 := submatrix_clear C h) in *.
  pose proof Hcl as (Hh1 & _ & _).
  assert (∀ r, outside sh C r → load h1 r = load h r) as Hfr1.
  { intros r Hr. now apply (written_outside _ _ _ _ _ _ Hcl). }
  destruct (strassen_branch cutoff C) eqn:Ebr.
  - pose proof (linear_mul_spec sh A B C h1 Hh1 HDC HiC HAC HBC) as Hl.
    pose proof Hl as (Hh2 & _ & _).
    eexists. split; [done|]. split; [done|]. split.
    + intros x y Hx Hy. rewrite (written_get _ _ _ _ _ _ _ Hl HgC) by lia.
      rewrite (written_get _ _ _ _ _ _ _ Hcl HgC) by lia.
      rewrite Z.add_0_l, HC. fold (product h1 A B n x y).
      now apply (product_frame sh _ _ _ _ C).
    + intros r Hr _. rewrite (written_outside _ _ _ _ _ _ Hl) by done.
      now apply Hfr1.
  - apply strassen_branch_decompose in Ebr as (m & Hm & Hm1 & Hm2); [|done].
    assert (n = 2 * m) as -> by lia.
    destruct (decompose_spec sh m A B C S (strassen_mul_recursion cutoff fuel) h1)
      as (h' & E & Hh' & Hp & Hfr); [done|lia|done|apply IH; lia| |].
    { intros x y Hx Hy. apply (written_get _ _ _ _ _ _ _ Hcl HgC); lia. }
    exists h'. split; [done|]. split; [done|]. split.
    + intros x y Hx Hy. rewrite Hp by done.
      now apply (product_frame sh _ _ _ _ C).
    + intros r HrC HrS. rewrite Hfr by done. now apply Hfr1.
Qed.


(** ** Views that lie inside their buffer, views that do not overlap *)

Lemma proper_in_bounds sh m x y :
  proper sh m = true → 0 ≤ x < sm_dimension m → 0 ≤ y < sm_dimension m →
  submatrix_in_bounds sh m x y = true.
Proof.
  unfold proper, submatrix_in_bounds, matrix_data_in_bounds, ptr.
  intros H Hx Hy.
  repeat (apply andb_prop in H as [H ?]). 
  assert ((x + sm_i m) + md_dimension (sm_data m) * (y + sm_j m)
          < vsize sh (md_data (sm_data m))) by nia.
  repeat (apply andb_true_intro; split); lia.
Qed.

Lemma proper_buffer sh m : proper sh m = true → 0 ≤ md_dimension (sm_data m).
Proof.
  unfold proper. intros H. repeat (apply andb_prop in H as [H ?]). lia.
Qed.

Lemma proper_good sh m : proper sh m = true → good sh m.
Proof.
  intros H x y Hx Hy. unfold submatrix_at. now rewrite proper_in_bounds.
Qed.

Lemma proper_compat sh m : proper sh m = true → compat sh m m.
Proof.
  intros H x y x' y' Heq Hne.
  assert (submatrix_at sh m x' y' ≠ Padding) as Hne' by congruence.
  apply submatrix_at_cell in Hne as (Hb & Hx & Hy & _).
  apply submatrix_at_cell in Hne' as (Hb' & Hx' & Hy' & _).
  unfold submatrix_at in Heq. rewrite Hb, Hb' in Heq.
  unfold proper in H. repeat (apply andb_prop in H as [H ?]).
  injection Heq as Heq. apply Z2Nat.inj in Heq; [|nia|nia].
  assert (y = y') by (destruct (Z.lt_trichotomy y y') as [|[|]]; [nia|done|nia]).
  subst y'. lia.
Qed.

Lemma elem_of_cells sh m x y :
  0 ≤ x < sm_dimension m → 0 ≤ y < sm_dimension m →
  submatrix_at sh m x y ∈ cells sh m.
Proof.
  intros Hx Hy. unfold cells. apply list_elem_of_bind. exists x. split.
  - apply list_elem_of_bind. exists y. split; [apply list_elem_of_singleton; done|].
    apply elem_of_seqZ. lia.
  - apply elem_of_seqZ. lia.
Qed.

Lemma disjoint_sep sh a c : disjoint sh a c = true → sep sh a c.
Proof.
  intros H x y x' y' Heq.
  destruct (submatrix_at sh a x y) as [p k|] eqn:E; [|done]. exfalso.
  assert (submatrix_at sh a x y ≠ Padding) as Hne by congruence.
  assert (submatrix_at sh c x' y' ≠ Padding) as Hne' by congruence.
  apply submatrix_at_cell in Hne as (_ & Hx & Hy & _).
  apply submatrix_at_cell in Hne' as (_ & Hx' & Hy' & _).
  unfold disjoint in H. rewrite forallb_forall in H.
  specialize (H (Cell p k)). simpl in H.
  assert (negb (bool_decide (Cell p k ∈ cells sh c)) = true) as Hn.
  { apply H. apply list_elem_of_In. rewrite <- E. now apply elem_of_cells. }
  apply negb_true_iff, bool_decide_eq_false in Hn. apply Hn.
  rewrite Heq. now apply elem_of_cells.
Qed.

Lemma submatrix_at_ptr sh m x y p k :
  submatrix_at sh m x y = Cell p k → p = ptr m.
Proof.
  unfold submatrix_at. destruct (submatrix_in_bounds sh m x y); [|done].
  now intros [= <- _].
Qed.

Lemma sep_ptr sh a c : ptr a ≠ ptr c → sep sh a c.
Proof.
  intros Hne x y x' y' Heq.
  destruct (submatrix_at sh a x y) as [p k|] eqn:E; [|done]. exfalso.
  apply submatrix_at_ptr in E. symmetry in Heq. apply submatrix_at_ptr in Heq.
  congruence.
Qed.

Lemma outside_ptr sh m p k : p ≠ ptr m → outside sh m (Cell p k).
Proof. intros Hne x y Heq. apply submatrix_at_ptr in Heq. done. Qed.

Lemma layout_intro sh n A B C S :
  sm_dimension A = n → sm_dimension B = n →
  sm_dimension C = n → sm_dimension S = n →
  proper sh C = true → proper sh S = true →
  sep sh C S → sep sh A C → sep sh A S → sep sh B C → sep sh B S →
  layout sh n A B C S.
Proof.
  intros. split; try done.
  - now apply (proper_buffer sh).
  - now apply (proper_buffer sh).
  - now apply proper_good.
  - now apply proper_good.
  - now apply proper_compat.
  - now apply proper_compat.
Qed.

(** ** Allocation *)

Lemma shape_app h v : shape (h ++ [v]) = shape h ++ [length v].
Proof. unfold shape. now rewrite fmap_app. Qed.

Lemma length_shape h : length (shape h) = length h.
Proof. unfold shape. now rewrite length_fmap. Qed.

Lemma vsize_app_old sh k p : (p < length sh)%nat → vsize (sh ++ [k]) p = vsize sh p.
Proof. intros H. unfold vsize. now rewrite lookup_app_l. Qed.

Lemma vsize_app_new sh k : vsize (sh ++ [k]) (length sh) = Z.of_nat k.
Proof.
  unfold vsize. rewrite lookup_app_r by lia. now rewrite Nat.sub_diag.
Qed.

Lemma submatrix_at_app sh k m x y :
  (ptr m < length sh)%nat →
  submatrix_at (sh ++ [k]) m x y = submatrix_at sh m x y.
Proof.
  intros H. unfold submatrix_at, submatrix_in_bounds, matrix_data_in_bounds.
  unfold ptr in H. now rewrite vsize_app_old.
Qed.

Lemma proper_app sh k m :
  (ptr m < length sh)%nat → proper (sh ++ [k]) m = proper sh m.
Proof. intros H. unfold proper. now rewrite vsize_app_old. Qed.

Lemma load_app_old h v p k :
  (p < length h)%nat → load (h ++ [v]) (Cell p k) = load h (Cell p k).
Proof. intros H. simpl. now rewrite lookup_app_l. Qed.

Lemma get_app h v m x y :
  (ptr m < length h)%nat → get (h ++ [v]) m x y = get h m x y.
Proof.
  intros H. unfold get. rewrite shape_app, submatrix_at_app
    by now rewrite length_shape.
  destruct (submatrix_at (shape h) m x y) as [p k|] eqn:E; [|done].
  apply submatrix_at_ptr in E as ->. now apply load_app_old.
Qed.

Lemma alloc_matrix_data_proper dimension h :
  0 ≤ dimension →
  proper (shape (snd (alloc_matrix_data dimension h)))
         (submatrix_of (fst (alloc_matrix_data dimension h))) = true.
Proof.
  intros Hd. unfold alloc_matrix_data, proper, submatrix_of, ptr. simpl.
  rewrite shape_app, <- (length_shape h), vsize_app_new, length_replicate.
  repeat (apply andb_true_intro; split); try lia.
  apply Z.eqb_eq. rewrite Z2Nat.id; nia.
Qed.

(** Where the square of the side is an [int] the constructor does not
    throw and allocates the exact square. *)
Lemma new_matrix_data_fits dimension h :
  dimension * dimension ≤ int_max →
  new_matrix_data dimension h = Some (alloc_matrix_data dimension h).
Proof.
  intros Hd. unfold new_matrix_data, alloc_matrix_data, int_mul.
  rewrite wrap_small by (unfold int_max in Hd; nia).
  assert ((dimension * dimension <? 0) = false) as -> by (apply Z.ltb_ge; nia).
  reflexivity.
Qed.

(** A vector is what its cells hold. *)
Lemma lookup_eq_of_load (h h' : heap) p :
  shape h' = shape h →
  (∀ k, load h' (Cell p k) = load h (Cell p k)) →
  h' !! p = h !! p.
Proof.
  intros Hs Hl.
  assert (length <$> (h' !! p) = length <$> (h !! p)) as Hlen.
  { rewrite <- !list_lookup_fmap. unfold shape in Hs. now rewrite Hs. }
  destruct (h' !! p) as [v'|] eqn:E', (h !! p) as [v|] eqn:E; simpl in Hlen;
    try done.
  f_equal. injection Hlen as Hlen. apply list_eq. intros k.
  specialize (Hl k). simpl in Hl. rewrite E, E' in Hl. simpl in Hl.
  destruct (v' !! k) as [z'|] eqn:Ek', (v !! k) as [z|] eqn:Ek; simpl in Hl;
    try congruence.
  - apply lookup_lt_Some in Ek'. apply lookup_ge_None in Ek. lia.
  - apply lookup_lt_Some in Ek. apply lookup_ge_None in Ek'. lia.
Qed.

(** ** Which vectors are written *)

Lemma for_loop_preserve {St} (P : St → Prop) n (body : Z → St → St) s :
  P s → (∀ k t, P t → P (body k t)) → P (for_loop n body s).
Proof.
  intros Hs Hb. unfold for_loop. generalize 0. revert s Hs.
  induction (Z.to_nat n) as [|c IH]; intros s Hs k; simpl; [done|].
  apply IH. now apply Hb.
Qed.

Lemma frame2_refl pC pS h : frame2 pC pS h h.
Proof. done. Qed.

Lemma frame2_trans pC pS h1 h2 h3 :
  frame2 pC pS h1 h2 → frame2 pC pS h2 h3 → frame2 pC pS h1 h3.
Proof.
  intros [L1 H1] [L2 H2]. split; [congruence|].
  intros p HC HS. rewrite H2, H1; done.
Qed.

Lemma set_frame h m x y v pC pS :
  ptr m = pC ∨ ptr m = pS → frame2 pC pS h (set h m x y v).
Proof.
  intros Hp. unfold set.
  destruct (submatrix_at (shape h) m x y) as [p k|] eqn:E; [|done].
  apply submatrix_at_ptr in E as ->. split; [apply length_store|].
  intros q HC HS. apply lookup_store_ne. destruct Hp; congruence.
Qed.

Lemma fill_frame c val h pC pS :
  ptr c = pC ∨ ptr c = pS → frame2 pC pS h (fill c val h).
Proof.
  intros Hp. unfold fill.
  apply (for_loop_preserve (frame2 pC pS h)); [done|]. intros j t Ht.
  apply (for_loop_preserve (frame2 pC pS h)); [done|]. intros i t' Ht'.
  eapply frame2_trans; [done|]. now apply set_frame.
Qed.

Lemma clear_frame c h pC pS :
  ptr c = pC ∨ ptr c = pS → frame2 pC pS h (submatrix_clear c h).
Proof. apply (fill_frame c (λ _ _ _, 0)). Qed.

Lemma sum_frame a b c h pC pS :
  ptr c = pC ∨ ptr c = pS → frame2 pC pS h (sum a b c h).
Proof. apply (fill_frame c (λ h i j, int_add (get h a i j) (get h b i j))). Qed.

Lemma sub_frame a b c h pC pS :
  ptr c = pC ∨ ptr c = pS → frame2 pC pS h (sub a b c h).
Proof. apply (fill_frame c (λ h i j, int_sub (get h a i j) (get h b i j))). Qed.

Lemma linear_mul_frame a b c h pC pS :
  ptr c = pC ∨ ptr c = pS → frame2 pC pS h (linear_mul a b c h).
Proof.
  intros Hp. unfold linear_mul.
  apply (for_loop_preserve (frame2 pC pS h)); [done|]. intros k t Ht.
  apply (for_loop_preserve (frame2 pC pS h)); [done|]. intros i t' Ht'.
  apply (for_loop_preserve (frame2 pC pS h)); [done|]. intros j t'' Ht''.
  eapply frame2_trans; [done|]. now apply set_frame.
Qed.

(** The lambda calls itself on the product slot and the recursive scratch
    only: nothing else of [self] matters to one level. *)
Lemma strassen_decompose_calls self self' A B C S h :
  (∀ X Y h, self X Y (submatrix_sub S 0 0) (submatrix_sub S 0 1) h
            = self' X Y (submatrix_sub S 0 0) (submatrix_sub S 0 1) h) →
  strassen_decompose self A B C S h = strassen_decompose self' A B C S h.
Proof.
  intros H. unfold strassen_decompose. cbv zeta.
  repeat (rewrite H; destruct (self' _ _ _ _ _); cbn [mbind option_bind];
          [|reflexivity]).
  reflexivity.
Qed.






(** One level returns when its recursive calls do, and writes where they
    write or through [C] and [S]. *)
Lemma strassen_decompose_total self A B C S h :
  (∀ X Y h, ∃ h', self X Y (submatrix_sub S 0 0) (submatrix_sub S 0 1) h = Some h'
                  ∧ frame2 (ptr C) (ptr S) h h') →
  ∃ h', strassen_decompose self A B C S h = Some h'
        ∧ frame2 (ptr C) (ptr S) h h'.
Proof.
  intros Hself. unfold strassen_decompose. cbv zeta.
  repeat match goal with
  | |- context [self ?X ?Y ?M ?R ?g] =>
      let h' := fresh "h" in let E := fresh "E" in let F := fresh "F" in
      destruct (Hself X Y g) as (h' & E & F); rewrite E;
      cbn [mbind option_bind]
  end.
  eexists. split; [reflexivity|].
  repeat first
    [ eassumption
    | eapply frame2_trans; [|apply sum_frame; (by left) || (by right)]
    | eapply frame2_trans; [|apply sub_frame; (by left) || (by right)]
    | eapply frame2_trans; [|eassumption] ].
  apply frame2_refl.
Qed.

Lemma ceil_divide_decreases n cutoff :
  1 ≤ cutoff → cutoff < n → Z.rem n 2 ≠ 1 →
  1 ≤ ceil_divide n < n ∧ n = 2 * ceil_divide n.
Proof.
  intros Hc Hn Hr. rewrite ceil_divide_ceiling by lia.
  rewrite Z.rem_mod_nonneg in Hr by lia.
  pose proof (Z.div_mod n 2). pose proof (Z.mod_pos_bound n 2).
  pose proof (Z.div_mod (n + 1) 2). pose proof (Z.mod_pos_bound (n + 1) 2).
  lia.
Qed.

(** The recursion returns for every cutoff of at least 1. *)
Lemma strassen_mul_recursion_total cutoff fuel :
  1 ≤ cutoff → ∀ A B C S h,
  sm_dimension S = sm_dimension C →
  (Z.to_nat (sm_dimension C) < fuel)%nat →
  ∃ h', strassen_mul_recursion cutoff fuel A B C S h = Some h'
        ∧ frame2 (ptr C) (ptr S) h h'.
Proof.
  intros Hc. induction fuel as [|fuel IH]; intros A B C S h HS Hf; [lia|].
  cbn [strassen_mul_recursion]. unfold strassen_mul_recursion_body.
  destruct (strassen_branch cutoff C) eqn:Ebr.
  - eexists. split; [reflexivity|].
    eapply frame2_trans; [apply clear_frame|apply linear_mul_frame]; by left.
  - apply strassen_branch_decompose in Ebr as (m & Hm & Hm1 & Hm2); [|done].
    destruct (strassen_decompose_total (strassen_mul_recursion cutoff fuel)
                A B C S (submatrix_clear C h)) as (h' & E & F).
    + intros X Y g.
      destruct (IH X Y (submatrix_sub S 0 0) (submatrix_sub S 0 1) g)
        as (g' & Eg & Fg).
      * reflexivity.
      * simpl. rewrite HS, Hm, ceil_divide_even. lia.
      * exists g'. split; [done|]. destruct Fg as [Lg Hg]. split; [done|].
        intros p _ HpS. now apply Hg.
    + exists h'. split; [done|].
      eapply frame2_trans; [apply clear_frame; by left|done].
Qed.

(** ** The padding calculator *)

Lemma ceil_half_bounds x : 2 ≤ x → 1 ≤ ceil_half x < x.
Proof.
  intros Hx. unfold ceil_half.
  pose proof (Z.div_mod (x + 1) 2). pose proof (Z.mod_pos_bound (x + 1) 2). lia.
Qed.

Lemma ceil_half_double x : x ≤ 2 * ceil_half x.
Proof.
  unfold ceil_half.
  pose proof (Z.div_mod (x + 1) 2). pose proof (Z.mod_pos_bound (x + 1) 2). lia.
Qed.

Lemma padding_size_loop_spec cutoff fuel :
  1 ≤ cutoff → ∀ d p, 1 ≤ d → 0 ≤ p → (Z.to_nat d ≤ fuel)%nat →
  ∃ k : nat,
    padding_size_loop fuel d cutoff p
      = Some (int_mul (Nat.iter k ceil_half d) (wrap (2 ^ (p + Z.of_nat k))))
    ∧ Nat.iter k ceil_half d ≤ cutoff
    ∧ ∀ k' : nat, (k' < k)%nat → cutoff < Nat.iter k' ceil_half d.
Proof.
  intros Hc. induction fuel as [|fuel IH]; intros d p Hd Hp Hf; [lia|].
  cbn [padding_size_loop]. destruct (cutoff <? d) eqn:E.
  - apply Z.ltb_lt in E. destruct (IH (ceil_divide d) (p + 1)) as (k & Ek & Hle & Hgt).
    + rewrite ceil_divide_ceiling by lia. apply ceil_half_bounds. lia.
    + lia.
    + rewrite ceil_divide_ceiling by lia.
      pose proof (ceil_half_bounds d). unfold ceil_half in *. lia.
    + rewrite ceil_divide_ceiling in * by lia. fold (ceil_half d) in *.
      exists (S k). rewrite Nat.iter_succ_r. split; [|split].
      * rewrite Ek.
        now replace (p + 1 + Z.of_nat k) with (p + Z.of_nat (S k)) by lia.
      * done.
      * intros [|k'] Hk'; [simpl; lia|]. rewrite Nat.iter_succ_r.
        apply Hgt. lia.
  - apply Z.ltb_ge in E. exists O. simpl. rewrite Z.shiftl_1_l, Z.add_0_r.
    split; [done|]. split; [lia|]. intros; lia.
Qed.

Lemma halved_pos k d : 1 ≤ d → 1 ≤ Nat.iter k ceil_half d.
Proof.
  intros Hd. induction k as [|k IH]; [done|]. simpl. unfold ceil_half at 1.
  pose proof (Z.div_mod (Nat.iter k ceil_half d + 1) 2).
  pose proof (Z.mod_pos_bound (Nat.iter k ceil_half d + 1) 2). lia.
Qed.

Lemma halved_covers k d : d ≤ Nat.iter k ceil_half d * 2 ^ Z.of_nat k.
Proof.
  revert d. induction k as [|k IH]; intros d; [simpl; lia|].
  rewrite Nat.iter_succ_r. specialize (IH (ceil_half d)).
  pose proof (ceil_half_double d).
  replace (Z.of_nat (S k)) with (Z.of_nat k + 1) by lia.
  rewrite Z.pow_add_r, Z.pow_1_r by lia.
  assert (0 ≤ 2 ^ Z.of_nat k) by (apply Z.pow_nonneg; lia). nia.
Qed.

Lemma halved_tight k d :
  2 ≤ d → (∀ k' : nat, (k' < k)%nat → 1 < Nat.iter k' ceil_half d) →
  Nat.iter k ceil_half d * 2 ^ Z.of_nat k ≤ 2 * d - 2.
Proof.
  revert d. induction k as [|k IH]; intros d Hd Hgt; [simpl; lia|].
  rewrite Nat.iter_succ_r.
  replace (Z.of_nat (S k)) with (Z.of_nat k + 1) by lia.
  rewrite Z.pow_add_r, Z.pow_1_r by lia.
  pose proof (ceil_half_bounds d Hd) as Hh.
  assert (2 * ceil_half d ≤ d + 1) as Hh2.
  { unfold ceil_half. pose proof (Z.div_mod (d + 1) 2).
    pose proof (Z.mod_pos_bound (d + 1) 2). lia. }
  destruct k as [|k].
  - simpl. lia.
  - assert (1 < ceil_half d) as H1.
    { specialize (Hgt 1%nat). simpl in Hgt. apply Hgt. lia. }
    specialize (IH (ceil_half d)).
    assert (Nat.iter (S k) ceil_half (ceil_half d) * 2 ^ Z.of_nat (S k)
            ≤ 2 * ceil_half d - 2) as IH'.
    { apply IH; [lia|]. intros k' Hk'. rewrite <- Nat.iter_succ_r.
      apply Hgt. lia. }
    lia.
Qed.

(** The product [final * 2 ^ k] of the halvings lies in [[N, 2 N)]. *)
Lemma halved_bounds N C (k : nat) :
  1 ≤ N → 1 ≤ C →
  (∀ k' : nat, (k' < k)%nat → C < Nat.iter k' ceil_half N) →
  N ≤ Nat.iter k ceil_half N * 2 ^ Z.of_nat k < 2 * N.
Proof.
  intros HN HC Hgt. split; [apply halved_covers|].
  destruct (Z.eq_dec N 1) as [->|Hne].
  - destruct k as [|k]; [simpl; lia|].
    specialize (Hgt O). simpl in Hgt. lia.
  - assert (Nat.iter k ceil_half N * 2 ^ Z.of_nat k ≤ 2 * N - 2); [|lia].
    apply halved_tight; [lia|]. intros k' Hk'. specialize (Hgt k' Hk'). lia.
Qed.

(** A product [final * 2 ^ e] that is an [int] is computed without
    wrap-around. *)
Lemma int_mul_pow_fits f e :
  1 ≤ f → 0 ≤ e → f * 2 ^ e ≤ int_max →
  int_mul f (wrap (2 ^ e)) = f * 2 ^ e.
Proof.
  intros Hf He Hfit. unfold int_max in Hfit.
  assert (0 < 2 ^ e) by (apply Z.pow_pos_nonneg; lia).
  unfold int_mul. rewrite (wrap_small (2 ^ e)) by nia.
  apply wrap_small. nia.
Qed.

(** The padding calculator returns for every cutoff of at least 1: the
    product of the halvings, in [int] arithmetic. *)
Lemma padding_size_halved N cutoff :
  1 ≤ N → 1 ≤ cutoff →
  ∃ k : nat,
    padding_size N cutoff
      = Some (int_mul (Nat.iter k ceil_half N) (wrap (2 ^ Z.of_nat k)))
    ∧ 1 ≤ Nat.iter k ceil_half N ≤ cutoff
    ∧ (∀ k' : nat, (k' < k)%nat → cutoff < Nat.iter k' ceil_half N)
    ∧ N ≤ Nat.iter k ceil_half N * 2 ^ Z.of_nat k < 2 * N.
Proof.
  intros HN Hc. unfold padding_size.
  destruct (padding_size_loop_spec cutoff (Z.to_nat N) Hc N 0)
    as (k & E & Hle & Hgt); [lia..|].
  rewrite Z.add_0_l in E. exists k. split; [done|].
  split; [split; [now apply halved_pos|done]|]. split; [done|].
  now apply (halved_bounds N cutoff).
Qed.

(** ** The entry point *)

Lemma product_ext h h' A B n x y :
  (∀ k, 0 ≤ k < n → get h' A x k = get h A x k) →
  (∀ k, 0 ≤ k < n → get h' B k y = get h B k y) →
  product h' A B n x y = product h A B n x y.
Proof.
  intros HA HB. unfold product. f_equal. apply zsum_ext. intros k Hk.
  now rewrite HA, HB.
Qed.

Lemma strassen_mul_spec fuel a b c cutoff h :
  1 ≤ cutoff → (Z.to_nat (sm_dimension c) < fuel)%nat →
  proper (shape h) c = true →
  (ptr c < length h)%nat → (ptr a < length h)%nat → (ptr b < length h)%nat →
  ptr a ≠ ptr c → ptr b ≠ ptr c →
  ∃ h', strassen_mul fuel a b c cutoff h = Some h'
    ∧ shape h' = shape h ++ [Z.to_nat (sm_dimension c * sm_dimension c)]
    ∧ (∀ x y, 0 ≤ x < sm_dimension c → 0 ≤ y < sm_dimension c →
         get h' c x y
         = product h (with_dimension a (sm_dimension c))
             (with_dimension b (sm_dimension c)) (sm_dimension c) x y)
    ∧ (∀ p, (p < length h)%nat → p ≠ ptr c → h' !! p = h !! p).
Proof.
  intros Hc Hf Hp HLc HLa HLb Hac Hbc.
  set (n := sm_dimension c) in *.
  assert (0 ≤ n) as Hn.
  { unfold proper in Hp. repeat (apply andb_prop in Hp as [Hp ?]). lia. }
  unfold strassen_mul. fold n.
  pose proof (alloc_matrix_data_proper n h Hn) as HpS.
  unfold alloc_matrix_data in *. cbn [fst snd] in HpS.
  set (h2 := h ++ [replicate (Z.to_nat (n * n)) 0]) in *.
  set (S := submatrix_of (MatrixData n (length h))) in *.
  assert (shape h2 = shape h ++ [length (replicate (Z.to_nat (n * n)) 0)]) as Hsh2
    by apply shape_app.
  destruct (strassen_mul_recursion_multiplies cutoff fuel Hc n Hf (shape h2)
              (with_dimension a n) (with_dimension b n) c S h2)
    as (h' & E & Hs' & Hprod & Hfr); [|done|].
  { apply layout_intro; try done.
    - rewrite Hsh2, proper_app; [done|now rewrite length_shape].
    - apply sep_ptr. unfold ptr. simpl. unfold ptr in HLc. lia.
    - now apply sep_ptr.
    - apply sep_ptr. unfold ptr in *. simpl. lia.
    - now apply sep_ptr.
    - apply sep_ptr. unfold ptr in *. simpl. lia. }
  exists h'. split; [done|]. split; [|split].
  - rewrite Hs', Hsh2. now rewrite length_replicate.
  - intros x y Hx Hy. rewrite Hprod by done.
    apply product_ext; intros k _; now apply get_app.
  - intros p Hp' Hpc. transitivity (h2 !! p); [|unfold h2; now apply lookup_app_l].
    apply lookup_eq_of_load; [done|]. intros k. apply Hfr.
    + now apply outside_ptr.
    + apply outside_ptr. unfold ptr. simpl. lia.
Qed.

Lemma submatrix_in_bounds_iff sh m x y :
  submatrix_in_bounds sh m x y = true
  ↔ 0 ≤ x + sm_i m ∧ 0 ≤ y + sm_j m
    ∧ (x + sm_i m) + md_dimension (sm_data m) * (y + sm_j m) < vsize sh (ptr m)
    ∧ 0 ≤ x < sm_dimension m ∧ 0 ≤ y < sm_dimension m.
Proof.
  unfold submatrix_in_bounds, matrix_data_in_bounds, ptr.
  rewrite !andb_true_iff, !Z.leb_le, !Z.ltb_lt. lia.
Qed.

Lemma get_whole h p n x y :
  0 ≤ n → vsize (shape h) p = n * n → 0 ≤ x < n → 0 ≤ y < n →
  get h (submatrix_of (MatrixData n p)) x y
  = default 0 (h !! p ≫= λ v, v !! Z.to_nat (x + n * y)).
Proof.
  intros Hn Hs Hx Hy. unfold get, submatrix_at.
  assert (submatrix_in_bounds (shape h) (submatrix_of (MatrixData n p)) x y
          = true) as ->.
  { apply submatrix_in_bounds_iff. unfold ptr. simpl. rewrite Hs. nia. }
  simpl. repeat f_equal; lia.
Qed.

(** Reading an [n × n] buffer through a view whose side was raised to
    [P]: inside the true region the view reads the buffer, and beyond the
    last column it reads 0. *)
Lemma get_raised h p n P x y :
  0 ≤ n → n ≤ P → vsize (shape h) p = n * n → 0 ≤ x < n → 0 ≤ y < P →
  get h (with_dimension (submatrix_of (MatrixData n p)) P) x y
  = if y <? n then get h (submatrix_of (MatrixData n p)) x y else 0.
Proof.
  intros Hn HP Hs Hx Hy. unfold get, submatrix_at.
  destruct (y <? n) eqn:E.
  - apply Z.ltb_lt in E.
    assert (submatrix_in_bounds (shape h) (submatrix_of (MatrixData n p)) x y
            = true) as ->.
    { apply submatrix_in_bounds_iff. unfold ptr. simpl. rewrite Hs. nia. }
    assert (submatrix_in_bounds (shape h)
              (with_dimension (submatrix_of (MatrixData n p)) P) x y
            = true) as ->.
    { apply submatrix_in_bounds_iff. unfold ptr. simpl. rewrite Hs. nia. }
    done.
  - apply Z.ltb_ge in E.
    destruct (submatrix_in_bounds (shape h)
              (with_dimension (submatrix_of (MatrixData n p)) P) x y) eqn:Eb;
      [|done].
    apply submatrix_in_bounds_iff in Eb. unfold ptr in Eb. simpl in Eb.
    rewrite Hs in Eb. nia.
Qed.

Lemma zsum_zero_ext n f : (∀ k, 0 ≤ k < n → f k = 0) → zsum n f = 0.
Proof.
  intros H. rewrite (zsum_ext n f (λ _, 0)) by done. apply zsum_zero.
Qed.

(** Raising the side of both inputs to [P] does not change the true
    region of their product. *)
Lemma product_raised h pa pb n P x y :
  0 ≤ n → n ≤ P →
  vsize (shape h) pa = n * n → vsize (shape h) pb = n * n →
  0 ≤ x < n → 0 ≤ y < n →
  product h (with_dimension (submatrix_of (MatrixData n pa)) P)
    (with_dimension (submatrix_of (MatrixData n pb)) P) P x y
  = product h (submatrix_of (MatrixData n pa)) (submatrix_of (MatrixData n pb))
      n x y.
Proof.
  intros Hn HP Ha Hb Hx Hy. unfold product. f_equal.
  assert (∀ f, zsum P f = zsum n f + zsum (P - n) (λ k, f (n + k))) as ->.
  { intros f. replace P with (n + (P - n)) at 1 by lia. apply zsum_app; lia. }
  rewrite (zsum_zero_ext (P - n)).
  - rewrite Z.add_0_r. apply zsum_ext. intros k Hk.
    rewrite get_raised by (done || lia).
    assert ((k <? n) = true) as -> by lia. f_equal.
    unfold get, submatrix_at.
    assert (submatrix_in_bounds (shape h) (submatrix_of (MatrixData n pb)) k y
            = true) as ->.
    { apply submatrix_in_bounds_iff. unfold ptr. simpl. rewrite Hb. nia. }
    assert (submatrix_in_bounds (shape h)
              (with_dimension (submatrix_of (MatrixData n pb)) P) k y
            = true) as ->.
    { apply submatrix_in_bounds_iff. unfold ptr. simpl. rewrite Hb. nia. }
    done.
  - intros k Hk. rewrite get_raised by (done || lia).
    assert ((n + k <? n) = false) as -> by lia. lia.
Qed.

Lemma product_matrix h pa pb n va vb x y :
  0 ≤ n → h !! pa = Some va → h !! pb = Some vb →
  Z.of_nat (length va) = n * n → Z.of_nat (length vb) = n * n →
  0 ≤ x < n → 0 ≤ y < n →
  product h (submatrix_of (MatrixData n pa)) (submatrix_of (MatrixData n pb))
    n x y
  = matrix_product n va vb x y.
Proof.
  intros Hn Ea Eb La Lb Hx Hy. unfold product, matrix_product. f_equal.
  apply zsum_ext. intros k Hk.
  rewrite !get_whole; try done.
  - now rewrite Ea, Eb.
  - unfold vsize, shape. rewrite list_lookup_fmap, Eb. simpl. done.
  - unfold vsize, shape. rewrite list_lookup_fmap, Ea. simpl. done.
Qed.

(** ** The comparison *)

Lemma matrix_data_get_square h m n x y :
  holds_square (shape h) m n = true → 0 ≤ x < n → 0 ≤ y < n →
  matrix_data_get h m x y = Some (buffer_cell h m x y).
Proof.
  unfold holds_square, matrix_data_get. intros H Hx Hy.
  apply andb_prop in H as [H1 H2]. apply Z.leb_le in H1. apply Z.eqb_eq in H2.
  rewrite H2.
  assert ((0 <=? x + md_dimension m * y)
          && (x + md_dimension m * y <? md_dimension m * md_dimension m) = true)
    as ->; [|done].
  apply andb_true_intro. split; [apply Z.leb_le|apply Z.ltb_lt]; nia.
Qed.

Lemma first_difference_spec h m other cells :
  (∀ x y, (x, y) ∈ cells →
     matrix_data_get h (sm_data m) x y = Some (buffer_cell h (sm_data m) x y)
     ∧ matrix_data_get h (sm_data other) x y
       = Some (buffer_cell h (sm_data other) x y)) →
  ∃ b, first_difference h m other cells = Some b
       ∧ (b = true ↔ ∀ x y, (x, y) ∈ cells →
            buffer_cell h (sm_data m) x y = buffer_cell h (sm_data other) x y).
Proof.
  induction cells as [|[x y] cells IH]; intros Hget.
  - exists true. split; [done|]. split; [|done]. intros _ x y Hin.
    by apply elem_of_nil in Hin.
  - destruct IH as (b & Eb & Hb).
    { intros x' y' Hin. apply Hget. now right. }
    destruct (Hget x y) as [E1 E2]; [by left|].
    cbn [first_difference]. unfold cells_differ. rewrite E1, E2.
    cbn [mbind option_bind].
    destruct (buffer_cell h (sm_data m) x y =? buffer_cell h (sm_data other) x y)
      eqn:E; cbn [negb].
    + apply Z.eqb_eq in E. exists b. split; [done|]. rewrite Hb. split.
      * intros H x' y' Hin. apply elem_of_cons in Hin as [[= -> ->]|Hin];
          [done|now apply H].
      * intros H x' y' Hin. apply H. now right.
    + apply Z.eqb_neq in E. exists false. split; [done|]. split; [done|].
      intros H. exfalso. apply E, H. by left.
Qed.

Lemma elem_of_pairs n x y :
  (x, y) ∈ (x ← seqZ 0 n; y ← seqZ 0 n; [(x, y)]) ↔ 0 ≤ x < n ∧ 0 ≤ y < n.
Proof.
  rewrite list_elem_of_bind. split.
  - intros (x' & Hin & Hx'). apply list_elem_of_bind in Hin as (y' & Hin & Hy').
    apply list_elem_of_singleton in Hin as [= -> ->].
    apply elem_of_seqZ in Hx', Hy'. lia.
  - intros [Hx Hy]. exists x. split; [|apply elem_of_seqZ; lia].
    apply list_elem_of_bind. exists y. split; [by apply list_elem_of_singleton|].
    apply elem_of_seqZ. lia.
Qed.

(** [operator==] on two views of side [n] whose buffers hold the square of
    side [n] at their origin compares those squares, whatever the
    origins of the views are. *)
Lemma submatrix_eq_squares h m other n :
  sm_dimension m = n → sm_dimension other = n →
  holds_square (shape h) (sm_data m) n = true →
  holds_square (shape h) (sm_data other) n = true →
  ∃ b, submatrix_eq h m other = Some b
       ∧ (b = true ↔ ∀ x y, 0 ≤ x < n → 0 ≤ y < n →
            buffer_cell h (sm_data m) x y = buffer_cell h (sm_data other) x y).
Proof.
  intros Hm Ho Sm So. unfold submatrix_eq. rewrite Hm, Ho, Z.eqb_refl.
  cbn [negb].
  destruct (first_difference_spec h m other
              (x ← seqZ 0 n; y ← seqZ 0 n; [(x, y)])) as (b & Eb & Hb).
  { intros x y Hin. apply elem_of_pairs in Hin as [Hx Hy].
    split; now apply (matrix_data_get_square _ _ n). }
  exists b. split; [done|]. rewrite Hb. split.
  - intros H x y Hx Hy. apply H. now apply elem_of_pairs.
  - intros H x y Hin. apply elem_of_pairs in Hin as [Hx Hy]. now apply H.
Qed.

(** A view at the origin reads the cells of its buffer. *)
Lemma get_origin h m n x y :
  sm_i m = 0 → sm_j m = 0 → sm_dimension m = n →
  holds_square (shape h) (sm_data m) n = true → 0 ≤ x < n → 0 ≤ y < n →
  get h m x y = buffer_cell h (sm_data m) x y.
Proof.
  intros Hi Hj Hn Hs Hx Hy. unfold get, submatrix_at, buffer_cell.
  apply andb_prop in Hs as [H1 H2]. apply Z.leb_le in H1. apply Z.eqb_eq in H2.
  assert (submatrix_in_bounds (shape h) m x y = true) as ->.
  { apply submatrix_in_bounds_iff. unfold ptr. rewrite Hi, Hj, Hn, H2. nia. }
  rewrite Hi, Hj. do 3 f_equal; lia.
Qed.

Lemma get_with_dimension h m d x y :
  0 ≤ x < d → 0 ≤ y < d → 0 ≤ x < sm_dimension m → 0 ≤ y < sm_dimension m →
  get h (with_dimension m d) x y = get h m x y.
Proof.
  intros Hx Hy Hx' Hy'. unfold get, submatrix_at.
  destruct (submatrix_in_bounds (shape h) m x y) eqn:E.
  - apply submatrix_in_bounds_iff in E.
    assert (submatrix_in_bounds (shape h) (with_dimension m d) x y = true) as ->;
      [|done].
    apply submatrix_in_bounds_iff. unfold ptr in *. simpl. lia.
  - destruct (submatrix_in_bounds (shape h) (with_dimension m d) x y) eqn:E';
      [|done].
    apply submatrix_in_bounds_iff in E'. unfold ptr in E'. simpl in E'.
    assert (submatrix_in_bounds (shape h) m x y = true); [|congruence].
    apply submatrix_in_bounds_iff. unfold ptr. lia.
Qed.

Lemma vsize_lookup h p v :
  h !! p = Some v → vsize (shape h) p = Z.of_nat (length v).
Proof. intros E. unfold vsize, shape. now rewrite list_lookup_fmap, E. Qed.

(** The linear multiplier on a fresh output buffer computes the product. *)
Lemma linear_mul_fresh h n pa pb va vb :
  0 ≤ n → h !! pa = Some va → h !! pb = Some vb →
  Z.of_nat (length va) = n * n → Z.of_nat (length vb) = n * n →
  let check := fst (alloc_matrix_data n h) in
  let h' := linear_mul (submatrix_of (MatrixData n pa))
              (submatrix_of (MatrixData n pb)) (submatrix_of check)
              (snd (alloc_matrix_data n h)) in
  shape h' = shape h ++ [Z.to_nat (n * n)]
  ∧ (∀ x y, 0 ≤ x < n → 0 ≤ y < n →
       get h' (submatrix_of check) x y = matrix_product n va vb x y)
  ∧ (∀ p k, (p < length h)%nat → load h' (Cell p k) = load h (Cell p k)).
Proof.
  intros Hn Ea Eb La Lb check h'.
  pose proof (alloc_matrix_data_proper n h Hn) as Hp.
  subst check. change (fst (alloc_matrix_data n h)) with (MatrixData n (length h)) in *.
  set (check := MatrixData n (length h)) in *.
  assert (pa < length h)%nat as Hpa by (now apply lookup_lt_Some in Ea).
  assert (pb < length h)%nat as Hpb by (now apply lookup_lt_Some in Eb).
  set (h3 := snd (alloc_matrix_data n h)) in *.
  assert (h3 = h ++ [replicate (Z.to_nat (n * n)) 0]) as Eh3 by done.
  assert (shape h3 = shape h ++ [Z.to_nat (n * n)]) as Hsh3.
  { rewrite Eh3, shape_app. now rewrite length_replicate. }
  assert (ptr (submatrix_of check) = length h) as Hptr by done.
  destruct (linear_mul_spec (shape h3) (submatrix_of (MatrixData n pa))
              (submatrix_of (MatrixData n pb)) (submatrix_of check) h3)
    as (Hs & Hv & Hfr); [done|now apply (proper_buffer (shape h3))
                        |now apply proper_compat| | |].
  { apply sep_ptr. rewrite Hptr. unfold ptr. simpl. lia. }
  { apply sep_ptr. rewrite Hptr. unfold ptr. simpl. lia. }
  fold h' in Hs, Hv, Hfr. split; [congruence|]. split.
  - intros x y Hx Hy. rewrite (get_shape h' (shape h3)) by done.
    rewrite Hv; [|done|done|now apply proper_good].
    assert (get h3 (submatrix_of check) x y = 0) as ->.
    { unfold check. rewrite (get_whole h3 (length h) n x y); try done.
      - rewrite Eh3. simpl.
        rewrite lookup_app_r, Nat.sub_diag by lia. simpl.
        destruct (replicate _ _ !! _) eqn:E; [|done].
        apply lookup_replicate in E as [-> _]. done.
      - rewrite Hsh3. simpl.
        rewrite <- (length_shape h), vsize_app_new. lia. }
    rewrite Z.add_0_l.
    change (sm_dimension (submatrix_of check)) with n.
    fold (product h3 (submatrix_of (MatrixData n pa))
            (submatrix_of (MatrixData n pb)) n x y).
    apply (product_matrix h3); try done.
    + rewrite Eh3. now rewrite lookup_app_l.
    + rewrite Eh3. now rewrite lookup_app_l.
  - intros p k Hp'. rewrite Hfr.
    + rewrite Eh3. now apply load_app_old.
    + intros x y _ _ Heq. apply submatrix_at_ptr in Heq. rewrite Hptr in Heq. lia.
Qed.

Lemma linear_reference_product N va vb x y :
  0 ≤ N → Z.of_nat (length va) = N * N → Z.of_nat (length vb) = N * N →
  0 ≤ x < N → 0 ≤ y < N →
  get (fst (linear_reference N va vb)) (snd (linear_reference N va vb)) x y
  = matrix_product N va vb x y.
Proof.
  intros HN La Lb Hx Hy.
  destruct (linear_mul_fresh [va; vb] N 0 1 va vb) as (_ & H & _); try done.
  now apply H.
Qed.

(** What [main_multiply] leaves in the true region of the output, when the
    padded side is at least the true side and its square is an [int]. *)
Lemma main_multiply_product N cutoff va vb P :
  1 ≤ N → 1 ≤ cutoff →
  Z.of_nat (length va) = N * N → Z.of_nat (length vb) = N * N →
  padding_size N cutoff = Some P → N ≤ P → P * P ≤ int_max →
  ∀ fuel, (Z.to_nat P < fuel)%nat →
  ∃ h, main_multiply fuel N cutoff va vb
       = Some (h, with_dimension (submatrix_of (MatrixData P 2)) N)
    ∧ shape h = [length va; length vb; Z.to_nat (P * P); Z.to_nat (P * P)]
    ∧ h !! 0%nat = Some va ∧ h !! 1%nat = Some vb
    ∧ ∀ x y, 0 ≤ x < N → 0 ≤ y < N →
        get h (with_dimension (submatrix_of (MatrixData P 2)) N) x y
        = matrix_product N va vb x y.
Proof.
  intros HN Hc La Lb EP HP Hfit fuel Hf.
  unfold main_multiply. rewrite EP. cbn [mbind option_bind].
  rewrite new_matrix_data_fits by done. cbn [mbind option_bind].
  unfold alloc_matrix_data. cbn [length].
  set (h1 := [va; vb] ++ [replicate (Z.to_nat (P * P)) 0]).
  destruct (strassen_mul_spec fuel (submatrix_of (MatrixData N 0))
              (submatrix_of (MatrixData N 1)) (submatrix_of (MatrixData P 2))
              cutoff h1) as (h & E & Hs & Hv & Hfr); try done.
  all: try (unfold h1, ptr; simpl; lia).
  { apply (alloc_matrix_data_proper P [va; vb]). lia. }
  rewrite E. cbn [mbind option_bind]. exists h. split; [done|].
  change (sm_dimension (submatrix_of (MatrixData P 2))) with P in *.
  split; [|split; [|split]].
  - rewrite Hs. unfold h1. simpl. now rewrite length_replicate.
  - rewrite Hfr; unfold h1, ptr; simpl; done || lia.
  - rewrite Hfr; unfold h1, ptr; simpl; done || lia.
  - intros x y Hx Hy. rewrite get_with_dimension by (simpl; lia).
    rewrite Hv by lia.
    rewrite (product_raised h1 0 1 N P);
      [|lia|lia|exact La|exact Lb|lia|lia].
    apply (product_matrix h1); done || lia.
Qed.

(** The padding calculator returns; up to dimension 23170 the padded side
    is at least the true side and its square is an [int]; and whenever
    that is so, [main_multiply] returns the product. *)
Lemma main_multiply_padded N cutoff va vb :
  1 ≤ N → 1 ≤ cutoff →
  Z.of_nat (length va) = N * N → Z.of_nat (length vb) = N * N →
  ∃ P, padding_size N cutoff = Some P
    ∧ (N ≤ 23170 → N ≤ P ∧ P * P ≤ int_max)
    ∧ (N ≤ P → P * P ≤ int_max →
       ∀ fuel, (Z.to_nat P < fuel)%nat →
       ∃ h, main_multiply fuel N cutoff va vb
            = Some (h, with_dimension (submatrix_of (MatrixData P 2)) N)
         ∧ shape h = [length va; length vb; Z.to_nat (P * P); Z.to_nat (P * P)]
         ∧ h !! 0%nat = Some va ∧ h !! 1%nat = Some vb
         ∧ ∀ x y, 0 ≤ x < N → 0 ≤ y < N →
             get h (with_dimension (submatrix_of (MatrixData P 2)) N) x y
             = matrix_product N va vb x y).
Proof.
  intros HN Hc La Lb.
  destruct (padding_size_halved N cutoff HN Hc) as (k & EP & Hfin & _ & Hb).
  eexists. split; [exact EP|]. split.
  { intros Hsmall. rewrite int_mul_pow_fits by (unfold int_max; lia).
    split; [lia|]. unfold int_max. nia. }
  intros HP Hfit. now apply main_multiply_product.
Qed.

(** * The claims *)

Lemma padding_size_32769 : padding_size 32769 3 = Some 49152.
Proof. vm_compute. reflexivity. Qed.

(** The square of the padded side 49152 wraps to a negative [int]: the
    constructor of [c_padded] throws. *)
Lemma new_matrix_data_49152 h : new_matrix_data 49152 h = None.
Proof. reflexivity. Qed.

(** At dimension 32769 and cutoff 3 the run of [main] does not return, for
    no matrices and no amount of fuel. *)
Lemma main_multiply_32769 fuel va vb : main_multiply fuel 32769 3 va vb = None.
Proof.
  unfold main_multiply. rewrite padding_size_32769. cbn [mbind option_bind].
  now rewrite new_matrix_data_49152.
Qed.

(** C1 fails at dimension 32769 with cutoff 3: the padded side is 49152,
    and [49152 * 49152] is no [int]. *)
Lemma equals_linear_counterexample : ¬ equals_linear_claim 32769 3.
Proof.
  intros H.
  destruct (H (replicate (Z.to_nat (32769 * 32769)) 0)
              (replicate (Z.to_nat (32769 * 32769)) 0))
    as (P & EP & Hrun).
  - rewrite length_replicate. apply Z2Nat.id. lia.
  - rewrite length_replicate. apply Z2Nat.id. lia.
  - destruct (Hrun (S (Z.to_nat P))) as (h & c & E & _); [lia|].
    now rewrite main_multiply_32769 in E.
Qed.

(** C1, amended.  For every dimension [N >= 1], every cutoff [>= 1] and
    all [N × N] matrices the padding calculator returns a side [P]; when
    [P] is at least [N] and [P * P] is an [int] (as for every [N] up to
    23170), the Strassen multiplier, run by [main] over the padded
    buffers and read back through the view [c] of the true [N × N]
    region, gives cell for cell what the linear multiplier gives on the
    same inputs, and the comparison asserted by [main] holds. *)
Theorem strassen_equals_linear N cutoff va vb :
  1 ≤ N → 1 ≤ cutoff →
  Z.of_nat (length va) = N * N → Z.of_nat (length vb) = N * N →
  ∃ P, padding_size N cutoff = Some P
    ∧ (N ≤ 23170 → N ≤ P ∧ P * P ≤ int_max)
    ∧ (N ≤ P → P * P ≤ int_max →
       ∀ fuel, (Z.to_nat P < fuel)%nat →
       ∃ h c, main_multiply fuel N cutoff va vb = Some (h, c)
         ∧ (∀ x y, 0 ≤ x < N → 0 ≤ y < N →
              get h c x y
              = get (fst (linear_reference N va vb))
                    (snd (linear_reference N va vb)) x y)
         ∧ main_verify N h c = Some true).
Proof.
  intros HN Hc La Lb.
  destruct (main_multiply_padded N cutoff va vb HN Hc La Lb)
    as (P & EP & Hsmall & Hrun).
  exists P. split; [done|]. split; [done|]. intros HP Hfit fuel Hf.
  destruct (Hrun HP Hfit fuel Hf) as (h & E & Hs & Ea & Eb & Hv).
  set (c := with_dimension (submatrix_of (MatrixData P 2)) N) in *.
  exists h, c. split; [done|]. split.
  - intros x y Hx Hy. rewrite Hv by done.
    now rewrite linear_reference_product by (done || lia).
  - unfold main_verify. rewrite new_matrix_data_fits by nia.
    cbn [mbind option_bind].
    destruct (linear_mul_fresh h N 0 1 va vb) as (Hs4 & Hv4 & Hfr4);
      [lia|done..|].
    unfold alloc_matrix_data in *. cbn [fst snd] in Hs4, Hv4, Hfr4.
    set (h4 := linear_mul _ _ _ _) in *.
    assert (length h = 4%nat) as Hlen.
    { rewrite <- length_shape, Hs. done. }
    rewrite Hlen in *.
    destruct (submatrix_eq_squares h4 c (submatrix_of (MatrixData N 4)) N)
      as (b & Eeq & Hb'); [done|done| | |].
    { unfold holds_square, c. simpl. rewrite Hs4, Hs. unfold vsize. simpl.
      apply andb_true_intro. split; [lia|]. apply Z.eqb_eq. nia. }
    { unfold holds_square. simpl. rewrite Hs4, Hs. unfold vsize. simpl.
      apply andb_true_intro. split; [lia|]. apply Z.eqb_eq. nia. }
    rewrite Eeq. f_equal. apply Hb'. intros x y Hx Hy.
    transitivity (matrix_product N va vb x y).
    + unfold buffer_cell. rewrite Hfr4 by (simpl; lia).
      rewrite <- Hv by done. symmetry.
      apply (get_origin h c N); try done.
      unfold holds_square, c. simpl. rewrite Hs. unfold vsize. simpl.
      apply andb_true_intro. split; [lia|]. apply Z.eqb_eq. nia.
    + rewrite <- Hv4 by done.
      apply (get_origin h4 (submatrix_of (MatrixData N 4)) N); try done.
      unfold holds_square. simpl. rewrite Hs4, Hs. unfold vsize. simpl.
      apply andb_true_intro. split; [lia|]. apply Z.eqb_eq. nia.
Qed.

Lemma strassen_equals_linear_witness :
  1 ≤ 2 ∧ 1 ≤ 1
  ∧ Z.of_nat (length [1; 3; 2; 4]) = 2 * 2
  ∧ Z.of_nat (length [5; 7; 6; 8]) = 2 * 2
  ∧ ∃ P, padding_size 2 1 = Some P
      ∧ (2 ≤ 23170 → 2 ≤ P ∧ P * P ≤ int_max)
      ∧ (2 ≤ P → P * P ≤ int_max →
         ∀ fuel, (Z.to_nat P < fuel)%nat →
         ∃ h c, main_multiply fuel 2 1 [1; 3; 2; 4] [5; 7; 6; 8] = Some (h, c)
           ∧ (∀ x y, 0 ≤ x < 2 → 0 ≤ y < 2 →
                get h c x y
                = get (fst (linear_reference 2 [1; 3; 2; 4] [5; 7; 6; 8]))
                      (snd (linear_reference 2 [1; 3; 2; 4] [5; 7; 6; 8])) x y)
           ∧ main_verify 2 h c = Some true).
Proof.
  split; [lia|]. split; [lia|]. split; [reflexivity|]. split; [reflexivity|].
  apply (strassen_equals_linear 2 1 [1; 3; 2; 4] [5; 7; 6; 8]);
    [lia|lia|reflexivity|reflexivity].
Defined.

(** The scenario of the specification: A = [[1,2],[3,4]], B = [[5,6],[7,8]],
    cutoff 1.  [at(i, j)] is cell [i + 2 * j] of the vector. *)
Example strassen_scenario :
  ∃ h c, main_multiply 3 2 1 [1; 3; 2; 4] [5; 7; 6; 8] = Some (h, c)
    ∧ get h c 0 0 = 19 ∧ get h c 0 1 = 22
    ∧ get h c 1 0 = 43 ∧ get h c 1 1 = 50.
Proof. eexists _, _. split; [vm_compute; reflexivity|]. by vm_compute. Qed.

(** From [2 ^ 30 + 1] thirty-one halvings lead to 1, and [1 << 31] is the
    least [int]. *)
Lemma padding_size_overflow : padding_size 1073741825 1 = Some (- 2147483648).
Proof.
  destruct (padding_size_halved 1073741825 1) as (k & E & Hfin & _ & Hb);
    [lia..|].
  assert (Nat.iter k ceil_half 1073741825 = 1) as Hone by lia.
  rewrite Hone, Z.mul_1_l in Hb.
  assert (k = 31%nat) as ->.
  { destruct (lt_eq_lt_dec k 31) as [[Hlt|Heq]|Hgt]; [exfalso|done|exfalso].
    - pose proof (Z.pow_le_mono_r 2 (Z.of_nat k) 30 ltac:(lia) ltac:(lia)).
      lia.
    - pose proof (Z.pow_le_mono_r 2 32 (Z.of_nat k) ltac:(lia) ltac:(lia)).
      lia. }
  rewrite E, Hone. reflexivity.
Qed.

(** C3 fails at dimension [2 ^ 30 + 1] with cutoff 1: the code returns the
    least [int], where [final * 2 ^ k] is at least the dimension. *)
Lemma halvings_counterexample : ¬ halvings_claim 1073741825 1.
Proof.
  intros (k & E & _). rewrite padding_size_overflow in E.
  injection E as E. pose proof (halved_covers k 1073741825). lia.
Qed.

(** C3, amended.  For [N >= 1] and a cutoff [C >= 1] let [k] be the
    number of ceiling-halvings that bring [N] down to a value
    [final <= C].  When [final * 2 ^ k] is an [int], as it is for every
    [N] up to [2 ^ 30], the padding calculator returns it; it returns [N]
    when [N <= C] is an [int], and 8 for N = 5, C = 2. *)
Theorem padding_size_halvings N C :
  1 ≤ N → 1 ≤ C →
  (∃ k : nat,
     Nat.iter k ceil_half N ≤ C
     ∧ (∀ k' : nat, (k' < k)%nat → C < Nat.iter k' ceil_half N)
     ∧ (Nat.iter k ceil_half N * 2 ^ Z.of_nat k ≤ int_max →
        padding_size N C = Some (Nat.iter k ceil_half N * 2 ^ Z.of_nat k))
     ∧ (N ≤ 2 ^ 30 → Nat.iter k ceil_half N * 2 ^ Z.of_nat k ≤ int_max))
  ∧ (N ≤ C → N ≤ int_max → padding_size N C = Some N)
  ∧ padding_size 5 2 = Some 8.
Proof.
  intros HN HC. split; [|split; [|reflexivity]].
  - destruct (padding_size_halved N C HN HC) as (k & E & Hfin & Hmin & Hb).
    exists k. split; [lia|]. split; [done|]. split.
    + intros Hfit. rewrite E. f_equal. apply int_mul_pow_fits; lia.
    + intros Hsmall. unfold int_max. lia.
  - intros Hle Hint. unfold padding_size, int_max in *.
    assert (∀ fuel, padding_size_loop fuel N C 0 = Some N) as H; [|apply H].
    intros fuel. destruct fuel; cbn [padding_size_loop];
      (assert ((C <? N) = false) as -> by lia);
      rewrite Z.shiftl_1_l; unfold int_mul;
      rewrite (wrap_small (2 ^ 0)) by (simpl; lia);
      f_equal; rewrite wrap_small; simpl; lia.
Qed.

Lemma padding_size_halvings_witness :
  1 ≤ 5 ∧ 1 ≤ 2
  ∧ (∃ k : nat,
       Nat.iter k ceil_half 5 ≤ 2
       ∧ (∀ k' : nat, (k' < k)%nat → 2 < Nat.iter k' ceil_half 5)
       ∧ (Nat.iter k ceil_half 5 * 2 ^ Z.of_nat k ≤ int_max →
          padding_size 5 2 = Some (Nat.iter k ceil_half 5 * 2 ^ Z.of_nat k))
       ∧ (5 ≤ 2 ^ 30 → Nat.iter k ceil_half 5 * 2 ^ Z.of_nat k ≤ int_max))
  ∧ (5 ≤ 2 → 5 ≤ int_max → padding_size 5 2 = Some 5)
  ∧ padding_size 5 2 = Some 8.
Proof.
  split; [lia|]. split; [lia|]. apply (padding_size_halvings 5 2); lia.
Defined.




(** A view of side 1 at the origin of a 2 × 2 buffer: the cell (1, 0) is
    inside the buffer but outside the view, and reads 0. *)
Lemma access_claim_counterexample :
  ¬ access_claim [[1; 5; 2; 3]] (Submatrix (MatrixData 2 0) 0 0 1) 1 0 9.
Proof.
  intros [H _]. destruct H as [H _]; [simpl; lia|]. vm_compute in H. done.
Qed.

(** C2, amended.  Over a buffer of dimension [D] holding [D * D] integers:
    when [(x, y)] is inside the side of the view and
    [(origin_row + x, origin_col + y)] is inside [[0, D) × [0, D)], a read
    returns that buffer cell and a write updates it and no other cell; when
    [(x, y)] is outside the side of the view, or a coordinate of the
    buffer cell is negative, or its column is not below [D], the read
    returns 0 and the write changes nothing. *)
Theorem view_access (h : heap) (m : submatrix) (x y v : Z) :
  let X := sm_i m + x in
  let Y := sm_j m + y in
  let D := md_dimension (sm_data m) in
  0 ≤ D → vsize (shape h) (ptr m) = D * D →
  (0 ≤ x < sm_dimension m ∧ 0 ≤ y < sm_dimension m
   ∧ 0 ≤ X < D ∧ 0 ≤ Y < D →
     get h m x y = buffer_cell h (sm_data m) X Y
     ∧ buffer_cell (set h m x y v) (sm_data m) X Y = v
     ∧ ∀ r, r ≠ Cell (ptr m) (Z.to_nat (X + D * Y)) →
         load (set h m x y v) r = load h r)
  ∧ (¬ (0 ≤ x < sm_dimension m ∧ 0 ≤ y < sm_dimension m)
     ∨ X < 0 ∨ Y < 0 ∨ D ≤ Y →
     get h m x y = 0 ∧ set h m x y v = h).
Proof.
  intros X Y D HD Hs. split.
  - intros (Hx & Hy & HX & HY).
    assert (submatrix_in_bounds (shape h) m x y = true) as Hb.
    { apply submatrix_in_bounds_iff. rewrite Hs. subst X Y D. nia. }
    assert (submatrix_at (shape h) m x y
            = Cell (ptr m) (Z.to_nat (X + D * Y))) as Hat.
    { unfold submatrix_at. rewrite Hb. unfold ptr. subst X Y D.
      do 2 f_equal. lia. }
    unfold get, set, buffer_cell. rewrite Hat. unfold ptr in *.
    split; [done|]. split.
    + apply load_store_same. rewrite Hs. subst X Y D. rewrite Z2Nat.id; nia.
    + intros r Hr. now apply load_store_other.
  - intros Hout.
    assert (submatrix_in_bounds (shape h) m x y = false) as Hb.
    { destruct (submatrix_in_bounds (shape h) m x y) eqn:E; [|done].
      apply submatrix_in_bounds_iff in E. rewrite Hs in E. subst X Y D. nia. }
    unfold get, set, submatrix_at. now rewrite Hb.
Qed.

Lemma view_access_witness :
  let h := [[1; 5; 2; 3]] in
  let m := Submatrix (MatrixData 2 0) 1 0 1 in
  0 ≤ md_dimension (sm_data m)
  ∧ vsize (shape h) (ptr m) = md_dimension (sm_data m) * md_dimension (sm_data m)
  ∧ (0 ≤ 0 < sm_dimension m ∧ 0 ≤ 0 < sm_dimension m
     ∧ 0 ≤ sm_i m + 0 < md_dimension (sm_data m)
     ∧ 0 ≤ sm_j m + 0 < md_dimension (sm_data m) →
       get h m 0 0 = buffer_cell h (sm_data m) (sm_i m + 0) (sm_j m + 0)
       ∧ buffer_cell (set h m 0 0 9) (sm_data m) (sm_i m + 0) (sm_j m + 0) = 9
       ∧ ∀ r, r ≠ Cell (ptr m)
                    (Z.to_nat (sm_i m + 0 + md_dimension (sm_data m) * (sm_j m + 0))) →
           load (set h m 0 0 9) r = load h r)
  ∧ (¬ (0 ≤ 0 < sm_dimension m ∧ 0 ≤ 0 < sm_dimension m)
     ∨ sm_i m + 0 < 0 ∨ sm_j m + 0 < 0 ∨ md_dimension (sm_data m) ≤ sm_j m + 0 →
       get h m 0 0 = 0 ∧ set h m 0 0 9 = h).
Proof.
  intros h m. split; [simpl; lia|]. split; [reflexivity|].
  apply (view_access h m 0 0 9); [simpl; lia|reflexivity].
Defined.

(** When the output view is also the first input, the rounds read what
    earlier rounds have written. *)
Lemma accumulates_counterexample :
  let m := submatrix_of (MatrixData 2 0) in
  ¬ accumulates [[1; 1; 1; 1]; [1; 1; 1; 1]] m (submatrix_of (MatrixData 2 1)) m.
Proof.
  intros m H.
  assert (0 ≤ 0 < sm_dimension m) as Hr by (simpl; lia).
  specialize (H 0 0 Hr Hr). vm_compute in H. done.
Qed.

(** C5, amended.  For every pre-state of an output view [C] of side [n]
    that lies inside its buffer, and all input views [A], [B] that share
    no cell with [C], after the linear multiplier each cell holds
    [C_before(i,j) + sum over k of A(i,k) * B(k,j)] in 32-bit wrap-around
    arithmetic; hence the product when [C] is all zero beforehand. *)
Theorem linear_mul_accumulates (h : heap) (a b c : submatrix) :
  proper (shape h) c = true →
  disjoint (shape h) a c = true → disjoint (shape h) b c = true →
  accumulates h a b c
  ∧ ((∀ i j, 0 ≤ i < sm_dimension c → 0 ≤ j < sm_dimension c →
        get h c i j = 0) →
     ∀ i j, 0 ≤ i < sm_dimension c → 0 ≤ j < sm_dimension c →
       get (linear_mul a b c h) c i j = product h a b (sm_dimension c) i j).
Proof.
  intros Hp Ha Hb.
  pose proof (linear_mul_spec (shape h) a b c h eq_refl
                (proper_buffer _ _ Hp) (proper_compat _ _ Hp)
                (disjoint_sep _ _ _ Ha) (disjoint_sep _ _ _ Hb)) as Hw.
  assert (accumulates h a b c) as Hacc.
  { intros i j Hi Hj.
    now rewrite (written_get _ _ _ _ _ _ _ Hw (proper_good _ _ Hp)). }
  split; [done|]. intros Hz i j Hi Hj. rewrite Hacc, Hz by done.
  now rewrite Z.add_0_l.
Qed.

Lemma linear_mul_accumulates_witness :
  let h := [[1; 3; 2; 4]; [5; 7; 6; 8]; [10; 20; 30; 40]] in
  let a := submatrix_of (MatrixData 2 0) in
  let b := submatrix_of (MatrixData 2 1) in
  let c := submatrix_of (MatrixData 2 2) in
  proper (shape h) c = true
  ∧ disjoint (shape h) a c = true ∧ disjoint (shape h) b c = true
  ∧ accumulates h a b c
  ∧ ((∀ i j, 0 ≤ i < sm_dimension c → 0 ≤ j < sm_dimension c →
        get h c i j = 0) →
     ∀ i j, 0 ≤ i < sm_dimension c → 0 ≤ j < sm_dimension c →
       get (linear_mul a b c h) c i j = product h a b (sm_dimension c) i j).
Proof.
  intros h a b c. split; [reflexivity|]. split; [reflexivity|].
  split; [reflexivity|].
  apply (linear_mul_accumulates h a b c); reflexivity.
Defined.

(** C6.  For a view of side [n], [sub(qx, qy)] is the view over the same
    buffer whose side is the ceiling of [n / 2] and whose origin is the
    origin of the parent shifted by that side times [(qx, qy)]; every cell
    of the parent, odd side included, is a cell of one of the four
    quadrants. *)
Theorem sub_quadrants (sh : list nat) (m : submatrix) (qx qy : Z) :
  0 ≤ sm_dimension m →
  let half := (sm_dimension m + 1) `div` 2 in
  sm_dimension (submatrix_sub m qx qy) = half
  ∧ sm_i (submatrix_sub m qx qy) = sm_i m + qx * half
  ∧ sm_j (submatrix_sub m qx qy) = sm_j m + qy * half
  ∧ sm_data (submatrix_sub m qx qy) = sm_data m
  ∧ ∀ x y, 0 ≤ x < sm_dimension m → 0 ≤ y < sm_dimension m →
      ∃ px py x' y',
        (px = 0 ∨ px = 1) ∧ (py = 0 ∨ py = 1)
        ∧ 0 ≤ x' < half ∧ 0 ≤ y' < half
        ∧ x = px * half + x' ∧ y = py * half + y'
        ∧ submatrix_at sh (submatrix_sub m px py) x' y' = submatrix_at sh m x y.
Proof.
  intros Hn half.
  assert (ceil_divide (sm_dimension m) = half) as Hc
    by now apply ceil_divide_ceiling.
  unfold submatrix_sub. simpl. rewrite Hc. repeat (split; [done|]).
  intros x y Hx Hy.
  assert (sm_dimension m ≤ 2 * half) as Hh by apply ceil_half_double.
  assert (∀ z, 0 ≤ z < sm_dimension m →
            ∃ p z', (p = 0 ∨ p = 1) ∧ 0 ≤ z' < half ∧ z = p * half + z') as Hsplit.
  { intros z Hz. destruct (Z.lt_ge_cases z half).
    - exists 0, z. lia.
    - exists 1, (z - half). lia. }
  destruct (Hsplit x Hx) as (px & x' & Hpx & Hx' & ->).
  destruct (Hsplit y Hy) as (py & y' & Hpy & Hy' & ->).
  exists px, py, x', y'. repeat (split; [done|]).
  unfold submatrix_at.
  set (q := Submatrix (sm_data m) (sm_i m + px * half) (sm_j m + py * half) half).
  assert (submatrix_in_bounds sh q x' y'
          = submatrix_in_bounds sh m (px * half + x') (py * half + y')) as ->.
  { apply eq_true_iff_eq. rewrite !submatrix_in_bounds_iff.
    unfold q, ptr. simpl.
    replace (x' + (sm_i m + px * half)) with (px * half + x' + sm_i m) by lia.
    replace (y' + (sm_j m + py * half)) with (py * half + y' + sm_j m) by lia.
    lia. }
  destruct (submatrix_in_bounds sh m _ _); [|done]. unfold q. simpl.
  do 2 f_equal. lia.
Qed.

Lemma sub_quadrants_witness :
  let m := Submatrix (MatrixData 8 0) 1 2 5 in
  0 ≤ sm_dimension m
  ∧ sm_dimension (submatrix_sub m 1 0) = (sm_dimension m + 1) `div` 2
  ∧ sm_i (submatrix_sub m 1 0) = sm_i m + 1 * ((sm_dimension m + 1) `div` 2)
  ∧ sm_j (submatrix_sub m 1 0) = sm_j m + 0 * ((sm_dimension m + 1) `div` 2)
  ∧ sm_data (submatrix_sub m 1 0) = sm_data m
  ∧ ∀ x y, 0 ≤ x < sm_dimension m → 0 ≤ y < sm_dimension m →
      ∃ px py x' y',
        (px = 0 ∨ px = 1) ∧ (py = 0 ∨ py = 1)
        ∧ 0 ≤ x' < (sm_dimension m + 1) `div` 2
        ∧ 0 ≤ y' < (sm_dimension m + 1) `div` 2
        ∧ x = px * ((sm_dimension m + 1) `div` 2) + x'
        ∧ y = py * ((sm_dimension m + 1) `div` 2) + y'
        ∧ submatrix_at [64%nat] (submatrix_sub m px py) x' y'
          = submatrix_at [64%nat] m x y.
Proof.
  intros m. split; [simpl; lia|].
  apply (sub_quadrants [64%nat] m 1 0). simpl. lia.
Defined.

Lemma get_same_vector h1 h2 m x y :
  shape h1 = shape h2 → h1 !! ptr m = h2 !! ptr m →
  get h1 m x y = get h2 m x y.
Proof.
  intros Hs Hv. unfold get. rewrite Hs.
  destruct (submatrix_at (shape h2) m x y) as [p k|] eqn:E; [|done].
  apply submatrix_at_ptr in E as ->. simpl. now rewrite Hv.
Qed.

(** C7.  Two runs of the recursive multiply on heaps of the same shape
    that hold the same vectors for [A] and for [B], whatever the output
    buffer and the scratch arena hold, leave the same cells in [C]. *)
Theorem strassen_result_independent cutoff fuel (A B C S : submatrix)
    (h1 h2 : heap) :
  1 ≤ cutoff → (Z.to_nat (sm_dimension C) < fuel)%nat →
  sm_dimension A = sm_dimension C → sm_dimension B = sm_dimension C →
  sm_dimension S = sm_dimension C →
  proper (shape h1) C = true → proper (shape h1) S = true →
  disjoint (shape h1) C S = true →
  disjoint (shape h1) A C = true → disjoint (shape h1) A S = true →
  disjoint (shape h1) B C = true → disjoint (shape h1) B S = true →
  shape h2 = shape h1 →
  h1 !! ptr A = h2 !! ptr A → h1 !! ptr B = h2 !! ptr B →
  ∃ r1 r2,
    strassen_mul_recursion cutoff fuel A B C S h1 = Some r1
    ∧ strassen_mul_recursion cutoff fuel A B C S h2 = Some r2
    ∧ ∀ x y, 0 ≤ x < sm_dimension C → 0 ≤ y < sm_dimension C →
        get r1 C x y = get r2 C x y.
Proof.
  intros Hc Hf HA HB HS HpC HpS HCS HAC HAS HBC HBS Hsh EA EB.
  assert (layout (shape h1) (sm_dimension C) A B C S) as L.
  { apply layout_intro; try done; now apply disjoint_sep. }
  destruct (strassen_mul_recursion_multiplies cutoff fuel Hc _ Hf
              (shape h1) A B C S h1 L eq_refl) as (r1 & E1 & _ & Hp1 & _).
  destruct (strassen_mul_recursion_multiplies cutoff fuel Hc _ Hf
              (shape h1) A B C S h2 L Hsh) as (r2 & E2 & _ & Hp2 & _).
  exists r1, r2. split; [done|]. split; [done|]. intros x y Hx Hy.
  rewrite Hp1, Hp2 by done. apply product_ext; intros k _.
  - now apply get_same_vector.
  - now apply get_same_vector.
Qed.

Lemma strassen_result_independent_witness :
  let A := submatrix_of (MatrixData 2 0) in
  let B := submatrix_of (MatrixData 2 1) in
  let C := submatrix_of (MatrixData 2 2) in
  let S := submatrix_of (MatrixData 2 3) in
  let h1 := [[1; 3; 2; 4]; [5; 7; 6; 8]; [0; 0; 0; 0]; [0; 0; 0; 0]] in
  let h2 := [[1; 3; 2; 4]; [5; 7; 6; 8]; [9; 9; 9; 9]; [-1; 7; 7; 3]] in
  ∃ r1 r2,
    strassen_mul_recursion 1 3 A B C S h1 = Some r1
    ∧ strassen_mul_recursion 1 3 A B C S h2 = Some r2
    ∧ ∀ x y, 0 ≤ x < sm_dimension C → 0 ≤ y < sm_dimension C →
        get r1 C x y = get r2 C x y.
Proof.
  intros A B C S h1 h2.
  apply (strassen_result_independent 1 3 A B C S h1 h2);
    first [reflexivity | simpl; lia].
Defined.

(** C8.  The Strassen multiplier leaves the buffers of its inputs, and
    every buffer but the output buffer, as they were. *)
Theorem strassen_mul_inputs_unchanged fuel (a b c : submatrix) cutoff (h : heap) :
  1 ≤ cutoff → (Z.to_nat (sm_dimension c) < fuel)%nat →
  (ptr a < length h)%nat → (ptr b < length h)%nat →
  ptr a ≠ ptr c → ptr b ≠ ptr c →
  ∃ h', strassen_mul fuel a b c cutoff h = Some h'
    ∧ h' !! ptr a = h !! ptr a ∧ h' !! ptr b = h !! ptr b
    ∧ ∀ p, (p < length h)%nat → p ≠ ptr c → h' !! p = h !! p.
Proof.
  intros Hc Hf Ha Hb Hac Hbc. unfold strassen_mul, alloc_matrix_data.
  destruct (strassen_mul_recursion_total cutoff fuel Hc
              (with_dimension a (sm_dimension c))
              (with_dimension b (sm_dimension c)) c
              (submatrix_of (MatrixData (sm_dimension c) (length h)))
              (h ++ [replicate (Z.to_nat (sm_dimension c * sm_dimension c)) 0]))
    as (h' & E & _ & Hfr); [done|done|].
  exists h'. split; [done|].
  assert (∀ p, (p < length h)%nat → p ≠ ptr c → h' !! p = h !! p) as Hall.
  { intros p Hp Hpc. rewrite Hfr; [now apply lookup_app_l|done|].
    unfold ptr. simpl. lia. }
  split; [now apply Hall|]. split; [now apply Hall|done].
Qed.

Lemma strassen_mul_inputs_unchanged_witness :
  let a := submatrix_of (MatrixData 2 0) in
  let b := submatrix_of (MatrixData 2 1) in
  let c := submatrix_of (MatrixData 2 2) in
  let h := [[1; 3; 2; 4]; [5; 7; 6; 8]; [0; 0; 0; 0]] in
  ∃ h', strassen_mul 3 a b c 1 h = Some h'
    ∧ h' !! ptr a = h !! ptr a ∧ h' !! ptr b = h !! ptr b
    ∧ ∀ p, (p < length h)%nat → p ≠ ptr c → h' !! p = h !! p.
Proof.
  intros a b c h.
  apply (strassen_mul_inputs_unchanged 3 a b c 1 h);
    first [simpl; lia | vm_compute; lia].
Defined.

(** C9.  With a cutoff of at least 1 the recursive multiply returns: a call
    that decomposes has an even side [n >= 2]; it calls itself only on the
    product slot and the recursive scratch, both of side [n / 2], which
    is at least 1 and less than [n]; so the recursion, and
    [strassen_mul] with it, ends in the linear multiplier. *)
Theorem strassen_mul_terminates cutoff :
  1 ≤ cutoff →
  (∀ C S, strassen_branch cutoff C = Decompose →
     sm_dimension S = sm_dimension C →
     1 ≤ ceil_divide (sm_dimension C) < sm_dimension C
     ∧ sm_dimension (submatrix_sub S 0 0) = ceil_divide (sm_dimension C)
     ∧ sm_dimension (submatrix_sub S 0 1) = ceil_divide (sm_dimension C))
  ∧ (∀ self self' A B C S h,
       (∀ X Y g, self X Y (submatrix_sub S 0 0) (submatrix_sub S 0 1) g
                 = self' X Y (submatrix_sub S 0 0) (submatrix_sub S 0 1) g) →
       strassen_decompose self A B C S h = strassen_decompose self' A B C S h)
  ∧ (∀ fuel A B C S h,
       sm_dimension S = sm_dimension C →
       (Z.to_nat (sm_dimension C) < fuel)%nat →
       ∃ h', strassen_mul_recursion cutoff fuel A B C S h = Some h')
  ∧ (∀ fuel a b c h,
       (Z.to_nat (sm_dimension c) < fuel)%nat →
       ∃ h', strassen_mul fuel a b c cutoff h = Some h').
Proof.
  intros Hc. split; [|split; [|split]].
  - intros C S Hbr HS. unfold strassen_branch in Hbr.
    destruct (Z.rem (sm_dimension C) 2 =? 1) eqn:E1; [done|].
    destruct (sm_dimension C <=? cutoff) eqn:E2; [done|].
    simpl in Hbr. simpl. rewrite HS.
    destruct (ceil_divide_decreases (sm_dimension C) cutoff) as [? _];
      [lia|lia|lia|done].
  - intros. now apply strassen_decompose_calls.
  - intros fuel A B C S h HS Hf.
    destruct (strassen_mul_recursion_total cutoff fuel Hc A B C S h HS Hf)
      as (h' & E & _). now exists h'.
  - intros fuel a b c h Hf. unfold strassen_mul, alloc_matrix_data.
    destruct (strassen_mul_recursion_total cutoff fuel Hc
                (with_dimension a (sm_dimension c))
                (with_dimension b (sm_dimension c)) c
                (submatrix_of (MatrixData (sm_dimension c) (length h)))
                (h ++ [replicate (Z.to_nat (sm_dimension c * sm_dimension c)) 0]))
      as (h' & E & _); [done|done|]. now exists h'.
Qed.

Lemma strassen_mul_terminates_witness :
  1 ≤ 1
  ∧ ∀ fuel a b c h,
      (Z.to_nat (sm_dimension c) < fuel)%nat →
      ∃ h', strassen_mul fuel a b c 1 h = Some h'.
Proof.
  split; [lia|]. apply (strassen_mul_terminates 1). lia.
Defined.

(** C10, at the failing input.  Two views of side 1 at the origin (1, 1)
    of two 2 × 2 buffers: their only cells hold 5 and 7, and [operator==]
    compares the cells (0, 0) of the buffers and answers [true]. *)
Theorem submatrix_eq_ignores_origin :
  let h := [[0; 0; 0; 5]; [0; 0; 0; 7]] in
  let m := submatrix_sub (submatrix_of (MatrixData 2 0)) 1 1 in
  let other := submatrix_sub (submatrix_of (MatrixData 2 1)) 1 1 in
  sm_dimension m = 1 ∧ sm_dimension other = 1
  ∧ get h m 0 0 = 5 ∧ get h other 0 0 = 7
  ∧ submatrix_eq h m other = Some true.
Proof. by vm_compute. Qed.

(** * Further properties of the code *)

(** X1.  For a dimension and a cutoff of at least 1 the padding calculator
    returns an [int]; for a dimension up to [2 ^ 30], where nothing wraps
    around, the padded dimension is at least the true dimension and less
    than twice it. *)
Theorem padding_size_bounds N C :
  1 ≤ N → 1 ≤ C →
  ∃ P, padding_size N C = Some P
    ∧ - 2 ^ 31 ≤ P ≤ int_max
    ∧ (N ≤ 2 ^ 30 → N ≤ P < 2 * N).
Proof.
  intros HN HC.
  destruct (padding_size_halved N C HN HC) as (k & E & Hfin & _ & Hb).
  eexists. split; [exact E|]. split.
  - unfold int_mul, int_max. pose proof (wrap_range
      (Nat.iter k ceil_half N * wrap (2 ^ Z.of_nat k))). lia.
  - intros Hsmall. rewrite int_mul_pow_fits by (unfold int_max; lia). lia.
Qed.

Lemma padding_size_bounds_witness :
  1 ≤ 5 ∧ 1 ≤ 2
  ∧ ∃ P, padding_size 5 2 = Some P
      ∧ - 2 ^ 31 ≤ P ≤ int_max
      ∧ (5 ≤ 2 ^ 30 → 5 ≤ P < 2 * 5).
Proof. split; [lia|]. split; [lia|]. apply (padding_size_bounds 5 2); lia. Defined.

Lemma ceil_divide_lower x : x ≤ 0 → x ≤ ceil_divide x.
Proof.
  intros Hx. unfold ceil_divide.
  pose proof (Z.quot_rem' x 2) as Hq.
  destruct (Z.eq_dec x 0) as [->|Hne]; [done|].
  pose proof (Z.rem_bound_pos_neg x 2 ltac:(lia) Hx) as Hr.
  destruct (Z.rem x 2 =? 0) eqn:E;
    [apply Z.eqb_eq in E|apply Z.eqb_neq in E]; lia.
Qed.

Lemma padding_size_loop_diverges fuel d cutoff p :
  cutoff ≤ 0 → cutoff < d → padding_size_loop fuel d cutoff p = None.
Proof.
  intros Hc. revert d p. induction fuel as [|fuel IH]; intros d p Hd;
    cbn [padding_size_loop]; (assert ((cutoff <? d) = true) as -> by lia);
    [done|].
  apply IH. destruct (Z.le_gt_cases d 0) as [Hle|Hgt].
  - pose proof (ceil_divide_lower d Hle). lia.
  - rewrite ceil_divide_ceiling by lia.
    pose proof (Z.div_mod (d + 1) 2). pose proof (Z.mod_pos_bound (d + 1) 2).
    lia.
Qed.

(** X2.  With a cutoff below 1 the loop of [padding_size] never ends on a
    dimension above the cutoff: ceiling-halving stops at 1 (or at 0), which
    stays above the cutoff, so no amount of fuel gives a result. *)
Theorem padding_size_diverges d cutoff :
  cutoff ≤ 0 → cutoff < d →
  padding_size d cutoff = None
  ∧ ∀ fuel p, padding_size_loop fuel d cutoff p = None.
Proof.
  intros Hc Hd. split; [|intros]; now apply padding_size_loop_diverges.
Qed.

Lemma padding_size_diverges_witness :
  0 ≤ 0 ∧ 0 < 3
  ∧ padding_size 3 0 = None
  ∧ ∀ fuel p, padding_size_loop fuel 3 0 p = None.
Proof. split; [lia|]. split; [lia|]. apply (padding_size_diverges 3 0); lia. Defined.

Lemma iter_add {A} (f : A → A) (j k : nat) (x : A) :
  Nat.iter (j + k) f x = Nat.iter k f (Nat.iter j f x).
Proof.
  revert x. induction j as [|j IH]; intros x; [done|].
  cbn [Nat.add]. rewrite Nat.iter_succ_r, IH. now rewrite <- Nat.iter_succ_r.
Qed.

(** X3.  What the padding is for: on the padded dimension [P = final * 2^k]
    of a dimension up to [2 ^ 30] the recursion decomposes [k] times, each
    time on an even side above the cutoff whose half is the next side,
    and then reaches the side [final], which it hands to the linear
    multiplier; it never meets an odd side above the cutoff. *)
Theorem padded_recursion_levels N C :
  1 ≤ N ≤ 2 ^ 30 → 1 ≤ C →
  ∃ (k : nat) (final : Z),
    padding_size N C = Some (final * 2 ^ Z.of_nat k)
    ∧ 1 ≤ final ≤ C
    ∧ (∀ (j : nat) (V : submatrix), (j < k)%nat →
         sm_dimension V = final * 2 ^ Z.of_nat (k - j) →
         strassen_branch C V = Decompose
         ∧ ceil_divide (sm_dimension V) = final * 2 ^ Z.of_nat (k - S j))
    ∧ (∀ V, sm_dimension V = final → strassen_branch C V = Delegate).
Proof.
  intros HN HC.
  destruct (padding_size_halved N C) as (k & E & Hfin & Hgt & Hb); [lia..|].
  rewrite int_mul_pow_fits in E by (unfold int_max; lia).
  exists k, (Nat.iter k ceil_half N).
  split; [done|]. split; [done|]. split.
  - intros j V Hj HV.
    set (final := Nat.iter k ceil_half N) in *.
    assert (0 < 2 ^ Z.of_nat (k - S j)) as Hp by (apply Z.pow_pos_nonneg; lia).
    assert (2 ^ Z.of_nat (k - j) = 2 * 2 ^ Z.of_nat (k - S j)) as Hpow.
    { replace (Z.of_nat (k - j)) with (Z.of_nat (k - S j) + 1) by lia.
      rewrite Z.pow_add_r, Z.pow_1_r by lia. lia. }
    assert (C < sm_dimension V) as Hbig.
    { specialize (Hgt j Hj).
      pose proof (halved_covers (k - j) (Nat.iter j ceil_half N)) as Hcov.
      rewrite <- iter_add in Hcov. replace (j + (k - j))%nat with k in Hcov by lia.
      fold final in Hcov. lia. }
    assert (sm_dimension V = 2 * (final * 2 ^ Z.of_nat (k - S j))) as Heven
      by (rewrite HV, Hpow; lia).
    split.
    + unfold strassen_branch. rewrite Heven at 1.
      rewrite (Z.mul_comm 2), Z.rem_mul by lia. simpl.
      now assert ((sm_dimension V <=? C) = false) as -> by lia.
    + rewrite Heven. apply ceil_divide_even.
  - intros V HV. apply strassen_branch_delegate. right. lia.
Qed.

Lemma padded_recursion_levels_witness :
  1 ≤ 5 ≤ 2 ^ 30 ∧ 1 ≤ 2 ∧
  ∃ (k : nat) (final : Z),
    padding_size 5 2 = Some (final * 2 ^ Z.of_nat k)
    ∧ 1 ≤ final ≤ 2
    ∧ (∀ (j : nat) (V : submatrix), (j < k)%nat →
         sm_dimension V = final * 2 ^ Z.of_nat (k - j) →
         strassen_branch 2 V = Decompose
         ∧ ceil_divide (sm_dimension V) = final * 2 ^ Z.of_nat (k - S j))
    ∧ (∀ V, sm_dimension V = final → strassen_branch 2 V = Delegate).
Proof. split; [lia|]. split; [lia|]. apply (padded_recursion_levels 5 2); lia. Defined.

(** X4.  [strassen_mul] on an output view that lies inside its buffer, with
    inputs in other buffers, returns and leaves in every cell [(x, y)] of
    the output the product of the inputs, read through views of the side
    of the output, in machine arithmetic. *)
Theorem strassen_mul_product fuel (a b c : submatrix) cutoff (h : heap) :
  1 ≤ cutoff → (Z.to_nat (sm_dimension c) < fuel)%nat →
  proper (shape h) c = true →
  (ptr c < length h)%nat → (ptr a < length h)%nat → (ptr b < length h)%nat →
  ptr a ≠ ptr c → ptr b ≠ ptr c →
  ∃ h', strassen_mul fuel a b c cutoff h = Some h'
    ∧ ∀ x y, 0 ≤ x < sm_dimension c → 0 ≤ y < sm_dimension c →
        get h' c x y
        = product h (with_dimension a (sm_dimension c))
            (with_dimension b (sm_dimension c)) (sm_dimension c) x y.
Proof.
  intros Hc Hf Hp HLc HLa HLb Hac Hbc.
  destruct (strassen_mul_spec fuel a b c cutoff h) as (h' & E & _ & Hv & _);
    try done.
  now exists h'.
Qed.

Lemma strassen_mul_product_witness :
  let a := submatrix_of (MatrixData 2 0) in
  let b := submatrix_of (MatrixData 2 1) in
  let c := submatrix_of (MatrixData 4 2) in
  let h := [[1; 3; 2; 4]; [5; 7; 6; 8]; replicate 16 7] in
  ∃ h', strassen_mul 5 a b c 1 h = Some h'
    ∧ ∀ x y, 0 ≤ x < sm_dimension c → 0 ≤ y < sm_dimension c →
        get h' c x y
        = product h (with_dimension a (sm_dimension c))
            (with_dimension b (sm_dimension c)) (sm_dimension c) x y.
Proof.
  intros a b c h.
  apply (strassen_mul_product 5 a b c 1 h);
    first [reflexivity | simpl; lia | vm_compute; lia].
Defined.

(** X5.  The contract of the recursive multiply: with [C] and the scratch
    [S] inside their buffers, of the side of [A] and [B], and no two of
    the four views overlapping except [A] with [B], a call returns, [C]
    holds the product, and no cell that is neither a cell of [C] nor of
    [S] has changed. *)
Theorem strassen_recursion_contract cutoff fuel (A B C S : submatrix) (h : heap) :
  1 ≤ cutoff → (Z.to_nat (sm_dimension C) < fuel)%nat →
  sm_dimension A = sm_dimension C → sm_dimension B = sm_dimension C →
  sm_dimension S = sm_dimension C →
  proper (shape h) C = true → proper (shape h) S = true →
  disjoint (shape h) C S = true →
  disjoint (shape h) A C = true → disjoint (shape h) A S = true →
  disjoint (shape h) B C = true → disjoint (shape h) B S = true →
  ∃ h', strassen_mul_recursion cutoff fuel A B C S h = Some h'
    ∧ shape h' = shape h
    ∧ (∀ x y, 0 ≤ x < sm_dimension C → 0 ≤ y < sm_dimension C →
         get h' C x y = product h A B (sm_dimension C) x y)
    ∧ (∀ r, outside (shape h) C r → outside (shape h) S r →
         load h' r = load h r).
Proof.
  intros Hc Hf HA HB HS HpC HpS HCS HAC HAS HBC HBS.
  apply (strassen_mul_recursion_multiplies cutoff fuel Hc _ Hf (shape h));
    [|done].
  apply layout_intro; try done; now apply disjoint_sep.
Qed.

Lemma strassen_recursion_contract_witness :
  let A := submatrix_of (MatrixData 2 0) in
  let B := submatrix_of (MatrixData 2 1) in
  let C := submatrix_of (MatrixData 2 2) in
  let S := submatrix_of (MatrixData 2 3) in
  let h := [[1; 3; 2; 4]; [5; 7; 6; 8]; [9; 9; 9; 9]; [-1; 7; 7; 3]] in
  ∃ h', strassen_mul_recursion 1 3 A B C S h = Some h'
    ∧ shape h' = shape h
    ∧ (∀ x y, 0 ≤ x < sm_dimension C → 0 ≤ y < sm_dimension C →
         get h' C x y = product h A B (sm_dimension C) x y)
    ∧ (∀ r, outside (shape h) C r → outside (shape h) S r →
         load h' r = load h r).
Proof.
  intros A B C S h.
  apply (strassen_recursion_contract 1 3 A B C S h);
    first [reflexivity | simpl; lia].
Defined.

Lemma compat_of_same_or_disjoint sh a c :
  proper sh c = true → a = c ∨ disjoint sh a c = true → compat sh a c.
Proof.
  intros Hp [->|Hd]; [now apply proper_compat|].
  now apply sep_compat, disjoint_sep.
Qed.

(** X6.  [sum] and [sub] overwrite every cell of a target view that lies
    inside its buffer with the sum, or the difference, of what the inputs
    held before the call, and change no other cell; an input may be the
    target itself (the in-place folds of the recombination) or must share
    no cell with it. *)
Theorem sum_sub_overwrite (a b c : submatrix) (h : heap) :
  proper (shape h) c = true →
  a = c ∨ disjoint (shape h) a c = true →
  b = c ∨ disjoint (shape h) b c = true →
  (∀ x y, 0 ≤ x < sm_dimension c → 0 ≤ y < sm_dimension c →
     get (sum a b c h) c x y = int_add (get h a x y) (get h b x y)
     ∧ get (sub a b c h) c x y = int_sub (get h a x y) (get h b x y))
  ∧ (∀ r, outside (shape h) c r →
       load (sum a b c h) r = load h r ∧ load (sub a b c h) r = load h r).
Proof.
  intros Hp Ha Hb.
  pose proof (sum_spec (shape h) a b c h eq_refl (proper_buffer _ _ Hp)
    (proper_compat _ _ Hp) (compat_of_same_or_disjoint _ _ _ Hp Ha)
    (compat_of_same_or_disjoint _ _ _ Hp Hb)) as Hsum.
  pose proof (sub_spec (shape h) a b c h eq_refl (proper_buffer _ _ Hp)
    (proper_compat _ _ Hp) (compat_of_same_or_disjoint _ _ _ Hp Ha)
    (compat_of_same_or_disjoint _ _ _ Hp Hb)) as Hsub.
  split.
  - intros x y Hx Hy. split.
    + now apply (written_get _ _ _ _ _ _ _ Hsum (proper_good _ _ Hp)).
    + now apply (written_get _ _ _ _ _ _ _ Hsub (proper_good _ _ Hp)).
  - intros r Hr. split.
    + now apply (written_outside _ _ _ _ _ _ Hsum).
    + now apply (written_outside _ _ _ _ _ _ Hsub).
Qed.

Lemma sum_sub_overwrite_witness :
  let c := submatrix_sub (submatrix_of (MatrixData 4 0)) 1 0 in
  let b := submatrix_sub (submatrix_of (MatrixData 4 0)) 0 1 in
  let h := [seqZ 1 16] in
  (∀ x y, 0 ≤ x < sm_dimension c → 0 ≤ y < sm_dimension c →
     get (sum c b c h) c x y = int_add (get h c x y) (get h b x y)
     ∧ get (sub c b c h) c x y = int_sub (get h c x y) (get h b x y))
  ∧ (∀ r, outside (shape h) c r →
       load (sum c b c h) r = load h r ∧ load (sub c b c h) r = load h r).
Proof.
  intros c b h.
  apply (sum_sub_overwrite c b c h); [reflexivity|by left|right; reflexivity].
Defined.

(** X7.  [clear] zeroes every cell of a view that lies inside its buffer
    and changes no other cell. *)
Theorem clear_zeroes (c : submatrix) (h : heap) :
  proper (shape h) c = true →
  (∀ x y, 0 ≤ x < sm_dimension c → 0 ≤ y < sm_dimension c →
     get (submatrix_clear c h) c x y = 0)
  ∧ (∀ r, outside (shape h) c r → load (submatrix_clear c h) r = load h r).
Proof.
  intros Hp.
  pose proof (clear_spec (shape h) c h eq_refl (proper_buffer _ _ Hp)
    (proper_compat _ _ Hp)) as Hw.
  split.
  - intros x y Hx Hy.
    now apply (written_get _ _ _ _ _ _ _ Hw (proper_good _ _ Hp)).
  - intros r Hr. now apply (written_outside _ _ _ _ _ _ Hw).
Qed.

Lemma clear_zeroes_witness :
  let c := submatrix_sub (submatrix_of (MatrixData 4 0)) 1 1 in
  let h := [seqZ 1 16] in
  (∀ x y, 0 ≤ x < sm_dimension c → 0 ≤ y < sm_dimension c →
     get (submatrix_clear c h) c x y = 0)
  ∧ (∀ r, outside (shape h) c r → load (submatrix_clear c h) r = load h r).
Proof. intros c h. apply (clear_zeroes c h). reflexivity. Defined.

(** X8.  [operator==] answers [false] at once when the sides differ; on two
    views of side [n] at the origin of buffers that hold a square of side
    [n], it returns, and returns [true] exactly when the views agree in
    every cell. *)
Theorem operator_eq_at_origin (h : heap) (m other : submatrix) :
  (sm_dimension m ≠ sm_dimension other → submatrix_eq h m other = Some false)
  ∧ (sm_dimension m = sm_dimension other →
     sm_i m = 0 → sm_j m = 0 → sm_i other = 0 → sm_j other = 0 →
     holds_square (shape h) (sm_data m) (sm_dimension m) = true →
     holds_square (shape h) (sm_data other) (sm_dimension m) = true →
     ∃ b, submatrix_eq h m other = Some b
       ∧ (b = true ↔ ∀ x y, 0 ≤ x < sm_dimension m → 0 ≤ y < sm_dimension m →
            get h m x y = get h other x y)).
Proof.
  split.
  - intros Hne. unfold submatrix_eq.
    now assert ((sm_dimension m =? sm_dimension other) = false) as -> by lia.
  - intros Hn Hi Hj Hi' Hj' Hs Hs'.
    destruct (submatrix_eq_squares h m other (sm_dimension m))
      as (b & E & Hb); try done.
    exists b. split; [done|]. rewrite Hb. split.
    + intros H x y Hx Hy.
      rewrite (get_origin h m (sm_dimension m)) by done.
      rewrite (get_origin h other (sm_dimension m)) by done. now apply H.
    + intros H x y Hx Hy.
      rewrite <- (get_origin h m (sm_dimension m)) by done.
      rewrite <- (get_origin h other (sm_dimension m)) by done. now apply H.
Qed.

Lemma operator_eq_at_origin_witness :
  let h := [[1; 2; 0; 3; 4; 0; 0; 0; 0]; [1; 2; 3; 4]] in
  let m := with_dimension (submatrix_of (MatrixData 3 0)) 2 in
  let other := submatrix_of (MatrixData 2 1) in
  ∃ b, submatrix_eq h m other = Some b
    ∧ (b = true ↔ ∀ x y, 0 ≤ x < sm_dimension m → 0 ≤ y < sm_dimension m →
         get h m x y = get h other x y).
Proof.
  intros h m other.
  apply (proj2 (operator_eq_at_origin h m other)); reflexivity.
Defined.

(** X9.  [matrix_data::in_bounds] compares the linear index with the size of
    the vector and not the row with the dimension.  Through a view at the
    origin of an [n × n] buffer whose side was raised above [n] (as
    [strassen_mul] does to its inputs), a row [x] beyond the buffer reads,
    while the index is inside the vector, the cell of row [x - n] in the
    next column, and 0 only from there on; a column beyond the buffer
    always reads 0. *)
Theorem raised_view_wraps_rows (h : heap) (p : nat) (n P x y : Z) :
  0 < n → vsize (shape h) p = n * n →
  n ≤ x < 2 * n → x < P → 0 ≤ y < P →
  let v := with_dimension (submatrix_of (MatrixData n p)) P in
  (x + n * y < n * n →
     get h v x y = buffer_cell h (MatrixData n p) (x - n) (y + 1))
  ∧ (n * n ≤ x + n * y → get h v x y = 0)
  ∧ (∀ x', 0 ≤ x' < P → n ≤ y → get h v x' y = 0).
Proof.
  intros Hn Hs Hx HxP Hy v. split; [|split].
  - intros Hin. unfold get, submatrix_at, buffer_cell.
    assert (submatrix_in_bounds (shape h) v x y = true) as ->.
    { apply submatrix_in_bounds_iff. unfold v, ptr. simpl. rewrite Hs. lia. }
    unfold v. simpl. do 3 f_equal. lia.
  - intros Hout. unfold get, submatrix_at.
    destruct (submatrix_in_bounds (shape h) v x y) eqn:E; [|done].
    apply submatrix_in_bounds_iff in E. unfold v, ptr in E. simpl in E.
    rewrite Hs in E. lia.
  - intros x' Hx' Hy'. unfold get, submatrix_at.
    destruct (submatrix_in_bounds (shape h) v x' y) eqn:E; [|done].
    apply submatrix_in_bounds_iff in E. unfold v, ptr in E. simpl in E.
    rewrite Hs in E. nia.
Qed.

Lemma raised_view_wraps_rows_witness :
  let h := [[1; 2; 3; 4; 5; 6; 7; 8; 9]] in
  let v := with_dimension (submatrix_of (MatrixData 3 0)) 4 in
  (3 + 3 * 1 < 3 * 3 → get h v 3 1 = buffer_cell h (MatrixData 3 0) (3 - 3) (1 + 1))
  ∧ (3 * 3 ≤ 3 + 3 * 1 → get h v 3 1 = 0)
  ∧ (∀ x', 0 ≤ x' < 4 → 3 ≤ 1 → get h v x' 1 = 0).
Proof.
  intros h v. apply (raised_view_wraps_rows h 0 3 4 3 1); first [reflexivity|lia].
Defined.

(** X10.  [matrix_data(dimension)], for a dimension whose square is an
    [int], leaves the vectors of the heap alone and adds one that a view
    of the whole buffer lies inside; every read through that view yields
    0.  A square that wraps to a negative [int] makes the constructor
    throw, as at dimension 46341; at 65536 the square wraps to 0 and the
    buffer has no cell. *)
Theorem new_matrix_data_fresh (dimension : Z) (h : heap) :
  0 ≤ dimension →
  (dimension * dimension ≤ int_max →
   ∃ m h', new_matrix_data dimension h = Some (m, h')
     ∧ md_data m = length h ∧ md_dimension m = dimension
     ∧ proper (shape h') (submatrix_of m) = true
     ∧ (∀ x y, get h' (submatrix_of m) x y = 0)
     ∧ (∀ p, (p < length h)%nat → h' !! p = h !! p))
  ∧ (int_mul dimension dimension < 0 → new_matrix_data dimension h = None)
  ∧ new_matrix_data 46341 h = None
  ∧ new_matrix_data 65536 h = Some (MatrixData 65536 (length h), h ++ [[]]).
Proof.
  intros Hd. split; [|split; [|split; reflexivity]].
  - intros Hfit. rewrite new_matrix_data_fits by done.
    set (m := fst (alloc_matrix_data dimension h)).
    set (h' := snd (alloc_matrix_data dimension h)).
    exists m, h'. split; [done|]. split; [done|]. split; [done|].
    split; [now apply alloc_matrix_data_proper|]. split.
    + intros x y. unfold get.
      destruct (submatrix_at (shape h') (submatrix_of m) x y) as [p k|] eqn:E;
        [|done].
      apply submatrix_at_ptr in E as ->. unfold h', m, ptr. simpl.
      rewrite lookup_app_r, Nat.sub_diag by lia. simpl.
      destruct (replicate _ _ !! k) eqn:Ek; [|done].
      apply lookup_replicate in Ek as [-> _]. done.
    + intros p Hp. unfold h'. simpl. now apply lookup_app_l.
  - intros Hneg. unfold new_matrix_data.
    now assert ((int_mul dimension dimension <? 0) = true) as -> by lia.
Qed.

Lemma new_matrix_data_fresh_witness :
  let h := [[1; 2; 3; 4]] in
  0 ≤ 3
  ∧ (3 * 3 ≤ int_max →
     ∃ m h', new_matrix_data 3 h = Some (m, h')
       ∧ md_data m = length h ∧ md_dimension m = 3
       ∧ proper (shape h') (submatrix_of m) = true
       ∧ (∀ x y, get h' (submatrix_of m) x y = 0)
       ∧ (∀ p, (p < length h)%nat → h' !! p = h !! p))
  ∧ (int_mul 3 3 < 0 → new_matrix_data 3 h = None)
  ∧ new_matrix_data 46341 h = None
  ∧ new_matrix_data 65536 h = Some (MatrixData 65536 (length h), h ++ [[]]).
Proof. intros h. split; [lia|]. apply (new_matrix_data_fresh 3 h). lia. Defined.

(** ** The rest of [main] *)

Lemma insert_resize_end (l : list Z) (n : nat) (v : Z) :
  (length l < n)%nat →
  <[length l := v]> (resize n 0 l) = resize n 0 (l ++ [v]).
Proof.
  intros H. rewrite !resize_ge by (rewrite ?length_app; simpl; lia).
  rewrite insert_app_r_alt by lia. rewrite Nat.sub_diag, length_app. simpl.
  replace (n - length l)%nat with (S (n - (length l + 1))) by lia.
  simpl. now rewrite <- app_assoc.
Qed.

Lemma foldl_none {A B} (f : A → B → option A) (l : list B) :
  foldl (λ st v, st ← st; f st v) None l = None.
Proof. induction l; simpl; auto. Qed.

Lemma read_lines_loop (d : Z) (lines : list Z) :
  0 ≤ d → d * d ≤ int_max →
  Z.of_nat (length lines) ≤ 2 * (d * d) →
  Z.of_nat (length lines) ≤ int_max →
  foldl (λ st v, st ← st; read_line d st v)
    (Some (0, replicate (Z.to_nat (d * d)) 0, replicate (Z.to_nat (d * d)) 0))
    lines
  = Some (Z.of_nat (length lines), resize (Z.to_nat (d * d)) 0 lines,
          resize (Z.to_nat (d * d)) 0 (drop (Z.to_nat (d * d)) lines)).
Proof.
  intros Hd Hfit. unfold int_max in *.
  induction lines as [|v l IH] using rev_ind; intros Hl Hint.
  - simpl. rewrite drop_nil. now rewrite !resize_nil.
  - rewrite length_app in Hl, Hint. simpl in Hl, Hint.
    rewrite foldl_snoc, IH by lia. cbn [mbind option_bind].
    unfold read_line, vector_at_put, int_mul, int_add, int_sub.
    rewrite (wrap_small (d * d)) by nia.
    rewrite (wrap_small (Z.of_nat (length l) + 1)) by lia.
    rewrite !length_resize.
    destruct (Z.of_nat (length l) <? d * d) eqn:E.
    + apply Z.ltb_lt in E.
      assert ((0 <=? Z.of_nat (length l))
              && (Z.of_nat (length l) <? Z.of_nat (Z.to_nat (d * d))) = true)
        as -> by (rewrite andb_true_iff, Z.leb_le, Z.ltb_lt; lia).
      cbn [mbind option_bind]. rewrite Nat2Z.id.
      rewrite insert_resize_end by lia.
      rewrite !drop_ge by (rewrite ?length_app; simpl; lia).
      rewrite length_app. simpl. do 3 f_equal. lia.
    + apply Z.ltb_ge in E.
      rewrite (wrap_small (Z.of_nat (length l) - d * d)) by lia.
      assert ((0 <=? Z.of_nat (length l) - d * d)
              && (Z.of_nat (length l) - d * d <? Z.of_nat (Z.to_nat (d * d)))
              = true) as -> by (rewrite andb_true_iff, Z.leb_le, Z.ltb_lt; lia).
      cbn [mbind option_bind].
      rewrite resize_app_le by lia. rewrite drop_app_le by lia.
      replace (Z.to_nat (Z.of_nat (length l) - d * d))
        with (length (drop (Z.to_nat (d * d)) l))
        by (rewrite length_drop; lia).
      rewrite insert_resize_end by (rewrite length_drop; lia).
      rewrite length_app. simpl. do 3 f_equal. lia.
Qed.

(** The two input buffers of [main], where the square is an [int]. *)
Lemma read_lines_buffers (d : Z) (lines : list Z) :
  d * d ≤ int_max →
  read_lines d lines
  = '(_, va, vb) ← foldl (λ st v, st ← st; read_line d st v)
        (Some (0, replicate (Z.to_nat (d * d)) 0,
               replicate (Z.to_nat (d * d)) 0)) lines;
    Some (va, vb).
Proof.
  intros Hfit. unfold read_lines.
  rewrite new_matrix_data_fits by done. cbn [mbind option_bind].
  unfold alloc_matrix_data at 1. cbn [mbind option_bind].
  rewrite new_matrix_data_fits by done. reflexivity.
Qed.

(** X11.  Reading the input file, for a dimension whose square is an
    [int]: with at most [2 * dimension²] lines the loop returns, [a]
    holds the first [dimension²] integers and [b] the following ones,
    each filled up with zeros when the file is short; one line more and
    [vector::at] throws.  A square that wraps to a negative [int] makes
    the constructor of [a] throw before a line is read. *)
Theorem read_lines_spec (d : Z) (lines : list Z) :
  0 ≤ d →
  (d * d ≤ int_max →
   Z.of_nat (length lines) ≤ 2 * (d * d) →
   Z.of_nat (length lines) ≤ int_max →
     read_lines d lines
     = Some (resize (Z.to_nat (d * d)) 0 lines,
             resize (Z.to_nat (d * d)) 0 (drop (Z.to_nat (d * d)) lines)))
  ∧ (2 * (d * d) ≤ int_max → 2 * (d * d) < Z.of_nat (length lines) →
     read_lines d lines = None)
  ∧ (int_mul d d < 0 → read_lines d lines = None).
Proof.
  intros Hd. split; [|split].
  - intros Hfit Hl Hint. rewrite read_lines_buffers by done.
    now rewrite read_lines_loop.
  - intros Hfit Hl. assert (d * d ≤ int_max) as Hfit' by nia.
    rewrite read_lines_buffers by done. unfold int_max in *.
    rewrite <- (take_drop (Z.to_nat (2 * (d * d))) lines).
    rewrite foldl_app, read_lines_loop
      by (rewrite ?length_take; unfold int_max; lia).
    destruct (drop (Z.to_nat (2 * (d * d))) lines) as [|v rest] eqn:E.
    { apply (f_equal length) in E. rewrite length_drop in E. simpl in E. lia. }
    cbn [foldl mbind option_bind].
    unfold read_line, vector_at_put, int_mul, int_sub.
    rewrite (wrap_small (d * d)) by nia.
    rewrite length_take, !length_resize.
    replace (Z.to_nat (2 * (d * d)) `min` length lines)%nat
      with (Z.to_nat (2 * (d * d))) by lia.
    rewrite (wrap_small (Z.of_nat (Z.to_nat (2 * (d * d))) - d * d)) by nia.
    assert ((Z.of_nat (Z.to_nat (2 * (d * d))) <? d * d) = false) as ->
      by (apply Z.ltb_ge; lia).
    assert ((Z.of_nat (Z.to_nat (2 * (d * d))) - d * d
             <? Z.of_nat (Z.to_nat (d * d))) = false) as ->
      by (apply Z.ltb_ge; lia).
    rewrite andb_false_r. cbn [mbind option_bind]. now rewrite foldl_none.
  - intros Hneg. unfold read_lines, new_matrix_data.
    now assert ((int_mul d d <? 0) = true) as -> by lia.
Qed.

Lemma read_lines_spec_witness :
  read_lines 2 [1; 3; 2; 4; 5; 7] = Some ([1; 3; 2; 4], [5; 7; 0; 0])
  ∧ read_lines 1 [1; 2; 3] = None.
Proof.
  split.
  - apply (proj1 (read_lines_spec 2 [1; 3; 2; 4; 5; 7] ltac:(lia)));
      unfold int_max; simpl; lia.
  - apply (proj1 (proj2 (read_lines_spec 1 [1; 2; 3] ltac:(lia))));
      unfold int_max; simpl; lia.
Defined.

(** X12.  What [main] computes, when the padded side is at least the true
    side and its square is an [int] (as up to dimension 23170): entry
    [(x, y)] of the output is the product of the inputs over the
    integers, reduced to 32 bits; whenever that entry fits in an [int] it
    is the exact one, whatever overflowed on the way through the seven
    products. *)
Theorem main_multiply_exact N cutoff va vb :
  1 ≤ N → 1 ≤ cutoff →
  Z.of_nat (length va) = N * N → Z.of_nat (length vb) = N * N →
  ∃ P, padding_size N cutoff = Some P
    ∧ (N ≤ 23170 → N ≤ P ∧ P * P ≤ int_max)
    ∧ (N ≤ P → P * P ≤ int_max →
       ∀ fuel, (Z.to_nat P < fuel)%nat →
       ∃ h c, main_multiply fuel N cutoff va vb = Some (h, c)
         ∧ ∀ x y, 0 ≤ x < N → 0 ≤ y < N →
             get h c x y = wrap (exact_product N va vb x y)
             ∧ (- 2 ^ 31 ≤ exact_product N va vb x y < 2 ^ 31 →
                get h c x y = exact_product N va vb x y)).
Proof.
  intros HN Hc La Lb.
  destruct (main_multiply_padded N cutoff va vb HN Hc La Lb)
    as (P & EP & Hsmall & Hrun).
  exists P. split; [done|]. split; [done|]. intros HP Hfit fuel Hf.
  destruct (Hrun HP Hfit fuel Hf) as (h & E & _ & _ & _ & Hv).
  eexists _, _. split; [exact E|]. intros x y Hx Hy.
  rewrite Hv by done. split; [done|].
  intros Hr. unfold matrix_product. now apply wrap_small.
Qed.

Lemma main_multiply_exact_witness :
  ∃ P, padding_size 3 1 = Some P
    ∧ (3 ≤ 23170 → 3 ≤ P ∧ P * P ≤ int_max)
    ∧ (3 ≤ P → P * P ≤ int_max →
       ∀ fuel, (Z.to_nat P < fuel)%nat →
       ∃ h c, main_multiply fuel 3 1 [1; 2; 3; 4; 5; 6; 7; 8; 9]
                [9; 8; 7; 6; 5; 4; 3; 2; 1] = Some (h, c)
         ∧ ∀ x y, 0 ≤ x < 3 → 0 ≤ y < 3 →
             get h c x y
             = wrap (exact_product 3 [1; 2; 3; 4; 5; 6; 7; 8; 9]
                       [9; 8; 7; 6; 5; 4; 3; 2; 1] x y)
             ∧ (- 2 ^ 31 ≤ exact_product 3 [1; 2; 3; 4; 5; 6; 7; 8; 9]
                             [9; 8; 7; 6; 5; 4; 3; 2; 1] x y < 2 ^ 31 →
                get h c x y
                = exact_product 3 [1; 2; 3; 4; 5; 6; 7; 8; 9]
                    [9; 8; 7; 6; 5; 4; 3; 2; 1] x y)).
Proof.
  apply (main_multiply_exact 3 1 [1; 2; 3; 4; 5; 6; 7; 8; 9]
           [9; 8; 7; 6; 5; 4; 3; 2; 1]); first [lia | reflexivity].
Defined.

(** X13.  Up to dimension 23170, where every padded side has a square
    that is an [int], the cutoff changes the padding and the depth of the
    recursion, never the result: two runs of [main] on the same inputs
    with any two cutoffs of at least 1 agree on every entry of the
    output. *)
Theorem main_multiply_cutoff_invariant N cutoff1 cutoff2 va vb :
  1 ≤ N ≤ 23170 → 1 ≤ cutoff1 → 1 ≤ cutoff2 →
  Z.of_nat (length va) = N * N → Z.of_nat (length vb) = N * N →
  ∃ fuel0 : nat, ∀ fuel1 fuel2, (fuel0 ≤ fuel1)%nat → (fuel0 ≤ fuel2)%nat →
    ∃ h1 c1 h2 c2,
      main_multiply fuel1 N cutoff1 va vb = Some (h1, c1)
      ∧ main_multiply fuel2 N cutoff2 va vb = Some (h2, c2)
      ∧ ∀ x y, 0 ≤ x < N → 0 ≤ y < N → get h1 c1 x y = get h2 c2 x y.
Proof.
  intros HN Hc1 Hc2 La Lb.
  destruct (main_multiply_padded N cutoff1 va vb ltac:(lia) Hc1 La Lb)
    as (P1 & _ & Hs1 & Hrun1).
  destruct (main_multiply_padded N cutoff2 va vb ltac:(lia) Hc2 La Lb)
    as (P2 & _ & Hs2 & Hrun2).
  destruct Hs1 as [HP1 Hf1]; [lia|]. destruct Hs2 as [HP2 Hf2]; [lia|].
  exists (S (Z.to_nat P1 `max` Z.to_nat P2)). intros fuel1 fuel2 Hfu1 Hfu2.
  destruct (Hrun1 HP1 Hf1 fuel1 ltac:(lia)) as (h1 & E1 & _ & _ & _ & Hv1).
  destruct (Hrun2 HP2 Hf2 fuel2 ltac:(lia)) as (h2 & E2 & _ & _ & _ & Hv2).
  eexists _, _, _, _. split; [exact E1|]. split; [exact E2|].
  intros x y Hx Hy. now rewrite Hv1, Hv2.
Qed.

Lemma main_multiply_cutoff_invariant_witness :
  ∃ fuel0 : nat, ∀ fuel1 fuel2, (fuel0 ≤ fuel1)%nat → (fuel0 ≤ fuel2)%nat →
    ∃ h1 c1 h2 c2,
      main_multiply fuel1 3 1 [1; 2; 3; 4; 5; 6; 7; 8; 9]
        [9; 8; 7; 6; 5; 4; 3; 2; 1] = Some (h1, c1)
      ∧ main_multiply fuel2 3 32 [1; 2; 3; 4; 5; 6; 7; 8; 9]
          [9; 8; 7; 6; 5; 4; 3; 2; 1] = Some (h2, c2)
      ∧ ∀ x y, 0 ≤ x < 3 → 0 ≤ y < 3 → get h1 c1 x y = get h2 c2 x y.
Proof.
  apply (main_multiply_cutoff_invariant 3 1 32 [1; 2; 3; 4; 5; 6; 7; 8; 9]
           [9; 8; 7; 6; 5; 4; 3; 2; 1]); first [lia | reflexivity].
Defined.



(** X15.  [strassen_mul] allocates once: whatever the views and the depth
    of the recursion, a call that returns has added exactly one vector to
    the heap, the scratch arena; when the output lies inside its buffer
    that vector has [dimension²] cells and no other vector has changed
    its length. *)
Theorem strassen_mul_allocates_once fuel (a b c : submatrix) cutoff (h : heap) :
  1 ≤ cutoff → (Z.to_nat (sm_dimension c) < fuel)%nat →
  ∃ h', strassen_mul fuel a b c cutoff h = Some h'
    ∧ length h' = S (length h)
    ∧ (proper (shape h) c = true → (ptr c < length h)%nat →
       (ptr a < length h)%nat → (ptr b < length h)%nat →
       ptr a ≠ ptr c → ptr b ≠ ptr c →
       shape h' = shape h ++ [Z.to_nat (sm_dimension c * sm_dimension c)]).
Proof.
  intros Hc Hf. unfold strassen_mul, alloc_matrix_data.
  destruct (strassen_mul_recursion_total cutoff fuel Hc
              (with_dimension a (sm_dimension c))
              (with_dimension b (sm_dimension c)) c
              (submatrix_of (MatrixData (sm_dimension c) (length h)))
              (h ++ [replicate (Z.to_nat (sm_dimension c * sm_dimension c)) 0]))
    as (h' & E & HL & _); [done|done|].
  exists h'. split; [exact E|]. split.
  - rewrite HL, length_app. simpl. lia.
  - intros Hp HLc HLa HLb Hac Hbc.
    destruct (strassen_mul_spec fuel a b c cutoff h) as (h'' & E' & Hs & _);
      try done.
    unfold strassen_mul, alloc_matrix_data in E'. rewrite E in E'.
    now injection E' as ->.
Qed.

Lemma strassen_mul_allocates_once_witness :
  let a := submatrix_of (MatrixData 2 0) in
  let b := submatrix_of (MatrixData 2 1) in
  let c := submatrix_of (MatrixData 4 2) in
  let h := [[1; 3; 2; 4]; [5; 7; 6; 8]; replicate 16 7] in
  ∃ h', strassen_mul 5 a b c 1 h = Some h'
    ∧ length h' = S (length h)
    ∧ (proper (shape h) c = true → (ptr c < length h)%nat →
       (ptr a < length h)%nat → (ptr b < length h)%nat →
       ptr a ≠ ptr c → ptr b ≠ ptr c →
       shape h' = shape h ++ [Z.to_nat (sm_dimension c * sm_dimension c)]).
Proof.
  intros a b c h.
  apply (strassen_mul_allocates_once 5 a b c 1 h);
    first [simpl; lia | vm_compute; lia].
Defined.

Lemma zsum_single n f k0 :
  0 ≤ k0 < n → (∀ k, 0 ≤ k < n → k ≠ k0 → f k = 0) → zsum n f = f k0.
Proof.
  intros Hk Hf.
  replace n with (k0 + (1 + (n - k0 - 1))) by lia.
  rewrite zsum_app, zsum_app by lia.
  rewrite (zsum_zero_ext k0) by (intros; apply Hf; lia).
  rewrite (zsum_zero_ext (n - k0 - 1)) by (intros; apply Hf; lia).
  change 1 with (0 + 1) at 1. rewrite zsum_succ, zsum_nonpos by lia.
  rewrite !Z.add_0_r, !Z.add_0_l. reflexivity.
Qed.

(** X16.  Multiplying by the identity matrix, or by the zero matrix, when
    the padded side is at least the true side and its square is an [int]
    (as up to dimension 23170): when [vb] holds 1 on the diagonal and 0
    elsewhere the output of [main] is [va], entry for entry (reduced to
    32 bits, as read from the file it already is); when [vb] holds only
    zeros the output is zero. *)
Theorem main_multiply_identity_zero N cutoff va vb :
  1 ≤ N → 1 ≤ cutoff →
  Z.of_nat (length va) = N * N → Z.of_nat (length vb) = N * N →
  ∃ P, padding_size N cutoff = Some P
    ∧ (N ≤ 23170 → N ≤ P ∧ P * P ≤ int_max)
    ∧ (N ≤ P → P * P ≤ int_max →
       ∀ fuel, (Z.to_nat P < fuel)%nat →
       ∃ h c, main_multiply fuel N cutoff va vb = Some (h, c)
         ∧ ((∀ k y, 0 ≤ k < N → 0 ≤ y < N →
               vb !! Z.to_nat (k + N * y) = Some (if k =? y then 1 else 0)) →
            ∀ x y, 0 ≤ x < N → 0 ≤ y < N →
              get h c x y = wrap (default 0 (va !! Z.to_nat (x + N * y))))
         ∧ ((∀ k, k ∈ vb → k = 0) →
            ∀ x y, 0 ≤ x < N → 0 ≤ y < N → get h c x y = 0)).
Proof.
  intros HN Hc La Lb.
  destruct (main_multiply_padded N cutoff va vb HN Hc La Lb)
    as (P & EP & Hsmall & Hrun).
  exists P. split; [done|]. split; [done|]. intros HP Hfit fuel Hf.
  destruct (Hrun HP Hfit fuel Hf) as (h & E & _ & _ & _ & Hv).
  eexists _, _. split; [exact E|]. split.
  - intros Hid x y Hx Hy. rewrite Hv by done. unfold matrix_product. f_equal.
    rewrite (zsum_single _ _ y) by
      (try lia; intros k Hk Hne; rewrite (Hid k y) by lia;
       assert ((k =? y) = false) as -> by lia; simpl; lia).
    rewrite (Hid y y) by lia. rewrite Z.eqb_refl. simpl. lia.
  - intros Hz x y Hx Hy. rewrite Hv by done. unfold matrix_product.
    rewrite zsum_zero_ext; [done|]. intros k Hk.
    destruct (vb !! Z.to_nat (k + N * y)) as [v|] eqn:Ev; simpl; [|lia].
    apply list_elem_of_lookup_2, Hz in Ev as ->. lia.
Qed.

Lemma main_multiply_identity_zero_witness :
  ∃ P, padding_size 2 1 = Some P
    ∧ (2 ≤ 23170 → 2 ≤ P ∧ P * P ≤ int_max)
    ∧ (2 ≤ P → P * P ≤ int_max →
       ∀ fuel, (Z.to_nat P < fuel)%nat →
       ∃ h c, main_multiply fuel 2 1 [1; 3; 2; 4] [1; 0; 0; 1] = Some (h, c)
         ∧ ((∀ k y, 0 ≤ k < 2 → 0 ≤ y < 2 →
               [1; 0; 0; 1] !! Z.to_nat (k + 2 * y)
               = Some (if k =? y then 1 else 0)) →
            ∀ x y, 0 ≤ x < 2 → 0 ≤ y < 2 →
              get h c x y
              = wrap (default 0 ([1; 3; 2; 4] !! Z.to_nat (x + 2 * y))))
         ∧ ((∀ k, k ∈ [1; 0; 0; 1] → k = 0) →
            ∀ x y, 0 ≤ x < 2 → 0 ≤ y < 2 → get h c x y = 0)).
Proof.
  apply (main_multiply_identity_zero 2 1 [1; 3; 2; 4] [1; 0; 0; 1]);
    first [lia | reflexivity].
Defined.

(** ** The allocating program: views *)

Lemma alloc_wf_elim sh m :
  alloc_wf sh m = true →
  0 ≤ StrassenAlloc.mat_i m ∧ 0 ≤ StrassenAlloc.mat_j m
  ∧ 0 ≤ StrassenAlloc.md_N (StrassenAlloc.mat_data m)
  ∧ vsize sh (alloc_ptr m)
    = StrassenAlloc.md_N (StrassenAlloc.mat_data m)
      * StrassenAlloc.md_N (StrassenAlloc.mat_data m)
  ∧ (alloc_ptr m < length sh)%nat.
Proof.
  unfold alloc_wf. rewrite !andb_true_iff, !Z.leb_le, Z.eqb_eq, bool_decide_eq_true.
  tauto.
Qed.

Lemma alloc_exact_elim sh m :
  alloc_exact sh m = true →
  alloc_wf sh m = true ∧ StrassenAlloc.mat_i m = 0 ∧ StrassenAlloc.mat_j m = 0
  ∧ StrassenAlloc.mat_n m = StrassenAlloc.md_N (StrassenAlloc.mat_data m).
Proof.
  unfold alloc_exact. rewrite !andb_true_iff, !Z.eqb_eq. tauto.
Qed.

Lemma alloc_cell_ptr m x y p k : alloc_cell m x y = Cell p k → p = alloc_ptr m.
Proof.
  unfold alloc_cell, alloc_ptr. destruct (_ && _); [|done]. congruence.
Qed.

(** Inside the buffer the index is inside the vector. *)
Lemma alloc_cell_valid sh m x y :
  alloc_wf sh m = true → 0 ≤ x → 0 ≤ y → valid_ref sh (alloc_cell m x y).
Proof.
  intros Hwf Hx Hy. apply alloc_wf_elim in Hwf as (Hi & Hj & HN & Hs & _).
  unfold alloc_cell. destruct (_ && _) eqn:E; [|exact I].
  apply andb_prop in E as [E1 E2]. apply Z.ltb_lt in E1, E2.
  simpl. unfold alloc_ptr in Hs. rewrite Hs. nia.
Qed.

Lemma index_inj (N a b a' b' : Z) :
  0 ≤ a < N → 0 ≤ a' < N → a + N * b = a' + N * b' → a = a' ∧ b = b'.
Proof.
  intros Ha Ha' Heq.
  assert (b = b') as ->; [|lia].
  destruct (Z.lt_trichotomy b b') as [H|[H|H]]; [exfalso|done|exfalso].
  - assert (N * (b + 1) ≤ N * b') by (apply Z.mul_le_mono_nonneg_l; lia). lia.
  - assert (N * (b' + 1) ≤ N * b) by (apply Z.mul_le_mono_nonneg_l; lia). lia.
Qed.

Lemma alloc_cell_inj sh m : alloc_wf sh m = true → alloc_compat m m.
Proof.
  intros Hwf x y x' y' Hx Hy Hx' Hy' Heq Hne.
  apply alloc_wf_elim in Hwf as (Hi & Hj & HN & _ & _).
  unfold alloc_cell in *.
  destruct ((x + StrassenAlloc.mat_i m <? _) && _) eqn:E; [|done].
  destruct ((x' + StrassenAlloc.mat_i m <? _) && _) eqn:E'; [|done].
  apply andb_prop in E as [E1 E2]. apply Z.ltb_lt in E1, E2.
  apply andb_prop in E' as [E1' E2']. apply Z.ltb_lt in E1', E2'.
  injection Heq as Heq. apply Z2Nat.inj in Heq; [|nia..].
  apply index_inj in Heq; lia.
Qed.

Lemma alloc_compat_ptr a c : alloc_ptr a ≠ alloc_ptr c → alloc_compat a c.
Proof.
  intros Hne x y x' y' _ _ _ _ Heq Hp.
  destruct (alloc_cell a x y) as [p k|] eqn:E; [|done].
  symmetry in Heq. apply alloc_cell_ptr in E, Heq. congruence.
Qed.

(** [at] and [set] on a well-formed view, at coordinates that are not
    negative: nothing is thrown. *)
Lemma matrix_at_wf h m x y :
  alloc_wf (shape h) m = true → 0 ≤ x → 0 ≤ y →
  StrassenAlloc.matrix_at h m x y = StrassenAlloc.Return (alloc_val h m x y).
Proof.
  intros Hwf Hx Hy. pose proof (alloc_cell_valid _ _ x y Hwf Hx Hy) as Hv.
  apply alloc_wf_elim in Hwf as (Hi & Hj & HN & Hs & _).
  unfold StrassenAlloc.matrix_at, alloc_val, alloc_cell in *.
  destruct (_ && _) eqn:E; [|done].
  apply andb_prop in E as [E1 E2]. apply Z.ltb_lt in E1, E2.
  unfold StrassenAlloc.vector_at. simpl in Hv.
  rewrite Z2Nat.id in Hv by nia.
  assert ((0 <=? x + StrassenAlloc.mat_i m
            + StrassenAlloc.md_N (StrassenAlloc.mat_data m)
              * (y + StrassenAlloc.mat_j m)) = true) as -> by (apply Z.leb_le; nia).
  apply Z.ltb_lt in Hv. now rewrite Hv.
Qed.

Lemma matrix_set_wf h m x y v :
  alloc_wf (shape h) m = true → 0 ≤ x → 0 ≤ y →
  StrassenAlloc.matrix_set m x y v h
  = StrassenAlloc.Return (store h (alloc_cell m x y) v).
Proof.
  intros Hwf Hx Hy. pose proof (alloc_cell_valid _ _ x y Hwf Hx Hy) as Hv.
  apply alloc_wf_elim in Hwf as (Hi & Hj & HN & Hs & _).
  unfold StrassenAlloc.matrix_set, alloc_cell in *.
  destruct (_ && _) eqn:E; [|done].
  apply andb_prop in E as [E1 E2]. apply Z.ltb_lt in E1, E2.
  unfold StrassenAlloc.vector_put. simpl in Hv.
  rewrite Z2Nat.id in Hv by nia.
  assert ((0 <=? x + StrassenAlloc.mat_i m
            + StrassenAlloc.md_N (StrassenAlloc.mat_data m)
              * (y + StrassenAlloc.mat_j m)) = true) as -> by (apply Z.leb_le; nia).
  apply Z.ltb_lt in Hv. now rewrite Hv.
Qed.

(** A quadrant addresses the cells of its parent, shifted. *)
Lemma alloc_cell_sub m qx qy x y :
  alloc_cell (StrassenAlloc.matrix_sub m qx qy) x y
  = alloc_cell m (x + qx * StrassenAlloc.ceil_divide (StrassenAlloc.mat_n m))
      (y + qy * StrassenAlloc.ceil_divide (StrassenAlloc.mat_n m)).
Proof.
  unfold alloc_cell, StrassenAlloc.matrix_sub. simpl.
  set (c := StrassenAlloc.ceil_divide _).
  replace (x + (StrassenAlloc.mat_i m + qx * c))
    with (x + qx * c + StrassenAlloc.mat_i m) by lia.
  replace (y + (StrassenAlloc.mat_j m + qy * c))
    with (y + qy * c + StrassenAlloc.mat_j m) by lia.
  reflexivity.
Qed.

(** The second program halves the same way. *)
Lemma alloc_ceil_divide x : StrassenAlloc.ceil_divide x = ceil_divide x.
Proof. reflexivity. Qed.

Lemma alloc_ceil_bounds x :
  0 ≤ x →
  x ≤ 2 * StrassenAlloc.ceil_divide x ≤ x + 1
  ∧ 0 ≤ StrassenAlloc.ceil_divide x.
Proof.
  intros Hx. rewrite alloc_ceil_divide, ceil_divide_ceiling by done.
  pose proof (Z.div_mod (x + 1) 2). pose proof (Z.mod_pos_bound (x + 1) 2). lia.
Qed.

Lemma alloc_wf_sub sh m qx qy :
  alloc_wf sh m = true → 0 ≤ qx → 0 ≤ qy → 0 ≤ StrassenAlloc.mat_n m →
  alloc_wf sh (StrassenAlloc.matrix_sub m qx qy) = true.
Proof.
  intros Hwf Hx Hy Hn. pose proof Hwf as H.
  apply alloc_wf_elim in H as (Hi & Hj & HN & Hs & Hp).
  pose proof (alloc_ceil_bounds _ Hn) as [_ Hc].
  unfold alloc_wf, alloc_ptr in *. simpl.
  rewrite !andb_true_iff, !Z.leb_le, Z.eqb_eq, bool_decide_eq_true.
  repeat split; try done; nia.
Qed.

(** ** Loops that may not return *)

Lemma for_loop_try_nonpos {St} n (body : Z → St → StrassenAlloc.result St) s :
  n ≤ 0 → StrassenAlloc.for_loop_try n body s = StrassenAlloc.Return s.
Proof. intros H. unfold StrassenAlloc.for_loop_try. now rewrite for_loop_nonpos. Qed.

Lemma for_loop_try_succ {St} n (body : Z → St → StrassenAlloc.result St) s :
  0 ≤ n →
  StrassenAlloc.for_loop_try (n + 1) body s
  = StrassenAlloc.for_loop_try n body s ≫= body n.
Proof. intros H. unfold StrassenAlloc.for_loop_try. now rewrite for_loop_succ. Qed.

Lemma for_loop_try_ind {St} (P : Z → St → Prop) n
    (body : Z → St → StrassenAlloc.result St) s :
  0 ≤ n → P 0 s →
  (∀ k t, 0 ≤ k < n → P k t →
     ∃ t', body k t = StrassenAlloc.Return t' ∧ P (k + 1) t') →
  ∃ t, StrassenAlloc.for_loop_try n body s = StrassenAlloc.Return t ∧ P n t.
Proof.
  intros Hn H0 Hstep.
  assert (∀ k, 0 ≤ k → k ≤ n →
    ∃ t, StrassenAlloc.for_loop_try k body s = StrassenAlloc.Return t ∧ P k t)
    as H; [|apply H; lia].
  intros k Hk. pattern k. apply natlike_ind; [| |exact Hk].
  - intros _. exists s. split; [|done]. now apply for_loop_try_nonpos.
  - intros x Hx IH Hle. destruct IH as (t & Et & Pt); [lia|].
    unfold Z.succ. rewrite for_loop_try_succ, Et by lia.
    apply Hstep; [lia|done].
Qed.

Lemma counted_refl t : counted 0 0 0 t t.
Proof. unfold counted. lia. Qed.

Lemma counted_trans m1 a1 i1 m2 a2 i2 t1 t2 t3 :
  counted m1 a1 i1 t1 t2 → counted m2 a2 i2 t2 t3 →
  counted (m1 + m2) (a1 + a2) (i1 + i2) t1 t3.
Proof. unfold counted. lia. Qed.

Lemma counted_eq m a i m' a' i' t t' :
  counted m a i t t' → m = m' → a = a' → i = i' → counted m' a' i' t t'.
Proof. now intros H <- <- <-. Qed.

(** Blocks of cells written by a loop that counts its operations. *)
Section try_blocks.
Context (sh : list nat) (n m : Z) (cell : Z → Z → ref) (vspec : Z → Z → Z).
Context (dm da : Z).

Hypothesis cell_inj : ∀ o u o' u',
  0 ≤ o < n → 0 ≤ u < m → 0 ≤ o' < n → 0 ≤ u' < m →
  cell o u = cell o' u' → cell o u ≠ Padding → o = o' ∧ u = u'.

Lemma try_block_writes (body : Z → StrassenAlloc.state
                              → StrassenAlloc.result StrassenAlloc.state)
    (s0 : StrassenAlloc.state) :
  0 ≤ n → shape (StrassenAlloc.st_heap s0) = sh →
  (∀ o s, 0 ≤ o < n → shape (StrassenAlloc.st_heap s) = sh →
     (∀ r, (∀ o' u', 0 ≤ o' < o → 0 ≤ u' < m → cell o' u' ≠ r) →
        load (StrassenAlloc.st_heap s) r
        = load (StrassenAlloc.st_heap s0) r) →
     ∃ s', body o s = StrassenAlloc.Return s'
       ∧ shape (StrassenAlloc.st_heap s') = sh
       ∧ (∀ u, 0 ≤ u < m → cell o u ≠ Padding →
            load (StrassenAlloc.st_heap s') (cell o u) = vspec o u)
       ∧ (∀ r, (∀ u, 0 ≤ u < m → cell o u ≠ r) →
            load (StrassenAlloc.st_heap s') r
            = load (StrassenAlloc.st_heap s) r)
       ∧ counted dm da 0 (StrassenAlloc.st_stats s)
           (StrassenAlloc.st_stats s')) →
  ∃ s', StrassenAlloc.for_loop_try n body s0 = StrassenAlloc.Return s'
    ∧ blocks_done sh m cell vspec (StrassenAlloc.st_heap s0) n
        (StrassenAlloc.st_heap s')
    ∧ counted (n * dm) (n * da) 0 (StrassenAlloc.st_stats s0)
        (StrassenAlloc.st_stats s').
Proof.
  intros Hn Hsh Hbody.
  apply (for_loop_try_ind (λ k s,
    blocks_done sh m cell vspec (StrassenAlloc.st_heap s0) k
      (StrassenAlloc.st_heap s)
    ∧ counted (k * dm) (k * da) 0 (StrassenAlloc.st_stats s0)
        (StrassenAlloc.st_stats s))); [done| |].
  { split; [|unfold counted; lia].
    split; [|split]; [done|intros; lia|done]. }
  intros k t Hk ((Ht & Hval & Hfr) & Hcnt).
  destruct (Hbody k t Hk Ht Hfr) as (t' & Et & Hs' & Hv' & Hf' & Hc').
  exists t'. split; [done|]. split.
  - split; [done|]. split.
    + intros o u Ho Hu Hne. destruct (decide (o = k)) as [->|Hok].
      * now apply Hv'.
      * rewrite Hf'; [apply Hval; [lia|done|done]|].
        intros u' Hu' Heq.
        destruct (cell_inj k u' o u) as [? _]; [lia..|done| |lia]. congruence.
    + intros r Hr. rewrite Hf'; [apply Hfr|].
      * intros o u Ho Hu. apply Hr; [lia|done].
      * intros u Hu. apply Hr; [lia|done].
  - eapply counted_eq; [exact (counted_trans _ _ _ _ _ _ _ _ _ Hcnt Hc')|lia..].
Qed.
End try_blocks.

(** ** The element-wise lambdas *)

Section try_rows.
Context (sh : list nat) (n : Z) (cell : Z → ref) (vspec : Z → Z).
Context (dm da : Z).

Hypothesis cell_valid : ∀ u, 0 ≤ u < n → valid_ref sh (cell u).
Hypothesis cell_inj : ∀ u u', 0 ≤ u < n → 0 ≤ u' < n →
  cell u = cell u' → cell u ≠ Padding → u = u'.

Lemma try_row_writes (body : Z → StrassenAlloc.state
                            → StrassenAlloc.result StrassenAlloc.state)
    (s0 : StrassenAlloc.state) :
  0 ≤ n → shape (StrassenAlloc.st_heap s0) = sh →
  (∀ u s, 0 ≤ u < n → shape (StrassenAlloc.st_heap s) = sh →
     (∀ r, (∀ u', 0 ≤ u' < u → cell u' ≠ r) →
        load (StrassenAlloc.st_heap s) r
        = load (StrassenAlloc.st_heap s0) r) →
     body u s
     = StrassenAlloc.Return
         (StrassenAlloc.count dm da
            (store (StrassenAlloc.st_heap s) (cell u) (vspec u))
            (StrassenAlloc.st_stats s))) →
  ∃ s', StrassenAlloc.for_loop_try n body s0 = StrassenAlloc.Return s'
    ∧ shape (StrassenAlloc.st_heap s') = sh
    ∧ (∀ u, 0 ≤ u < n → cell u ≠ Padding →
         load (StrassenAlloc.st_heap s') (cell u) = vspec u)
    ∧ (∀ r, (∀ u, 0 ≤ u < n → cell u ≠ r) →
         load (StrassenAlloc.st_heap s') r
         = load (StrassenAlloc.st_heap s0) r)
    ∧ counted (n * dm) (n * da) 0 (StrassenAlloc.st_stats s0)
        (StrassenAlloc.st_stats s').
Proof.
  intros Hn Hsh Hbody.
  destruct (try_block_writes sh n 1 (λ o _, cell o) (λ o _, vspec o) dm da)
    with (body := body) (s0 := s0) as (s' & E & (H1 & H2 & H3) & H4).
  - intros o u o' u' Ho Hu Ho' Hu' Heq Hne. split; [|lia]. now apply cell_inj.
  - done.
  - done.
  - intros o s Ho Hs Hfr. eexists. split.
    { apply Hbody; [done|done|]. intros r Hr. apply Hfr.
      intros o' _ Ho' _. now apply Hr. }
    cbn [StrassenAlloc.count StrassenAlloc.st_heap StrassenAlloc.st_stats].
    split; [by rewrite shape_store|]. split; [|split].
    + intros _ _ Hne. pose proof (cell_valid o Ho) as Hv.
      destruct (cell o) as [p k|]; [|done]. apply load_store_same.
      simpl in Hv. now rewrite Hs.
    + intros r Hr. apply load_store_other. apply (Hr 0). lia.
    + unfold counted. simpl. lia.
  - exists s'. split; [done|]. split; [done|]. split; [|split].
    + intros u Hu Hne. apply (H2 u 0); [done|lia|done].
    + intros r Hr. apply H3. intros o _ Ho _. now apply Hr.
    + done.
Qed.
End try_rows.

(** The common shape of the lambdas [sum] and [sub]: two loops, one write
    and one counted addition per cell. *)
Lemma alloc_fill_spec sh (c : StrassenAlloc.matrix) (val : heap → Z → Z → Z)
    (vspec : Z → Z → Z)
    (body : Z → Z → StrassenAlloc.state → StrassenAlloc.result StrassenAlloc.state)
    (s0 : StrassenAlloc.state) :
  shape (StrassenAlloc.st_heap s0) = sh → alloc_wf sh c = true →
  0 ≤ StrassenAlloc.mat_n c →
  (∀ s x y, 0 ≤ x < StrassenAlloc.mat_n c → 0 ≤ y < StrassenAlloc.mat_n c →
     shape (StrassenAlloc.st_heap s) = sh →
     body x y s
     = StrassenAlloc.Return
         (StrassenAlloc.count 0 1
            (store (StrassenAlloc.st_heap s) (alloc_cell c x y)
               (val (StrassenAlloc.st_heap s) x y))
            (StrassenAlloc.st_stats s))) →
  (∀ h x y, 0 ≤ x < StrassenAlloc.mat_n c → 0 ≤ y < StrassenAlloc.mat_n c →
     shape h = sh →
     (∀ r, (∀ x' y', 0 ≤ x' < StrassenAlloc.mat_n c →
              0 ≤ y' < StrassenAlloc.mat_n c →
              x' ≠ x ∨ y' ≠ y → alloc_cell c x' y' ≠ r) →
           load h r = load (StrassenAlloc.st_heap s0) r) →
     val h x y = vspec x y) →
  ∃ s', StrassenAlloc.for_loop_try (StrassenAlloc.mat_n c) (λ y s,
          StrassenAlloc.for_loop_try (StrassenAlloc.mat_n c) (λ x s,
            body x y s) s) s0 = StrassenAlloc.Return s'
    ∧ alloc_written sh c vspec (StrassenAlloc.st_heap s0)
        (StrassenAlloc.st_heap s')
    ∧ counted 0 (StrassenAlloc.mat_n c * StrassenAlloc.mat_n c) 0
        (StrassenAlloc.st_stats s0) (StrassenAlloc.st_stats s').
Proof.
  intros Hsh Hwf Hn Hbody Hval. set (n := StrassenAlloc.mat_n c) in *.
  pose proof (alloc_cell_inj sh c Hwf) as Hinj.
  destruct (try_block_writes sh n n (λ o u, alloc_cell c u o)
              (λ o u, vspec u o) 0 n)
    with (body := λ y s, StrassenAlloc.for_loop_try n (λ x s, body x y s) s)
         (s0 := s0) as (s' & E & (H1 & H2 & H3) & H4).
  - intros o u o' u' Ho Hu Ho' Hu' Heq Hne.
    destruct (Hinj u o u' o'); [lia..|done|done|done].
  - done.
  - done.
  - intros o s Ho Hs Hfr.
    destruct (try_row_writes sh n (λ u, alloc_cell c u o) (λ u, vspec u o) 0 1)
      with (body := λ x s, body x o s) (s0 := s)
      as (s' & E & H1 & H2 & H3 & H4).
    + intros u Hu. apply alloc_cell_valid; [done|lia|lia].
    + intros u u' Hu Hu' Heq Hne.
      destruct (Hinj u o u' o); [lia..|done|done|done].
    + done.
    + done.
    + intros u t Hu Ht Hfr'. rewrite Hbody by done. do 3 f_equal.
      apply Hval; [done..|]. intros r Hr. rewrite Hfr'.
      * apply Hfr. intros o' u' Ho' Hu'. apply Hr; [done|lia|lia].
      * intros u' Hu'. apply Hr; [lia|lia|lia].
    + exists s'. split; [done|]. split; [done|]. split; [done|].
      split; [done|]. eapply counted_eq; [exact H4|lia..].
  - exists s'. split; [done|]. split.
    + split; [done|]. split.
      * intros x y Hx Hy. now apply H2.
      * intros r Hr. apply H3. intros o u Ho Hu. now apply Hr.
    + eapply counted_eq; [exact H4|lia..].
Qed.

(** A read through [a] at [(x, y)] sees no write to another cell of [c]. *)
Lemma alloc_val_stable a c h h0 x y :
  alloc_compat a c → 0 ≤ x → 0 ≤ y →
  (∀ r, (∀ x' y', 0 ≤ x' < StrassenAlloc.mat_n c →
           0 ≤ y' < StrassenAlloc.mat_n c →
           x' ≠ x ∨ y' ≠ y → alloc_cell c x' y' ≠ r) →
        load h r = load h0 r) →
  alloc_val h a x y = alloc_val h0 a x y.
Proof.
  intros Hc Hx Hy Hfr. unfold alloc_val.
  destruct (alloc_cell a x y) as [p k|] eqn:E; [|done].
  apply Hfr. intros x' y' Hx' Hy' Hne Heq.
  rewrite <- E in Heq. symmetry in Heq.
  destruct (Hc x y x' y'); [lia..|done|congruence|lia].
Qed.

Lemma alloc_sum_spec sh a b c s0 :
  shape (StrassenAlloc.st_heap s0) = sh →
  alloc_wf sh a = true → alloc_wf sh b = true → alloc_wf sh c = true →
  0 ≤ StrassenAlloc.mat_n c →
  alloc_compat a c → alloc_compat b c →
  ∃ s', StrassenAlloc.sum a b c s0 = StrassenAlloc.Return s'
    ∧ alloc_written sh c
        (λ x y, int_add (alloc_val (StrassenAlloc.st_heap s0) a x y)
                  (alloc_val (StrassenAlloc.st_heap s0) b x y))
        (StrassenAlloc.st_heap s0) (StrassenAlloc.st_heap s')
    ∧ counted 0 (StrassenAlloc.mat_n c * StrassenAlloc.mat_n c) 0
        (StrassenAlloc.st_stats s0) (StrassenAlloc.st_stats s').
Proof.
  intros Hsh Ha Hb Hc Hn Hac Hbc. unfold StrassenAlloc.sum.
  apply (alloc_fill_spec sh c
           (λ h x y, int_add (alloc_val h a x y) (alloc_val h b x y)));
    [done..| |].
  - intros s x y Hx Hy Hs. rewrite <- Hs in Ha, Hb, Hc.
    rewrite !matrix_at_wf by (done || lia). cbn [mbind StrassenAlloc.result_bind].
    rewrite matrix_set_wf by (done || lia). reflexivity.
  - intros h x y Hx Hy Hh Hfr.
    now rewrite (alloc_val_stable a c h _ x y), (alloc_val_stable b c h _ x y)
      by (done || lia).
Qed.

Lemma alloc_sub_spec sh a b c s0 :
  shape (StrassenAlloc.st_heap s0) = sh →
  alloc_wf sh a = true → alloc_wf sh b = true → alloc_wf sh c = true →
  0 ≤ StrassenAlloc.mat_n c →
  alloc_compat a c → alloc_compat b c →
  ∃ s', StrassenAlloc.sub a b c s0 = StrassenAlloc.Return s'
    ∧ alloc_written sh c
        (λ x y, int_sub (alloc_val (StrassenAlloc.st_heap s0) a x y)
                  (alloc_val (StrassenAlloc.st_heap s0) b x y))
        (StrassenAlloc.st_heap s0) (StrassenAlloc.st_heap s')
    ∧ counted 0 (StrassenAlloc.mat_n c * StrassenAlloc.mat_n c) 0
        (StrassenAlloc.st_stats s0) (StrassenAlloc.st_stats s').
Proof.
  intros Hsh Ha Hb Hc Hn Hac Hbc. unfold StrassenAlloc.sub.
  apply (alloc_fill_spec sh c
           (λ h x y, int_sub (alloc_val h a x y) (alloc_val h b x y)));
    [done..| |].
  - intros s x y Hx Hy Hs. rewrite <- Hs in Ha, Hb, Hc.
    rewrite !matrix_at_wf by (done || lia). cbn [mbind StrassenAlloc.result_bind].
    rewrite matrix_set_wf by (done || lia). reflexivity.
  - intros h x y Hx Hy Hh Hfr.
    now rewrite (alloc_val_stable a c h _ x y), (alloc_val_stable b c h _ x y)
      by (done || lia).
Qed.

(** ** The base case of [mul] *)

(** A read through a view of another buffer sees no write through [c]. *)
Lemma alloc_val_frame a c h h0 x y x' y' :
  alloc_ptr a ≠ alloc_ptr c →
  (∀ r, r ≠ alloc_cell c x' y' → load h r = load h0 r) →
  alloc_val h a x y = alloc_val h0 a x y.
Proof.
  intros Hp Hfr. unfold alloc_val.
  destruct (alloc_cell a x y) as [p k|] eqn:E; [|done].
  apply Hfr. intros Heq. symmetry in Heq.
  apply alloc_cell_ptr in E, Heq. congruence.
Qed.

Lemma accumulate_ext n c0 f g :
  (∀ k, 0 ≤ k < n → f k = g k) → accumulate n c0 f = accumulate n c0 g.
Proof.
  destruct (Z.le_gt_cases 0 n) as [Hn|Hn].
  2:{ intros _. unfold accumulate. now rewrite !for_loop_nonpos by lia. }
  pattern n. apply natlike_ind; [| |exact Hn].
  - intros _. unfold accumulate. now rewrite !for_loop_nonpos by lia.
  - intros x Hx IH Hfg. unfold Z.succ. rewrite !accumulate_succ by lia.
    rewrite IH, Hfg; [reflexivity|lia|]. intros; apply Hfg; lia.
Qed.

(** The innermost loop: one cell of [c] accumulates a row by a column. *)
Lemma mul_base_cell sh a b c x y s0 :
  shape (StrassenAlloc.st_heap s0) = sh →
  alloc_wf sh a = true → alloc_wf sh b = true → alloc_wf sh c = true →
  alloc_ptr a ≠ alloc_ptr c → alloc_ptr b ≠ alloc_ptr c →
  0 ≤ StrassenAlloc.mat_n c → 0 ≤ x → 0 ≤ y →
  ∃ s', StrassenAlloc.for_loop_try (StrassenAlloc.mat_n c) (λ z s,
          vc ← StrassenAlloc.matrix_at (StrassenAlloc.st_heap s) c x y;
          va ← StrassenAlloc.matrix_at (StrassenAlloc.st_heap s) a x z;
          vb ← StrassenAlloc.matrix_at (StrassenAlloc.st_heap s) b z y;
          h ← StrassenAlloc.matrix_set c x y (int_add vc (int_mul va vb))
                (StrassenAlloc.st_heap s);
          StrassenAlloc.Return
            (StrassenAlloc.count 1 1 h (StrassenAlloc.st_stats s))) s0
        = StrassenAlloc.Return s'
    ∧ shape (StrassenAlloc.st_heap s') = sh
    ∧ (alloc_cell c x y ≠ Padding →
       load (StrassenAlloc.st_heap s') (alloc_cell c x y)
       = accumulate (StrassenAlloc.mat_n c)
           (load (StrassenAlloc.st_heap s0) (alloc_cell c x y))
           (λ z, int_mul (alloc_val (StrassenAlloc.st_heap s0) a x z)
                   (alloc_val (StrassenAlloc.st_heap s0) b z y)))
    ∧ (∀ r, r ≠ alloc_cell c x y →
         load (StrassenAlloc.st_heap s') r = load (StrassenAlloc.st_heap s0) r)
    ∧ counted (StrassenAlloc.mat_n c) (StrassenAlloc.mat_n c) 0
        (StrassenAlloc.st_stats s0) (StrassenAlloc.st_stats s').
Proof.
  intros Hsh Ha Hb Hc Hpa Hpb Hn Hx Hy.
  set (h0 := StrassenAlloc.st_heap s0) in *.
  set (f := λ z, int_mul (alloc_val h0 a x z) (alloc_val h0 b z y)).
  apply (for_loop_try_ind (λ z s,
    shape (StrassenAlloc.st_heap s) = sh
    ∧ (alloc_cell c x y ≠ Padding →
       load (StrassenAlloc.st_heap s) (alloc_cell c x y)
       = accumulate z (load h0 (alloc_cell c x y)) f)
    ∧ (∀ r, r ≠ alloc_cell c x y →
         load (StrassenAlloc.st_heap s) r = load h0 r)
    ∧ counted z z 0 (StrassenAlloc.st_stats s0) (StrassenAlloc.st_stats s)));
    [done| |].
  { split; [done|]. split; [|split; [done|unfold counted; lia]].
    intros _. unfold accumulate. now rewrite for_loop_nonpos. }
  intros z s Hz (Hs & Hv & Hfr & Hcnt).
  rewrite <- Hs in Ha, Hb, Hc.
  rewrite !matrix_at_wf by (done || lia). cbn [mbind StrassenAlloc.result_bind].
  rewrite matrix_set_wf by (done || lia).
  eexists. split; [reflexivity|].
  cbn [StrassenAlloc.count StrassenAlloc.st_heap StrassenAlloc.st_stats].
  split; [by rewrite shape_store|]. split; [|split].
  - intros Hne. rewrite accumulate_succ by lia.
    pose proof (alloc_cell_valid _ c x y Hc Hx Hy) as Hvalid.
    unfold alloc_val at 1. rewrite (Hv Hne).
    rewrite (alloc_val_frame a c _ h0 x z x y Hpa Hfr).
    rewrite (alloc_val_frame b c _ h0 z y x y Hpb Hfr).
    destruct (alloc_cell c x y) as [p k|]; [|done].
    now apply load_store_same.
  - intros r Hr. rewrite load_store_other by congruence. now apply Hfr.
  - unfold counted in *. simpl. lia.
Qed.

(** The three loops: every cell of [c] has accumulated its row by its
    column; [n³] multiplications and additions are counted. *)
Lemma alloc_mul_base_spec sh a b c s0 :
  shape (StrassenAlloc.st_heap s0) = sh →
  alloc_wf sh a = true → alloc_wf sh b = true → alloc_wf sh c = true →
  alloc_ptr a ≠ alloc_ptr c → alloc_ptr b ≠ alloc_ptr c →
  0 ≤ StrassenAlloc.mat_n c →
  ∃ s', StrassenAlloc.mul_base a b c s0 = StrassenAlloc.Return s'
    ∧ alloc_written sh c
        (λ x y, accumulate (StrassenAlloc.mat_n c)
                  (load (StrassenAlloc.st_heap s0) (alloc_cell c x y))
                  (λ z, int_mul (alloc_val (StrassenAlloc.st_heap s0) a x z)
                          (alloc_val (StrassenAlloc.st_heap s0) b z y)))
        (StrassenAlloc.st_heap s0) (StrassenAlloc.st_heap s')
    ∧ counted (StrassenAlloc.mat_n c * StrassenAlloc.mat_n c
               * StrassenAlloc.mat_n c)
        (StrassenAlloc.mat_n c * StrassenAlloc.mat_n c * StrassenAlloc.mat_n c)
        0 (StrassenAlloc.st_stats s0) (StrassenAlloc.st_stats s').
Proof.
  intros Hsh Ha Hb Hc Hpa Hpb Hn. unfold StrassenAlloc.mul_base.
  set (n := StrassenAlloc.mat_n c) in *.
  set (h0 := StrassenAlloc.st_heap s0) in *.
  pose proof (alloc_cell_inj sh c Hc) as Hinj.
  set (vspec := λ x y, accumulate n (load h0 (alloc_cell c x y))
                  (λ z, int_mul (alloc_val h0 a x z) (alloc_val h0 b z y))).
  destruct (try_block_writes sh n n (λ o u, alloc_cell c o u) vspec (n * n) (n * n))
    with (body := λ x s, StrassenAlloc.for_loop_try n (λ y s,
            StrassenAlloc.for_loop_try n (λ z s,
              vc ← StrassenAlloc.matrix_at (StrassenAlloc.st_heap s) c x y;
              va ← StrassenAlloc.matrix_at (StrassenAlloc.st_heap s) a x z;
              vb ← StrassenAlloc.matrix_at (StrassenAlloc.st_heap s) b z y;
              h ← StrassenAlloc.matrix_set c x y (int_add vc (int_mul va vb))
                    (StrassenAlloc.st_heap s);
              StrassenAlloc.Return
                (StrassenAlloc.count 1 1 h (StrassenAlloc.st_stats s))) s) s)
         (s0 := s0) as (s' & E & (H1 & H2 & H3) & H4).
  - intros o u o' u' Ho Hu Ho' Hu' Heq Hne.
    destruct (Hinj o u o' u'); [lia..|done|done|done].
  - done.
  - done.
  - intros x s Hx Hs Hfr.
    destruct (try_block_writes sh n 1 (λ o _, alloc_cell c x o)
                (λ o _, vspec x o) n n)
      with (body := λ y s,
            StrassenAlloc.for_loop_try n (λ z s,
              vc ← StrassenAlloc.matrix_at (StrassenAlloc.st_heap s) c x y;
              va ← StrassenAlloc.matrix_at (StrassenAlloc.st_heap s) a x z;
              vb ← StrassenAlloc.matrix_at (StrassenAlloc.st_heap s) b z y;
              h ← StrassenAlloc.matrix_set c x y (int_add vc (int_mul va vb))
                    (StrassenAlloc.st_heap s);
              StrassenAlloc.Return
                (StrassenAlloc.count 1 1 h (StrassenAlloc.st_stats s))) s)
           (s0 := s) as (s' & E & (H1 & H2 & H3) & H4).
    + intros o u o' u' Ho Hu Ho' Hu' Heq Hne. split; [|lia].
      destruct (Hinj x o x o'); [lia..|done|done|done].
    + done.
    + done.
    + intros y t Hy Ht Hfr'.
      destruct (mul_base_cell sh a b c x y t) as (t' & Et & Hs' & Hv' & Hf' & Hc');
        [done..|lia|lia|].
      exists t'. split; [exact Et|]. split; [done|]. split; [|split; [|done]].
      * intros _ _ Hne. rewrite (Hv' Hne). unfold vspec.
        assert (∀ r, (∀ x' y', 0 ≤ x' < n → 0 ≤ y' < n → x' ≠ x ∨ y' ≠ y →
                         alloc_cell c x' y' ≠ r) →
                     load (StrassenAlloc.st_heap t) r = load h0 r) as Hfr0.
        { intros r Hr. rewrite Hfr'.
          - apply Hfr. intros o' u' Ho' Hu'. apply Hr; [lia|lia|lia].
          - intros o' _ Ho' _. apply Hr; [lia|lia|lia]. }
        rewrite Hfr0.
        2:{ intros x' y' Hx' Hy' Hd Heq.
            destruct (Hinj x' y' x y); [lia..|done|congruence|lia]. }
        apply accumulate_ext. intros z Hz.
        assert (∀ v x1 y1, alloc_ptr v ≠ alloc_ptr c →
                  alloc_val (StrassenAlloc.st_heap t) v x1 y1
                  = alloc_val h0 v x1 y1) as Hframe.
        { intros v x1 y1 Hp. unfold alloc_val.
          destruct (alloc_cell v x1 y1) as [p k|] eqn:Ev; [|done].
          apply Hfr0. intros x' y' _ _ _ Heq.
          apply alloc_cell_ptr in Ev, Heq. congruence. }
        now rewrite !Hframe.
      * intros r Hr. apply Hf'. apply not_eq_sym, (Hr 0). lia.
    + exists s'. split; [done|]. split; [done|]. split; [|split].
      * intros u Hu Hne. apply (H2 u 0); [done|lia|done].
      * intros r Hr. apply H3. intros o _ Ho _. now apply Hr.
      * eapply counted_eq; [exact H4|lia..].
  - exists s'. split; [done|]. split.
    + split; [done|]. split.
      * intros x y Hx Hy. now apply H2.
      * intros r Hr. apply H3. intros o u Ho Hu. now apply Hr.
    + eapply counted_eq; [exact H4|lia..].
Qed.

(** ** The recursive case of [mul]: the temporaries *)

Lemma vsize_app sh ext p : (p < length sh)%nat → vsize (sh ++ ext) p = vsize sh p.
Proof. intros H. unfold vsize. now rewrite lookup_app_l. Qed.

Lemma alloc_wf_app sh ext m : alloc_wf sh m = true → alloc_wf (sh ++ ext) m = true.
Proof.
  intros H. apply alloc_wf_elim in H as (Hi & Hj & HN & Hs & Hp).
  unfold alloc_wf. rewrite vsize_app by done.
  rewrite !andb_true_iff, !Z.leb_le, Z.eqb_eq, bool_decide_eq_true.
  rewrite length_app. repeat split; try done; lia.
Qed.

Lemma alloc_exact_app sh ext m :
  alloc_exact sh m = true → alloc_exact (sh ++ ext) m = true.
Proof.
  intros H. apply alloc_exact_elim in H as (Hwf & Hi & Hj & Hn).
  unfold alloc_exact. rewrite (alloc_wf_app _ _ _ Hwf).
  rewrite !andb_true_iff, !Z.eqb_eq. done.
Qed.

Lemma alloc_exact_wf sh m : alloc_exact sh m = true → alloc_wf sh m = true.
Proof. intros H. now apply alloc_exact_elim in H. Qed.

(** A buffer of its own reads 0 beyond its side. *)
Lemma alloc_exact_beyond sh h m x y :
  alloc_exact sh m = true →
  StrassenAlloc.mat_n m ≤ x ∨ StrassenAlloc.mat_n m ≤ y → alloc_val h m x y = 0.
Proof.
  intros H Hxy. apply alloc_exact_elim in H as (_ & Hi & Hj & Hn).
  unfold alloc_val, alloc_cell. rewrite Hi, Hj, <- Hn, !Z.add_0_r.
  destruct (_ && _) eqn:E; [|done].
  apply andb_prop in E as [E1 E2]. apply Z.ltb_lt in E1, E2. lia.
Qed.

Lemma alloc_exact_cell sh m x y :
  alloc_exact sh m = true →
  0 ≤ x < StrassenAlloc.mat_n m → 0 ≤ y < StrassenAlloc.mat_n m →
  alloc_cell m x y ≠ Padding.
Proof.
  intros H Hx Hy. apply alloc_exact_elim in H as (_ & Hi & Hj & Hn).
  unfold alloc_cell. rewrite Hi, Hj, <- Hn, !Z.add_0_r.
  assert ((x <? StrassenAlloc.mat_n m) && (y <? StrassenAlloc.mat_n m) = true)
    as -> by (rewrite andb_true_iff, !Z.ltb_lt; lia).
  done.
Qed.

Lemma alloc_val_ptr_frame h h' m x y :
  (∀ k, load h' (Cell (alloc_ptr m) k) = load h (Cell (alloc_ptr m) k)) →
  alloc_val h' m x y = alloc_val h m x y.
Proof.
  intros H. unfold alloc_val.
  destruct (alloc_cell m x y) as [p k|] eqn:E; [|done].
  apply alloc_cell_ptr in E as ->. apply H.
Qed.

Lemma alloc_temp_frame h0 m h h' ext Tv :
  alloc_temp h0 m h Tv → shape h' = shape h ++ ext →
  (∀ k, load h' (Cell (alloc_ptr Tv.1) k) = load h (Cell (alloc_ptr Tv.1) k)) →
  alloc_temp h0 m h' Tv.
Proof.
  intros (He & Hn & Hp & Hv) Hs Hl. split; [|split; [|split]]; try done.
  - rewrite Hs. now apply alloc_exact_app.
  - intros x y Hx Hy. rewrite <- Hv by done. now apply alloc_val_ptr_frame.
Qed.

Section products.
Context (h0 : heap) (a b : StrassenAlloc.matrix) (n m : Z).
Hypothesis wf_a : alloc_wf (shape h0) a = true.
Hypothesis wf_b : alloc_wf (shape h0) b = true.
Hypothesis side_a : StrassenAlloc.mat_n a = n.
Hypothesis side_b : StrassenAlloc.mat_n b = n.
Hypothesis side_m : m = StrassenAlloc.ceil_divide n.
Hypothesis side_n : 0 ≤ n.

Let side_m_pos : 0 ≤ m.
Proof. subst m. now apply alloc_ceil_bounds. Qed.

(** What reading an operand gives while the heap is live. *)
Lemma op_readable σ h j T o :
  alloc_live h0 m σ h → σ !! j = Some T → op_ok σ j o = true →
  alloc_wf (shape h) (op_matrix a b σ o) = true
  ∧ StrassenAlloc.mat_n (op_matrix a b σ o) = m
  ∧ alloc_ptr (op_matrix a b σ o) ≠ alloc_ptr T.1
  ∧ (∀ x y, 0 ≤ x < m → 0 ≤ y < m →
       alloc_val h (op_matrix a b σ o) x y = op_val h0 a b σ o x y)
  ∧ (op_temp o = true →
     alloc_exact (shape h) (op_matrix a b σ o) = true).
Proof.
  intros ([ext Hext] & Hold & Htemps & Hnd) Hj Hok.
  pose proof (proj1 (Forall_lookup _ _) Htemps j T Hj) as (HTe & HTn & HTp & HTv).
  assert (∀ v qx qy, alloc_wf (shape h0) v = true →
            StrassenAlloc.mat_n v = n → 0 ≤ qx → 0 ≤ qy →
            alloc_wf (shape h) (StrassenAlloc.matrix_sub v qx qy) = true
            ∧ StrassenAlloc.mat_n (StrassenAlloc.matrix_sub v qx qy) = m
            ∧ alloc_ptr (StrassenAlloc.matrix_sub v qx qy) ≠ alloc_ptr T.1
            ∧ (∀ x y, 0 ≤ x < m → 0 ≤ y < m →
                 alloc_val h (StrassenAlloc.matrix_sub v qx qy) x y
                 = alloc_val h0 (StrassenAlloc.matrix_sub v qx qy) x y))
    as Hquad.
  { intros v qx qy Hv Hvn Hqx Hqy.
    pose proof (alloc_wf_elim _ _ Hv) as (_ & _ & _ & _ & Hp).
    rewrite length_shape in Hp.
    split; [|split; [|split]].
    - rewrite Hext. apply alloc_wf_app, alloc_wf_sub; [done|done|done|lia].
    - simpl. now rewrite Hvn, side_m.
    - change (alloc_ptr (StrassenAlloc.matrix_sub v qx qy)) with (alloc_ptr v).
      lia.
    - intros x y _ _. apply alloc_val_ptr_frame. intros k. now apply Hold. }
  destruct o as [qx qy|qx qy|j']; simpl in Hok.
  - apply andb_prop in Hok as [H1 H2]. apply Z.leb_le in H1, H2.
    destruct (Hquad a qx qy) as (? & ? & ? & ?); done.
  - apply andb_prop in Hok as [H1 H2]. apply Z.leb_le in H1, H2.
    destruct (Hquad b qx qy) as (? & ? & ? & ?); done.
  - apply andb_prop in Hok as [H1 H2]. apply negb_true_iff, Nat.eqb_neq in H1.
    apply Nat.ltb_lt in H2.
    destruct (lookup_lt_is_Some_2 σ j' H2) as [T' Hj'].
    pose proof (proj1 (Forall_lookup _ _) Htemps j' T' Hj')
      as (HTe' & HTn' & HTp' & HTv').
    simpl. rewrite Hj'. split; [now apply alloc_exact_wf|].
    split; [done|]. split; [|split; [done|done]].
    intros Heq. apply H1.
    apply (NoDup_lookup _ j' j (alloc_ptr T'.1) Hnd);
      rewrite list_lookup_fmap; [now rewrite Hj'|now rewrite Hj, Heq].
Qed.

(** [matrix T(m)]: one more temporary, zeroed. *)
Lemma live_step_alloc σ s T s' :
  alloc_live h0 m σ (StrassenAlloc.st_heap s) →
  StrassenAlloc.new_matrix m s = (T, s') →
  alloc_live h0 m (σ ++ [(T, λ _ _, 0)]) (StrassenAlloc.st_heap s')
  ∧ counted 0 0 (m * m) (StrassenAlloc.st_stats s) (StrassenAlloc.st_stats s').
Proof.
  intros ([ext Hext] & Hold & Htemps & Hnd) E.
  unfold StrassenAlloc.new_matrix in E. injection E as <- <-.
  cbn [StrassenAlloc.st_heap StrassenAlloc.st_stats].
  set (h := StrassenAlloc.st_heap s) in *.
  assert (length h0 ≤ length h)%nat as Hlen.
  { rewrite <- !length_shape, Hext, length_app. lia. }
  split; [|unfold counted; simpl; lia].
  split; [|split; [|split]].
  - exists (ext ++ [length (replicate (Z.to_nat (m * m)) 0)]).
    now rewrite shape_app, Hext, <- app_assoc.
  - intros p k Hp. rewrite load_app_old by lia. now apply Hold.
  - apply Forall_app. split.
    + eapply Forall_impl; [exact Htemps|]. intros Tv HT.
      apply (alloc_temp_frame h0 m h _ [length (replicate (Z.to_nat (m * m)) 0)]);
        [done|apply shape_app|].
      intros k. apply load_app_old.
      destruct HT as (He & _). apply alloc_exact_elim in He as (Hwf & _).
      apply alloc_wf_elim in Hwf as (_ & _ & _ & _ & Hp).
      now rewrite length_shape in Hp.
    + apply Forall_singleton. split; [|split; [|split]]; simpl.
      * unfold alloc_exact, alloc_wf, alloc_ptr. simpl.
        rewrite shape_app, <- (length_shape h), vsize_app_new.
        rewrite length_app, length_replicate.
        rewrite !andb_true_iff, !Z.leb_le, !Z.eqb_eq, bool_decide_eq_true.
        simpl. repeat split; try done; lia.
      * done.
      * unfold alloc_ptr. simpl. lia.
      * intros x y Hx Hy. unfold alloc_val, alloc_cell. simpl.
        destruct (_ && _); [|done]. simpl.
        rewrite lookup_app_r, Nat.sub_diag by lia. simpl.
        destruct (replicate _ _ !! _) eqn:Ek; [|done].
        now apply lookup_replicate in Ek as [-> _].
  - rewrite fmap_app. apply NoDup_app. split; [done|]. split.
    + intros p Hin Hin'. apply list_elem_of_singleton in Hin'. simpl in Hin'.
      apply list_elem_of_fmap in Hin as (Tv & -> & Hin).
      pose proof (proj1 (Forall_forall _ _) Htemps Tv Hin) as (He & _).
      apply alloc_exact_elim in He as (Hwf & _).
      apply alloc_wf_elim in Hwf as (_ & _ & _ & _ & Hp).
      rewrite length_shape in Hp. unfold alloc_ptr in Hin', Hp. simpl in Hin'.
      fold h in Hin'. lia.
    + apply NoDup_singleton.
Qed.

(** What a write into the temporary [j] leaves of the live heap. *)
Lemma live_update σ h h' ext j T v :
  alloc_live h0 m σ h → σ !! j = Some T →
  shape h' = shape h ++ ext →
  (∀ p k, (p < length h)%nat → p ≠ alloc_ptr T.1 →
     load h' (Cell p k) = load h (Cell p k)) →
  (∀ x y, 0 ≤ x < m → 0 ≤ y < m → alloc_val h' T.1 x y = v x y) →
  alloc_live h0 m (<[j := (T.1, v)]> σ) h'.
Proof.
  intros ([ext0 Hext] & Hold & Htemps & Hnd) Hj Hs Hfr Hv.
  pose proof (proj1 (Forall_lookup _ _) Htemps j T Hj) as (HTe & HTn & HTp & HTv).
  assert (length h0 ≤ length h)%nat as Hlen.
  { rewrite <- !length_shape, Hext, length_app. lia. }
  assert (∀ Tv, alloc_temp h0 m h Tv → (alloc_ptr Tv.1 < length h)%nat) as Hlt.
  { intros Tv (He & _). apply alloc_exact_elim in He as (Hwf & _).
    apply alloc_wf_elim in Hwf as (_ & _ & _ & _ & Hp).
    now rewrite length_shape in Hp. }
  split; [|split; [|split]].
  - exists (ext0 ++ ext). now rewrite Hs, Hext, <- app_assoc.
  - intros p k Hp. rewrite Hfr by lia. now apply Hold.
  - apply Forall_lookup. intros i Tv Hi.
    destruct (decide (i = j)) as [->|Hij].
    + rewrite list_lookup_insert_eq in Hi by (now apply lookup_lt_Some in Hj).
      injection Hi as <-. split; [|split; [|split]]; simpl; try done.
      rewrite Hs. now apply alloc_exact_app.
    + rewrite list_lookup_insert_ne in Hi by done.
      pose proof (proj1 (Forall_lookup _ _) Htemps i Tv Hi) as HT.
      apply (alloc_temp_frame h0 m h h' ext); [done|done|].
      intros k. apply Hfr; [now apply Hlt|].
      intros Heq. apply Hij.
      apply (NoDup_lookup _ i j (alloc_ptr Tv.1) Hnd);
        rewrite list_lookup_fmap; [now rewrite Hi|now rewrite Hj, Heq].
  - rewrite list_fmap_insert. simpl.
    rewrite list_insert_id; [done|]. now rewrite list_lookup_fmap, Hj.
Qed.
End products.

Section steps.
Context (h0 : heap) (a b : StrassenAlloc.matrix) (n m : Z).
Hypothesis wf_a : alloc_wf (shape h0) a = true.
Hypothesis wf_b : alloc_wf (shape h0) b = true.
Hypothesis side_a : StrassenAlloc.mat_n a = n.
Hypothesis side_b : StrassenAlloc.mat_n b = n.
Hypothesis side_m : m = StrassenAlloc.ceil_divide n.
Hypothesis side_n : 0 ≤ n.

Let m_pos : 0 ≤ m.
Proof. subst m. now apply alloc_ceil_bounds. Qed.

(** An element-wise operation into the temporary [j]. *)
Lemma live_step_fill (op : Z → Z → Z)
    (f : StrassenAlloc.matrix → StrassenAlloc.matrix → StrassenAlloc.matrix →
         StrassenAlloc.state → StrassenAlloc.result StrassenAlloc.state)
    σ s j T o1 o2 :
  (∀ sh x y z t,
     shape (StrassenAlloc.st_heap t) = sh →
     alloc_wf sh x = true → alloc_wf sh y = true → alloc_wf sh z = true →
     0 ≤ StrassenAlloc.mat_n z → alloc_compat x z → alloc_compat y z →
     ∃ t', f x y z t = StrassenAlloc.Return t'
       ∧ alloc_written sh z
           (λ u v, op (alloc_val (StrassenAlloc.st_heap t) x u v)
                     (alloc_val (StrassenAlloc.st_heap t) y u v))
           (StrassenAlloc.st_heap t) (StrassenAlloc.st_heap t')
       ∧ counted 0 (StrassenAlloc.mat_n z * StrassenAlloc.mat_n z) 0
           (StrassenAlloc.st_stats t) (StrassenAlloc.st_stats t')) →
  alloc_live h0 m σ (StrassenAlloc.st_heap s) → σ !! j = Some T →
  op_ok σ j o1 = true → op_ok σ j o2 = true →
  ∃ s', f (op_matrix a b σ o1) (op_matrix a b σ o2) T.1 s
        = StrassenAlloc.Return s'
    ∧ alloc_live h0 m
        (<[j := (T.1, λ x y, op (op_val h0 a b σ o1 x y)
                               (op_val h0 a b σ o2 x y))]> σ)
        (StrassenAlloc.st_heap s')
    ∧ counted 0 (m * m) 0 (StrassenAlloc.st_stats s)
        (StrassenAlloc.st_stats s').
Proof.
  intros Hf L Hj Hok1 Hok2. set (h := StrassenAlloc.st_heap s) in *.
  destruct (op_readable h0 a b n m wf_a wf_b side_a side_b side_m side_n
              σ h j T o1 L Hj Hok1) as (Hw1 & Hn1 & Hp1 & Hv1 & _).
  destruct (op_readable h0 a b n m wf_a wf_b side_a side_b side_m side_n
              σ h j T o2 L Hj Hok2) as (Hw2 & Hn2 & Hp2 & Hv2 & _).
  pose proof L as (_ & _ & Htemps & _).
  pose proof (proj1 (Forall_lookup _ _) Htemps j T Hj) as (HTe & HTn & HTp & HTv).
  destruct (Hf (shape h) (op_matrix a b σ o1) (op_matrix a b σ o2) T.1 s)
    as (s' & E & (Hs' & Hval & Hfr) & Hc); try done.
  { now apply alloc_exact_wf. }
  { lia. }
  { now apply alloc_compat_ptr. }
  { now apply alloc_compat_ptr. }
  exists s'. split; [exact E|]. split.
  - apply (live_update h0 m σ h _ [] j T); [done|done| | |].
    + now rewrite app_nil_r.
    + intros p k _ Hp. apply Hfr. intros x y _ _ Heq.
      apply alloc_cell_ptr in Heq. congruence.
    + intros x y Hx Hy. unfold alloc_val at 1.
      rewrite Hval; [|lia|lia|apply (alloc_exact_cell _ _ _ _ HTe); lia].
      fold h. now rewrite Hv1, Hv2.
  - now rewrite HTn in Hc.
Qed.

Lemma live_step_sum σ s j T o1 o2 :
  alloc_live h0 m σ (StrassenAlloc.st_heap s) → σ !! j = Some T →
  op_ok σ j o1 = true → op_ok σ j o2 = true →
  ∃ s', StrassenAlloc.sum (op_matrix a b σ o1) (op_matrix a b σ o2) T.1 s
        = StrassenAlloc.Return s'
    ∧ alloc_live h0 m
        (<[j := (T.1, madd (op_val h0 a b σ o1) (op_val h0 a b σ o2))]> σ)
        (StrassenAlloc.st_heap s')
    ∧ counted 0 (m * m) 0 (StrassenAlloc.st_stats s)
        (StrassenAlloc.st_stats s').
Proof.
  apply (live_step_fill int_add StrassenAlloc.sum). intros sh x y z t.
  apply alloc_sum_spec.
Qed.

Lemma live_step_sub σ s j T o1 o2 :
  alloc_live h0 m σ (StrassenAlloc.st_heap s) → σ !! j = Some T →
  op_ok σ j o1 = true → op_ok σ j o2 = true →
  ∃ s', StrassenAlloc.sub (op_matrix a b σ o1) (op_matrix a b σ o2) T.1 s
        = StrassenAlloc.Return s'
    ∧ alloc_live h0 m
        (<[j := (T.1, msub (op_val h0 a b σ o1) (op_val h0 a b σ o2))]> σ)
        (StrassenAlloc.st_heap s')
    ∧ counted 0 (m * m) 0 (StrassenAlloc.st_stats s)
        (StrassenAlloc.st_stats s').
Proof.
  apply (live_step_fill int_sub StrassenAlloc.sub). intros sh x y z t.
  apply alloc_sub_spec.
Qed.

(** A product into the zeroed temporary [j], by a callee that honours
    the contract on side [m]; one of the operands is a temporary. *)
Lemma live_step_mul self K σ s j T o1 o2 :
  alloc_multiplies self m K →
  alloc_live h0 m σ (StrassenAlloc.st_heap s) → σ !! j = Some T →
  (∀ x y, T.2 x y = 0) →
  op_ok σ j o1 = true → op_ok σ j o2 = true →
  op_temp o1 || op_temp o2 = true →
  ∃ s', self (op_matrix a b σ o1) (op_matrix a b σ o2) T.1 s
        = StrassenAlloc.Return s'
    ∧ alloc_live h0 m
        (<[j := (T.1, mmul m (op_val h0 a b σ o1) (op_val h0 a b σ o2))]> σ)
        (StrassenAlloc.st_heap s')
    ∧ counted K.1.1 K.1.2 K.2 (StrassenAlloc.st_stats s)
        (StrassenAlloc.st_stats s').
Proof.
  intros Hself L Hj Hzero Hok1 Hok2 Htemp.
  set (h := StrassenAlloc.st_heap s) in *.
  destruct (op_readable h0 a b n m wf_a wf_b side_a side_b side_m side_n
              σ h j T o1 L Hj Hok1) as (Hw1 & Hn1 & Hp1 & Hv1 & He1).
  destruct (op_readable h0 a b n m wf_a wf_b side_a side_b side_m side_n
              σ h j T o2 L Hj Hok2) as (Hw2 & Hn2 & Hp2 & Hv2 & He2).
  pose proof L as (_ & _ & Htemps & _).
  pose proof (proj1 (Forall_lookup _ _) Htemps j T Hj) as (HTe & HTn & HTp & HTv).
  destruct (Hself (op_matrix a b σ o1) (op_matrix a b σ o2) T.1 s)
    as (s' & E & [ext Hext] & Hfr & Hval & Hc); try done.
  { apply orb_prop in Htemp as [Ht|Ht]; [left|right].
    - intros x k Hx Hk. apply (alloc_exact_beyond (shape h)); [now apply He1|].
      rewrite Hn1. lia.
    - intros k y Hk Hy. apply (alloc_exact_beyond (shape h)); [now apply He2|].
      rewrite Hn2. lia. }
  { intros x y Hx Hy. fold h. now rewrite HTv, Hzero. }
  exists s'. split; [exact E|]. split; [|done].
  apply (live_update h0 m σ h _ ext j T); [done|done|done|done|].
  intros x y Hx Hy. rewrite Hval by done. unfold alloc_product, mmul. f_equal.
  apply zsum_ext. intros k Hk. fold h. now rewrite Hv1, Hv2.
Qed.
End steps.

(** ** The recursive case of [mul]: the recombination *)

Section recombination.
Context (h : heap) (c : StrassenAlloc.matrix) (m : Z).
Hypothesis exact_c : alloc_exact (shape h) c = true.
Hypothesis side_m : m = StrassenAlloc.ceil_divide (StrassenAlloc.mat_n c).
Hypothesis side_c : 0 ≤ StrassenAlloc.mat_n c.

Let half_pos : 0 ≤ m.
Proof. subst m. now apply alloc_ceil_bounds. Qed.

Let wf_c : alloc_wf (shape h) c = true.
Proof. now apply alloc_exact_wf. Qed.

(** Nothing but the buffer of [c] has changed since [h]. *)
Definition quad_stable (hk : heap) : Prop :=
  shape hk = shape h
  ∧ ∀ p k, p ≠ alloc_ptr c → load hk (Cell p k) = load h (Cell p k).

(** The quadrants of [c] hold [V]. *)
Definition quad_holds (hk : heap) (V : Z → Z → Z → Z → Z) : Prop :=
  ∀ qx qy, qx = 0 ∨ qx = 1 → qy = 0 ∨ qy = 1 →
    ∀ x y, 0 ≤ x < m → 0 ≤ y < m →
    alloc_cell (StrassenAlloc.matrix_sub c qx qy) x y ≠ Padding →
    load hk (alloc_cell (StrassenAlloc.matrix_sub c qx qy) x y) = V qx qy x y.

(** An operand of a recombination step into the quadrant [(tx, ty)]:
    that quadrant itself, or a temporary in a buffer of its own. *)
Definition quad_operand (V : Z → Z → Z → Z → Z) (tx ty : Z)
    (X : StrassenAlloc.matrix) (vX : Z → Z → Z) : Prop :=
  (X = StrassenAlloc.matrix_sub c tx ty ∧ vX = V tx ty)
  ∨ (alloc_wf (shape h) X = true ∧ alloc_ptr X ≠ alloc_ptr c
     ∧ ∀ x y, 0 ≤ x < m → 0 ≤ y < m → alloc_val h X x y = vX x y).

Lemma quad_operand_self V tx ty :
  quad_operand V tx ty (StrassenAlloc.matrix_sub c tx ty) (V tx ty).
Proof. now left. Qed.

Lemma quadrants_apart qx qy tx ty x y x' y' :
  0 ≤ qx → 0 ≤ qy → 0 ≤ tx → 0 ≤ ty →
  0 ≤ x < m → 0 ≤ y < m → 0 ≤ x' < m → 0 ≤ y' < m →
  alloc_cell (StrassenAlloc.matrix_sub c qx qy) x y
  = alloc_cell (StrassenAlloc.matrix_sub c tx ty) x' y' →
  alloc_cell (StrassenAlloc.matrix_sub c qx qy) x y ≠ Padding →
  qx = tx ∧ qy = ty.
Proof.
  intros Hqx Hqy Htx Hty Hx Hy Hx' Hy' Heq Hne.
  rewrite (alloc_cell_sub c qx qy), <- side_m in Heq, Hne.
  rewrite (alloc_cell_sub c tx ty), <- side_m in Heq.
  destruct (alloc_cell_inj _ _ wf_c (x + qx * m) (y + qy * m)
              (x' + tx * m) (y' + ty * m)) as [H1 H2]; [nia..|done|done|].
  destruct (index_inj m x qx x' tx) as [_ ?]; [lia|lia|lia|].
  destruct (index_inj m y qy y' ty) as [_ ?]; [lia|lia|lia|]. done.
Qed.

Lemma quad_step (op : Z → Z → Z)
    (f : StrassenAlloc.matrix → StrassenAlloc.matrix → StrassenAlloc.matrix →
         StrassenAlloc.state → StrassenAlloc.result StrassenAlloc.state)
    V V' tx ty X vX Y vY s :
  (∀ sh x y z t,
     shape (StrassenAlloc.st_heap t) = sh →
     alloc_wf sh x = true → alloc_wf sh y = true → alloc_wf sh z = true →
     0 ≤ StrassenAlloc.mat_n z → alloc_compat x z → alloc_compat y z →
     ∃ t', f x y z t = StrassenAlloc.Return t'
       ∧ alloc_written sh z
           (λ u v, op (alloc_val (StrassenAlloc.st_heap t) x u v)
                     (alloc_val (StrassenAlloc.st_heap t) y u v))
           (StrassenAlloc.st_heap t) (StrassenAlloc.st_heap t')
       ∧ counted 0 (StrassenAlloc.mat_n z * StrassenAlloc.mat_n z) 0
           (StrassenAlloc.st_stats t) (StrassenAlloc.st_stats t')) →
  quad_stable (StrassenAlloc.st_heap s) →
  quad_holds (StrassenAlloc.st_heap s) V →
  tx = 0 ∨ tx = 1 → ty = 0 ∨ ty = 1 →
  quad_operand V tx ty X vX → quad_operand V tx ty Y vY →
  (∀ qx qy, qx = 0 ∨ qx = 1 → qy = 0 ∨ qy = 1 → ∀ x y,
     V' qx qy x y
     = quad_update V tx ty (λ x y, op (vX x y) (vY x y)) qx qy x y) →
  ∃ s', f X Y (StrassenAlloc.matrix_sub c tx ty) s = StrassenAlloc.Return s'
    ∧ quad_stable (StrassenAlloc.st_heap s')
    ∧ quad_holds (StrassenAlloc.st_heap s') V'
    ∧ counted 0 (m * m) 0 (StrassenAlloc.st_stats s)
        (StrassenAlloc.st_stats s').
Proof.
  intros Hf [Hsh Hst] Hq Htx Hty HX HY HV'.
  set (hk := StrassenAlloc.st_heap s) in *.
  set (Q := StrassenAlloc.matrix_sub c tx ty).
  assert (alloc_wf (shape hk) Q = true) as HwQ.
  { rewrite Hsh. apply alloc_wf_sub; [done|lia|lia|done]. }
  assert (StrassenAlloc.mat_n Q = m) as HnQ by (now rewrite side_m).
  assert (∀ Z vZ, quad_operand V tx ty Z vZ →
            alloc_wf (shape hk) Z = true ∧ alloc_compat Z Q
            ∧ ∀ x y, 0 ≤ x < m → 0 ≤ y < m → alloc_cell Q x y ≠ Padding →
                alloc_val hk Z x y = vZ x y) as Hoper.
  { intros Z vZ [[-> ->]|(Hw & Hp & Hv)].
    - split; [done|]. split; [exact (alloc_cell_inj _ _ HwQ)|].
      intros x y Hx Hy Hne. now apply Hq.
    - split; [now rewrite Hsh|]. split; [now apply alloc_compat_ptr|].
      intros x y Hx Hy _. rewrite <- Hv by done.
      apply alloc_val_ptr_frame. intros k. now apply Hst. }
  destruct (Hoper X vX HX) as (HwX & HcX & HvX).
  destruct (Hoper Y vY HY) as (HwY & HcY & HvY).
  destruct (Hf (shape hk) X Y Q s) as (s' & E & (Hs' & Hval & Hfr) & Hc);
    try done.
  { lia. }
  exists s'. split; [exact E|]. split; [|split].
  - split; [congruence|]. intros p k Hp. rewrite Hfr; [now apply Hst|].
    intros x y _ _ Heq. apply alloc_cell_ptr in Heq. now apply Hp.
  - intros qx qy Hqx Hqy x y Hx Hy Hne. rewrite HV' by done.
    unfold quad_update.
    destruct ((qx =? tx) && (qy =? ty)) eqn:Et.
    + apply andb_prop in Et as [E1 E2]. apply Z.eqb_eq in E1, E2. subst qx qy.
      fold Q in Hne |- *. rewrite Hval by (done || lia).
      now rewrite HvX, HvY.
    + rewrite Hfr; [now apply Hq|].
      intros x' y' Hx' Hy' Heq. symmetry in Heq. rewrite HnQ in Hx', Hy'.
      destruct (quadrants_apart qx qy tx ty x y x' y') as [Hqt1 Hqt2];
        [lia..|done|done|]. subst qx qy.
      rewrite !Z.eqb_refl in Et. done.
  - now rewrite HnQ in Hc.
Qed.

(** The eight operations that fold the seven products into [c]. *)
Lemma recombine (m0 m1 m2 m3 m4 m5 m6 : StrassenAlloc.matrix)
    (v0 v1 v2 v3 v4 v5 v6 : Z → Z → Z) (s : StrassenAlloc.state) :
  StrassenAlloc.st_heap s = h →
  (∀ V tx ty, quad_operand V tx ty m0 v0) →
  (∀ V tx ty, quad_operand V tx ty m1 v1) →
  (∀ V tx ty, quad_operand V tx ty m2 v2) →
  (∀ V tx ty, quad_operand V tx ty m3 v3) →
  (∀ V tx ty, quad_operand V tx ty m4 v4) →
  (∀ V tx ty, quad_operand V tx ty m5 v5) →
  (∀ V tx ty, quad_operand V tx ty m6 v6) →
  ∃ s',
    (let c00 := StrassenAlloc.matrix_sub c 0 0 in
     let c10 := StrassenAlloc.matrix_sub c 1 0 in
     let c01 := StrassenAlloc.matrix_sub c 0 1 in
     let c11 := StrassenAlloc.matrix_sub c 1 1 in
     s ← StrassenAlloc.sum m0 m3 c00 s;
     s ← StrassenAlloc.sum c00 m6 c00 s;
     s ← StrassenAlloc.sub c00 m4 c00 s;
     s ← StrassenAlloc.sum m2 m4 c01 s;
     s ← StrassenAlloc.sum m1 m3 c10 s;
     s ← StrassenAlloc.sum m0 m2 c11 s;
     s ← StrassenAlloc.sum c11 m5 c11 s;
     StrassenAlloc.sub c11 m1 c11 s) = StrassenAlloc.Return s'
    ∧ quad_stable (StrassenAlloc.st_heap s')
    ∧ quad_holds (StrassenAlloc.st_heap s')
        (quad4 (msub (madd (madd v0 v3) v6) v4) (madd v2 v4)
           (madd v1 v3) (msub (madd (madd v0 v2) v5) v1))
    ∧ counted 0 (8 * (m * m)) 0 (StrassenAlloc.st_stats s)
        (StrassenAlloc.st_stats s').
Proof.
  intros Hs T0 T1 T2 T3 T4 T5 T6. cbv zeta.
  set (w00 := λ x y, load h (alloc_cell (StrassenAlloc.matrix_sub c 0 0) x y)).
  set (w01 := λ x y, load h (alloc_cell (StrassenAlloc.matrix_sub c 0 1) x y)).
  set (w10 := λ x y, load h (alloc_cell (StrassenAlloc.matrix_sub c 1 0) x y)).
  set (w11 := λ x y, load h (alloc_cell (StrassenAlloc.matrix_sub c 1 1) x y)).
  assert (quad_stable (StrassenAlloc.st_heap s)) as St0 by (now rewrite Hs).
  assert (quad_holds (StrassenAlloc.st_heap s) (quad4 w00 w01 w10 w11)) as Q0.
  { rewrite Hs. now intros qx qy [-> | ->] [-> | ->] x y ? ? ?. }
  pose proof (λ V V' tx ty X vX Y vY s,
                quad_step int_add StrassenAlloc.sum V V' tx ty X vX Y vY s
                  (λ sh x y z t, alloc_sum_spec sh x y z t)) as Hsum.
  pose proof (λ V V' tx ty X vX Y vY s,
                quad_step int_sub StrassenAlloc.sub V V' tx ty X vX Y vY s
                  (λ sh x y z t, alloc_sub_spec sh x y z t)) as Hsub.
  assert (∀ V V' : Z → Z → Z → Z → Z,
            (∀ x y, V' 0 0 x y = V 0 0 x y) → (∀ x y, V' 0 1 x y = V 0 1 x y) →
            (∀ x y, V' 1 0 x y = V 1 0 x y) → (∀ x y, V' 1 1 x y = V 1 1 x y) →
            ∀ qx qy, qx = 0 ∨ qx = 1 → qy = 0 ∨ qy = 1 → ∀ x y,
              V' qx qy x y = V qx qy x y) as Hfour.
  { intros V V' H00 H01 H10 H11 qx qy [-> | ->] [-> | ->]; done. }
  destruct (Hsum _ (quad4 (madd v0 v3) w01 w10 w11) 0 0 m0 v0 m3 v3 s St0 Q0
              ltac:(lia) ltac:(lia) (T0 _ _ _) (T3 _ _ _))
    as (s1 & E1 & St1 & Q1 & C1); [apply Hfour; intros; cbv [quad4 quad_update Z.eqb Pos.eqb andb]; reflexivity|].
  rewrite E1. cbn [mbind StrassenAlloc.result_bind].
  destruct (Hsum _ (quad4 (madd (madd v0 v3) v6) w01 w10 w11) 0 0
              (StrassenAlloc.matrix_sub c 0 0) _ m6 v6 s1 St1 Q1
              ltac:(lia) ltac:(lia) (quad_operand_self _ _ _)
              (T6 _ _ _))
    as (s2 & E2 & St2 & Q2 & C2); [apply Hfour; intros; cbv [quad4 quad_update Z.eqb Pos.eqb andb]; reflexivity|].
  rewrite E2. cbn [mbind StrassenAlloc.result_bind].
  destruct (Hsub _ (quad4 (msub (madd (madd v0 v3) v6) v4) w01 w10 w11) 0 0
              (StrassenAlloc.matrix_sub c 0 0) _ m4 v4
              s2 St2 Q2 ltac:(lia) ltac:(lia)
              (quad_operand_self _ _ _) (T4 _ _ _))
    as (s3 & E3 & St3 & Q3 & C3); [apply Hfour; intros; cbv [quad4 quad_update Z.eqb Pos.eqb andb]; reflexivity|].
  rewrite E3. cbn [mbind StrassenAlloc.result_bind].
  destruct (Hsum _ (quad4 (msub (madd (madd v0 v3) v6) v4) (madd v2 v4) w10 w11)
              0 1 m2 v2 m4 v4 s3 St3 Q3 ltac:(lia) ltac:(lia)
              (T2 _ _ _) (T4 _ _ _))
    as (s4 & E4 & St4 & Q4 & C4); [apply Hfour; intros; cbv [quad4 quad_update Z.eqb Pos.eqb andb]; reflexivity|].
  rewrite E4. cbn [mbind StrassenAlloc.result_bind].
  destruct (Hsum _ (quad4 (msub (madd (madd v0 v3) v6) v4) (madd v2 v4)
                      (madd v1 v3) w11)
              1 0 m1 v1 m3 v3 s4 St4 Q4 ltac:(lia) ltac:(lia)
              (T1 _ _ _) (T3 _ _ _))
    as (s5 & E5 & St5 & Q5 & C5); [apply Hfour; intros; cbv [quad4 quad_update Z.eqb Pos.eqb andb]; reflexivity|].
  rewrite E5. cbn [mbind StrassenAlloc.result_bind].
  destruct (Hsum _ (quad4 (msub (madd (madd v0 v3) v6) v4) (madd v2 v4)
                      (madd v1 v3) (madd v0 v2))
              1 1 m0 v0 m2 v2 s5 St5 Q5 ltac:(lia) ltac:(lia)
              (T0 _ _ _) (T2 _ _ _))
    as (s6 & E6 & St6 & Q6 & C6); [apply Hfour; intros; cbv [quad4 quad_update Z.eqb Pos.eqb andb]; reflexivity|].
  rewrite E6. cbn [mbind StrassenAlloc.result_bind].
  destruct (Hsum _ (quad4 (msub (madd (madd v0 v3) v6) v4) (madd v2 v4)
                      (madd v1 v3) (madd (madd v0 v2) v5))
              1 1 (StrassenAlloc.matrix_sub c 1 1) _ m5 v5
              s6 St6 Q6 ltac:(lia) ltac:(lia)
              (quad_operand_self _ _ _) (T5 _ _ _))
    as (s7 & E7 & St7 & Q7 & C7); [apply Hfour; intros; cbv [quad4 quad_update Z.eqb Pos.eqb andb]; reflexivity|].
  rewrite E7. cbn [mbind StrassenAlloc.result_bind].
  destruct (Hsub _ (quad4 (msub (madd (madd v0 v3) v6) v4) (madd v2 v4)
                      (madd v1 v3) (msub (madd (madd v0 v2) v5) v1))
              1 1 (StrassenAlloc.matrix_sub c 1 1) _
              m1 v1 s7 St7 Q7 ltac:(lia) ltac:(lia)
              (quad_operand_self _ _ _) (T1 _ _ _))
    as (s8 & E8 & St8 & Q8 & C8); [apply Hfour; intros; cbv [quad4 quad_update Z.eqb Pos.eqb andb]; reflexivity|].
  exists s8. split; [exact E8|]. split; [exact St8|]. split; [exact Q8|].
  unfold counted in *. lia.
Qed.
End recombination.

(** ** The recursive case of [mul]: correctness *)

(** Strassen's recombination as the second program orders it. *)
Section alloc_identities.
Context (m : Z) (a00 a01 a10 a11 b00 b01 b10 b11 : Z → Z → Z).

Let W0 := mmul m (madd a00 a11) (madd b00 b11).
Let W1 := mmul m (madd a10 a11) b00.
Let W2 := mmul m a00 (msub b01 b11).
Let W3 := mmul m a11 (msub b10 b00).
Let W4 := mmul m (madd a00 a01) b11.
Let W5 := mmul m (msub a10 a00) (madd b00 b01).
Let W6 := mmul m (msub a01 a11) (madd b10 b11).

Lemma alloc_c00 x y :
  msub (madd (madd W0 W3) W6) W4 x y
  = wrap (zsum m (λ k, a00 x k * b00 k y) + zsum m (λ k, a01 x k * b10 k y)).
Proof. subst W0 W1 W2 W3 W4 W5 W6. strassen_algebra. Qed.

Lemma alloc_c01 x y :
  madd W2 W4 x y
  = wrap (zsum m (λ k, a00 x k * b01 k y) + zsum m (λ k, a01 x k * b11 k y)).
Proof. subst W0 W1 W2 W3 W4 W5 W6. strassen_algebra. Qed.

Lemma alloc_c10 x y :
  madd W1 W3 x y
  = wrap (zsum m (λ k, a10 x k * b00 k y) + zsum m (λ k, a11 x k * b10 k y)).
Proof. subst W0 W1 W2 W3 W4 W5 W6. strassen_algebra. Qed.

Lemma alloc_c11 x y :
  msub (madd (madd W0 W2) W5) W1 x y
  = wrap (zsum m (λ k, a10 x k * b01 k y) + zsum m (λ k, a11 x k * b11 k y)).
Proof. subst W0 W1 W2 W3 W4 W5 W6. strassen_algebra. Qed.
End alloc_identities.

(** A temporary of the live heap as an operand of the recombination. *)
Lemma live_quad_operand h0 m σ h c j T V tx ty :
  alloc_live h0 m σ h → σ !! j = Some T → (alloc_ptr c < length h0)%nat →
  quad_operand h c m V tx ty T.1 T.2.
Proof.
  intros (_ & _ & Htemps & _) Hj Hc.
  pose proof (proj1 (Forall_lookup _ _) Htemps j T Hj) as (HTe & HTn & HTp & HTv).
  right. split; [now apply alloc_exact_wf|]. split; [lia|done].
Qed.

(** The two halves of a row by a column. *)
Lemma alloc_product_split h a b n m x y (qx qy : Z) :
  0 ≤ n → m = StrassenAlloc.ceil_divide n →
  StrassenAlloc.mat_n a = n → StrassenAlloc.mat_n b = n →
  ((∀ u k, 0 ≤ u → n ≤ k → alloc_val h a u k = 0)
   ∨ (∀ k v, n ≤ k → 0 ≤ v → alloc_val h b k v = 0)) →
  0 ≤ x → 0 ≤ y → 0 ≤ qx → 0 ≤ qy →
  wrap (zsum m (λ k, alloc_val h (StrassenAlloc.matrix_sub a qx 0) x k
                     * alloc_val h (StrassenAlloc.matrix_sub b 0 qy) k y)
        + zsum m (λ k, alloc_val h (StrassenAlloc.matrix_sub a qx 1) x k
                       * alloc_val h (StrassenAlloc.matrix_sub b 1 qy) k y))
  = alloc_product h a b n (x + qx * m) (y + qy * m).
Proof.
  intros Hn Hm Ha Hb Hz Hx Hy Hqx Hqy. unfold alloc_product. f_equal.
  pose proof (alloc_ceil_bounds n Hn) as [Hb2 Hm0]. rewrite <- Hm in Hb2, Hm0.
  assert (zsum (m + m) (λ k, alloc_val h a (x + qx * m) k
                             * alloc_val h b k (y + qy * m))
          = zsum n (λ k, alloc_val h a (x + qx * m) k
                         * alloc_val h b k (y + qy * m))) as <-.
  { destruct (decide (m + m = n)) as [->|Hne]; [done|].
    replace (m + m) with (n + 1) by lia. rewrite zsum_succ by done.
    assert (alloc_val h a (x + qx * m) n * alloc_val h b n (y + qy * m) = 0)
      as ->; [|lia].
    destruct Hz as [Hz|Hz]; rewrite Hz; nia. }
  rewrite zsum_app by done.
  f_equal; apply zsum_ext; intros k Hk; unfold alloc_val;
    rewrite !alloc_cell_sub, Ha, Hb, <- Hm;
    apply (f_equal2 Z.mul); apply (f_equal (load h));
    apply (f_equal2 (alloc_cell _)); lia.
Qed.

(** One level of the recursion. *)
Section mul_split.
Context (self : StrassenAlloc.multiplier) (n m : Z) (K : Z * Z * Z).
Context (a b c : StrassenAlloc.matrix) (s : StrassenAlloc.state).
Hypothesis callee : alloc_multiplies self m K.
Hypothesis side_m : m = StrassenAlloc.ceil_divide n.
Hypothesis side_n : 0 ≤ n.
Hypothesis wf_a : alloc_wf (shape (StrassenAlloc.st_heap s)) a = true.
Hypothesis wf_b : alloc_wf (shape (StrassenAlloc.st_heap s)) b = true.
Hypothesis exact_c : alloc_exact (shape (StrassenAlloc.st_heap s)) c = true.
Hypothesis side_a : StrassenAlloc.mat_n a = n.
Hypothesis side_b : StrassenAlloc.mat_n b = n.
Hypothesis side_c : StrassenAlloc.mat_n c = n.
Hypothesis zero_beyond :
  (∀ x k, 0 ≤ x → n ≤ k → alloc_val (StrassenAlloc.st_heap s) a x k = 0)
  ∨ (∀ k y, n ≤ k → 0 ≤ y → alloc_val (StrassenAlloc.st_heap s) b k y = 0).

Ltac live_alloc :=
  match goal with
  | L : alloc_live ?h0 ?m ?σ (StrassenAlloc.st_heap ?s)
    |- context [StrassenAlloc.new_matrix ?m ?s] =>
      let T := fresh "T" in
      let s' := fresh "s" in
      let E := fresh "E" in
      let L' := fresh "L" in
      let C' := fresh "C" in
      destruct (StrassenAlloc.new_matrix m s) as [T s'] eqn:E;
      destruct (live_step_alloc h0 n m side_m side_n σ s T s' L E) as [L' C'];
      cbn [app] in L'; clear L E
  end.

Ltac live_finish E L L' :=
  cbn [op_matrix op_val lookup list_lookup fst snd insert list_insert]
    in E, L';
  rewrite E; cbn [mbind StrassenAlloc.result_bind]; clear E L.

Ltac live_fill lem j o1 o2 :=
  match goal with
  | L : alloc_live _ _ ?σ (StrassenAlloc.st_heap ?s) |- _ =>
      let s' := fresh "s" in
      let E := fresh "E" in
      let L' := fresh "L" in
      let C' := fresh "C" in
      destruct (lem σ s j _ o1 o2 L eq_refl eq_refl eq_refl)
        as (s' & E & L' & C');
      live_finish E L L'
  end.

Ltac live_mul lem j o1 o2 :=
  match goal with
  | L : alloc_live _ _ ?σ (StrassenAlloc.st_heap ?s) |- _ =>
      let s' := fresh "s" in
      let E := fresh "E" in
      let L' := fresh "L" in
      let C' := fresh "C" in
      destruct (lem σ s j _ o1 o2 callee L eq_refl (λ _ _, eq_refl)
                  eq_refl eq_refl eq_refl)
        as (s' & E & L' & C');
      live_finish E L L'
  end.

Lemma mul_split_spec :
  ∃ s', StrassenAlloc.mul_split self a b c s = StrassenAlloc.Return s'
    ∧ (∃ ext, shape (StrassenAlloc.st_heap s')
              = shape (StrassenAlloc.st_heap s) ++ ext)
    ∧ (∀ p k, (p < length (StrassenAlloc.st_heap s))%nat → p ≠ alloc_ptr c →
         load (StrassenAlloc.st_heap s') (Cell p k)
         = load (StrassenAlloc.st_heap s) (Cell p k))
    ∧ (∀ x y, 0 ≤ x < n → 0 ≤ y < n →
         alloc_val (StrassenAlloc.st_heap s') c x y
         = alloc_product (StrassenAlloc.st_heap s) a b n x y)
    ∧ counted (7 * K.1.1) (7 * K.1.2 + 18 * (m * m)) (7 * K.2 + 9 * (m * m))
        (StrassenAlloc.st_stats s) (StrassenAlloc.st_stats s').
Proof.
  set (h0 := StrassenAlloc.st_heap s) in *.
  assert (alloc_live h0 m [] (StrassenAlloc.st_heap s)) as L.
  { split; [|split; [|split]].
    - exists []. now rewrite app_nil_r.
    - done.
    - constructor.
    - constructor. }
  pose proof (live_step_sum h0 a b n m wf_a wf_b side_a side_b side_m side_n)
    as Hsum.
  pose proof (live_step_sub h0 a b n m wf_a wf_b side_a side_b side_m side_n)
    as Hsub.
  pose proof (live_step_mul h0 a b n m wf_a wf_b side_a side_b side_m side_n
                self K) as Hmul.
  unfold StrassenAlloc.mul_split. rewrite side_c, <- side_m.
  live_alloc. live_alloc. live_alloc.
  live_fill Hsum 0%nat (OpA 0 0) (OpA 1 1).
  live_fill Hsum 1%nat (OpB 0 0) (OpB 1 1).
  live_mul Hmul 2%nat (OpT 0) (OpT 1).
  live_alloc.
  live_fill Hsum 0%nat (OpA 1 0) (OpA 1 1).
  live_mul Hmul 3%nat (OpT 0) (OpB 0 0).
  live_alloc.
  live_fill Hsub 1%nat (OpB 0 1) (OpB 1 1).
  live_mul Hmul 4%nat (OpA 0 0) (OpT 1).
  live_alloc.
  live_fill Hsub 1%nat (OpB 1 0) (OpB 0 0).
  live_mul Hmul 5%nat (OpA 1 1) (OpT 1).
  live_alloc.
  live_fill Hsum 0%nat (OpA 0 0) (OpA 0 1).
  live_mul Hmul 6%nat (OpT 0) (OpB 1 1).
  live_alloc.
  live_fill Hsub 0%nat (OpA 1 0) (OpA 0 0).
  live_fill Hsum 1%nat (OpB 0 0) (OpB 0 1).
  live_mul Hmul 7%nat (OpT 0) (OpT 1).
  live_alloc.
  live_fill Hsub 0%nat (OpA 0 1) (OpA 1 1).
  live_fill Hsum 1%nat (OpB 1 0) (OpB 1 1).
  live_mul Hmul 8%nat (OpT 0) (OpT 1).
  pose proof L as ([ext Hext] & Hold & _ & _).
  set (h9 := StrassenAlloc.st_heap s25) in *.
  pose proof (alloc_exact_elim _ _ exact_c) as (wf_c & Hci & Hcj & HcN).
  pose proof (alloc_wf_elim _ _ wf_c) as (_ & _ & _ & _ & Hpc).
  rewrite length_shape in Hpc. fold h0 in Hpc.
  assert (alloc_exact (shape h9) c = true) as exact_c9.
  { rewrite Hext. now apply alloc_exact_app. }
  destruct (recombine h9 c m exact_c9 ltac:(now rewrite side_c)
              ltac:(now rewrite side_c) T1 T2 T3 T4 T5 T6 T7
              _ _ _ _ _ _ _ s25 eq_refl
              (λ V tx ty, live_quad_operand h0 m _ h9 c 2 _ V tx ty L eq_refl Hpc)
              (λ V tx ty, live_quad_operand h0 m _ h9 c 3 _ V tx ty L eq_refl Hpc)
              (λ V tx ty, live_quad_operand h0 m _ h9 c 4 _ V tx ty L eq_refl Hpc)
              (λ V tx ty, live_quad_operand h0 m _ h9 c 5 _ V tx ty L eq_refl Hpc)
              (λ V tx ty, live_quad_operand h0 m _ h9 c 6 _ V tx ty L eq_refl Hpc)
              (λ V tx ty, live_quad_operand h0 m _ h9 c 7 _ V tx ty L eq_refl Hpc)
              (λ V tx ty, live_quad_operand h0 m _ h9 c 8 _ V tx ty L eq_refl Hpc))
    as (s' & E & [Hsh Hst] & Hq & Cr).
  cbn [fst snd] in Hq.
  exists s'. split; [exact E|]. split; [|split; [|split]].
  - exists ext. now rewrite Hsh.
  - intros p k Hp Hne. rewrite Hst by done. now apply Hold.
  - intros x y Hx Hy.
    pose proof (alloc_ceil_bounds n side_n) as [Hb2 Hm0].
    rewrite <- side_m in Hb2, Hm0.
    assert (∃ qx x', (qx = 0 ∨ qx = 1) ∧ 0 ≤ x' < m ∧ x = x' + qx * m)
      as (qx & x' & Hqx & Hx' & ->).
    { destruct (decide (x < m)); [exists 0, x|exists 1, (x - m)]; lia. }
    assert (∃ qy y', (qy = 0 ∨ qy = 1) ∧ 0 ≤ y' < m ∧ y = y' + qy * m)
      as (qy & y' & Hqy & Hy' & ->).
    { destruct (decide (y < m)); [exists 0, y|exists 1, (y - m)]; lia. }
    rewrite <- (alloc_product_split h0 a b n m x' y' qx qy)
      by (done || lia).
    unfold alloc_val at 1.
    pose proof (alloc_exact_cell _ _ (x' + qx * m) (y' + qy * m) exact_c
                  ltac:(lia) ltac:(lia)) as Hne.
    assert (alloc_cell c (x' + qx * m) (y' + qy * m)
            = alloc_cell (StrassenAlloc.matrix_sub c qx qy) x' y') as Hcell.
    { now rewrite alloc_cell_sub, side_c, <- side_m. }
    rewrite Hcell in Hne |- *.
    rewrite (Hq qx qy Hqx Hqy x' y' Hx' Hy' Hne).
    destruct Hqx as [-> | ->], Hqy as [-> | ->]; cbv [quad4 Z.eqb].
    + apply alloc_c00.
    + apply alloc_c01.
    + apply alloc_c10.
    + apply alloc_c11.
  - unfold counted in *. lia.
Qed.
End mul_split.

(** ** [mul] multiplies *)

Lemma alloc_mul_multiplies cutoff fuel :
  ∀ n K, 0 ≤ n → mul_counts cutoff fuel n = Some K →
    alloc_multiplies (StrassenAlloc.mul cutoff fuel) n K.
Proof.
  induction fuel as [|fuel IH]; intros n K Hn HK; [done|].
  intros a b c s Ha Hb Hc Hna Hnb Hnc Hpa Hpb Hz Hc0.
  cbn [StrassenAlloc.mul]. unfold StrassenAlloc.mul_body.
  rewrite Hna, Hnb, Hnc, Z.eqb_refl. cbn [andb negb].
  cbn [mul_counts] in HK.
  destruct (n <=? cutoff) eqn:Ecut.
  - injection HK as <-. cbn [fst snd].
    destruct (alloc_mul_base_spec (shape (StrassenAlloc.st_heap s)) a b c s)
      as (s' & E & (Hs' & Hval & Hfr) & Hcnt); try done.
    { now apply alloc_exact_wf. }
    { lia. }
    rewrite Hnc in Hval, Hfr, Hcnt.
    exists s'. split; [exact E|]. split; [|split; [|split]].
    + exists []. now rewrite app_nil_r.
    + intros p k _ Hp. apply Hfr. intros x y _ _ Heq.
      apply alloc_cell_ptr in Heq. congruence.
    + intros x y Hx Hy. unfold alloc_val at 1.
      rewrite Hval; [|done|done|apply (alloc_exact_cell _ _ _ _ Hc); lia].
      rewrite accumulate_wrap by lia.
      fold (alloc_val (StrassenAlloc.st_heap s) c x y). rewrite Hc0 by done.
      unfold alloc_product. apply wrap_eq_iff. rewrite Z.add_0_l.
      apply zsum_eqw. intros k Hk. unfold int_mul. apply wrap_eqw.
    + done.
  - destruct (mul_counts cutoff fuel (StrassenAlloc.ceil_divide n))
      as [[[mults adds] ints]|] eqn:EK; [|done].
    cbn [mbind option_bind] in HK. injection HK as <-. cbn [fst snd].
    pose proof (alloc_ceil_bounds n Hn) as [_ Hm].
    apply (mul_split_spec (StrassenAlloc.mul cutoff fuel) n
             (StrassenAlloc.ceil_divide n) (mults, adds, ints) a b c s);
      try done.
    now apply IH.
Qed.

(** Fuel above the side is enough when the cutoff is at least 1. *)
Lemma mul_counts_total cutoff fuel :
  1 ≤ cutoff → ∀ n, 0 ≤ n → (Z.to_nat n < fuel)%nat →
  ∃ K, mul_counts cutoff fuel n = Some K.
Proof.
  intros Hc. induction fuel as [|fuel IH]; intros n Hn Hf; [lia|].
  cbn [mul_counts]. destruct (n <=? cutoff) eqn:E; [by eexists|].
  apply Z.leb_gt in E.
  pose proof (ceil_half_bounds n ltac:(lia)) as Hb. unfold ceil_half in Hb.
  rewrite <- ceil_divide_ceiling in Hb by lia.
  destruct (IH (StrassenAlloc.ceil_divide n)) as [[[mults adds] ints] ->].
  - rewrite alloc_ceil_divide. lia.
  - rewrite alloc_ceil_divide. lia.
  - by eexists.
Qed.

(** More fuel changes nothing. *)
Lemma mul_counts_fuel cutoff fuel fuel' n K :
  mul_counts cutoff fuel n = Some K → (fuel ≤ fuel')%nat →
  mul_counts cutoff fuel' n = Some K.
Proof.
  revert fuel' n K. induction fuel as [|fuel IH]; intros fuel' n K HK Hf; [done|].
  destruct fuel' as [|fuel']; [lia|]. cbn [mul_counts] in *.
  destruct (n <=? cutoff); [done|].
  destruct (mul_counts cutoff fuel (StrassenAlloc.ceil_divide n)) as [K'|] eqn:EK;
    [|done].
  now rewrite (IH fuel' _ K' EK) by lia.
Qed.

Lemma lookup_eq_of_load_prefix (h h' : heap) p :
  (∃ ext, shape h' = shape h ++ ext) →
  (∀ k, load h' (Cell p k) = load h (Cell p k)) →
  (p < length h)%nat →
  h' !! p = h !! p.
Proof.
  intros [ext Hs] Hl Hp.
  assert (length <$> (h' !! p) = length <$> (h !! p)) as Hlen.
  { rewrite <- !list_lookup_fmap. unfold shape in Hs. rewrite Hs.
    apply lookup_app_l. now rewrite length_fmap. }
  destruct (h' !! p) as [v'|] eqn:E', (h !! p) as [v|] eqn:E; simpl in Hlen;
    try done.
  f_equal. injection Hlen as Hlen. apply list_eq. intros k.
  specialize (Hl k). simpl in Hl. rewrite E, E' in Hl. simpl in Hl.
  destruct (v' !! k) as [z'|] eqn:Ek', (v !! k) as [z|] eqn:Ek; simpl in Hl;
    try congruence.
  - apply lookup_lt_Some in Ek'. apply lookup_ge_None in Ek. lia.
  - apply lookup_lt_Some in Ek. apply lookup_ge_None in Ek'. lia.
Qed.

(** The matrices [main] allocates and fills, seen from the views. *)
Lemma alloc_val_whole h p N x y :
  0 ≤ N → vsize (shape h) p = N * N → 0 ≤ x < N → 0 ≤ y < N →
  alloc_val h (StrassenAlloc.Matrix 0 0 N (StrassenAlloc.MatrixData p N)) x y
  = default 0 (h !! p ≫= λ v, v !! Z.to_nat (x + N * y)).
Proof.
  intros HN Hs Hx Hy. unfold alloc_val, alloc_cell. simpl.
  assert ((x + 0 <? N) && (y + 0 <? N) = true) as ->
    by (rewrite andb_true_iff, !Z.ltb_lt; lia).
  simpl. now rewrite !Z.add_0_r.
Qed.

(** What [main] computes: the product, with the inputs left alone, and the
    counters of [mul] in the statistics; the three matrices of [main] are
    taken off the allocations as the [int] product they are computed
    as. *)
Lemma main_mul_product N cutoff va vb K fuel :
  1 ≤ N → Z.of_nat (length va) = N * N → Z.of_nat (length vb) = N * N →
  mul_counts cutoff fuel N = Some K →
  ∃ h, StrassenAlloc.main_mul fuel N cutoff va vb
       = StrassenAlloc.Return
           (StrassenAlloc.Matrix 0 0 N (StrassenAlloc.MatrixData 2 N),
            StrassenAlloc.State h
              (StrassenAlloc.GlobalStats K.1.1 K.1.2
                 (K.2 + 3 * (N * N) - int_mul (int_mul 3 N) N)))
    ∧ h !! 0%nat = Some va ∧ h !! 1%nat = Some vb
    ∧ ∀ x y, 0 ≤ x < N → 0 ≤ y < N →
        alloc_val h (StrassenAlloc.Matrix 0 0 N (StrassenAlloc.MatrixData 2 N)) x y
        = matrix_product N va vb x y.
Proof.
  intros HN La Lb HK. unfold StrassenAlloc.main_mul, StrassenAlloc.new_matrix.
  cbn [StrassenAlloc.st_heap StrassenAlloc.st_stats length
       StrassenAlloc.multiplications StrassenAlloc.additions
       StrassenAlloc.ints_allocated].
  set (a := StrassenAlloc.Matrix 0 0 N (StrassenAlloc.MatrixData 0 N)).
  set (b := StrassenAlloc.Matrix 0 0 N (StrassenAlloc.MatrixData 1 N)).
  set (c := StrassenAlloc.Matrix 0 0 N (StrassenAlloc.MatrixData 2 N)).
  set (h1 := [va; vb] ++ [replicate (Z.to_nat (N * N)) 0]).
  set (t1 := StrassenAlloc.GlobalStats 0 0 (2 * (N * N) + N * N)).
  assert (shape h1 = [length va; length vb; Z.to_nat (N * N)]) as Hsh.
  { unfold h1, shape. simpl. now rewrite length_replicate. }
  assert (∀ p, (p < 3)%nat → vsize (shape h1) p = N * N) as Hvs.
  { intros p Hp. rewrite Hsh. unfold vsize.
    destruct p as [|[|[|p]]]; simpl; lia. }
  assert (∀ v, (alloc_ptr v < 3)%nat → StrassenAlloc.mat_i v = 0 →
               StrassenAlloc.mat_j v = 0 →
               StrassenAlloc.md_N (StrassenAlloc.mat_data v) = N →
               StrassenAlloc.mat_n v = N →
               alloc_exact (shape h1) v = true) as Hex.
  { intros v Hp Hi Hj HvN Hvn. unfold alloc_exact, alloc_wf.
    rewrite Hi, Hj, HvN, Hvn, (Hvs _ Hp), Hsh.
    rewrite !andb_true_iff, !Z.leb_le, !Z.eqb_eq, bool_decide_eq_true.
    simpl. repeat split; try done; lia. }
  destruct (alloc_mul_multiplies cutoff fuel N K ltac:(lia) HK a b c
              (StrassenAlloc.State h1 t1))
    as (s' & E & [ext Hext] & Hfr & Hval & Hcnt).
  - apply alloc_exact_wf, Hex; done || (unfold alloc_ptr; simpl; lia).
  - apply alloc_exact_wf, Hex; done || (unfold alloc_ptr; simpl; lia).
  - apply Hex; done || (unfold alloc_ptr; simpl; lia).
  - done.
  - done.
  - done.
  - done.
  - done.
  - left. intros x k Hx Hk.
    apply (alloc_exact_beyond (shape h1)); [|simpl; lia].
    apply Hex; done || (unfold alloc_ptr; simpl; lia).
  - intros x y Hx Hy. cbn [StrassenAlloc.st_heap].
    unfold c. rewrite alloc_val_whole by (done || lia || (apply Hvs; lia)).
    unfold h1. simpl.
    destruct (replicate _ _ !! _) eqn:Ek; [|done].
    now apply lookup_replicate in Ek as [-> _].
  - cbn [StrassenAlloc.st_heap StrassenAlloc.st_stats] in *.
    rewrite E. cbn [mbind StrassenAlloc.result_bind].
    assert (∀ p, (p < 2)%nat → StrassenAlloc.st_heap s' !! p = h1 !! p) as Hkeep.
    { intros p Hp. apply lookup_eq_of_load_prefix.
      - by eexists.
      - intros k. apply Hfr; [unfold h1; simpl; lia|].
        unfold c, alloc_ptr. simpl. lia.
      - unfold h1. simpl. lia. }
    exists (StrassenAlloc.st_heap s'). split; [|split; [|split]].
    + do 2 f_equal. destruct s' as [h' [t1' t2' t3']].
      destruct Hcnt as (H1 & H2 & H3). simpl in H1, H2, H3 |- *.
      rewrite H1, H2, H3. do 2 f_equal; lia.
    + now rewrite Hkeep by lia.
    + now rewrite Hkeep by lia.
    + intros x y Hx Hy. rewrite Hval by done. unfold alloc_product, matrix_product.
      f_equal. apply zsum_ext. intros k Hk.
      unfold a, b. rewrite !alloc_val_whole by (done || lia || (apply Hvs; lia)).
      reflexivity.
Qed.

(** ** A cutoff below 1 *)

(** Up to its first recursive call [mul] allocates and adds; what it then
    calls itself on is as well-formed as what it was called on. *)
Lemma mul_split_first_call self n a b c s :
  1 ≤ n →
  alloc_wf (shape (StrassenAlloc.st_heap s)) a = true →
  alloc_wf (shape (StrassenAlloc.st_heap s)) b = true →
  StrassenAlloc.mat_n a = n → StrassenAlloc.mat_n b = n →
  StrassenAlloc.mat_n c = n →
  ∃ a' b' c' s' (rest : StrassenAlloc.state → StrassenAlloc.result StrassenAlloc.state),
    StrassenAlloc.mul_split self a b c s = self a' b' c' s' ≫= rest
    ∧ alloc_wf (shape (StrassenAlloc.st_heap s')) a' = true
    ∧ alloc_wf (shape (StrassenAlloc.st_heap s')) b' = true
    ∧ StrassenAlloc.mat_n a' = StrassenAlloc.ceil_divide n
    ∧ StrassenAlloc.mat_n b' = StrassenAlloc.ceil_divide n
    ∧ StrassenAlloc.mat_n c' = StrassenAlloc.ceil_divide n.
Proof.
  intros Hn wf_a wf_b side_a side_b side_c.
  set (m := StrassenAlloc.ceil_divide n).
  assert (m = StrassenAlloc.ceil_divide n) as side_m by done.
  assert (0 ≤ n) as side_n by lia.
  set (h0 := StrassenAlloc.st_heap s) in *.
  assert (alloc_live h0 m [] (StrassenAlloc.st_heap s)) as L.
  { split; [|split; [|split]].
    - exists []. now rewrite app_nil_r.
    - done.
    - constructor.
    - constructor. }
  pose proof (live_step_sum h0 a b n m wf_a wf_b side_a side_b side_m side_n)
    as Hsum.
  unfold StrassenAlloc.mul_split. rewrite side_c. fold m.
  destruct (StrassenAlloc.new_matrix m s) as [T0 s1] eqn:E0.
  destruct (live_step_alloc h0 n m side_m side_n _ s T0 s1 L E0) as [L1 _].
  destruct (StrassenAlloc.new_matrix m s1) as [T1 s2] eqn:E1.
  destruct (live_step_alloc h0 n m side_m side_n _ s1 T1 s2 L1 E1) as [L2 _].
  destruct (StrassenAlloc.new_matrix m s2) as [T2 s3] eqn:E2.
  destruct (live_step_alloc h0 n m side_m side_n _ s2 T2 s3 L2 E2) as [L3 _].
  cbn [app] in L3.
  destruct (Hsum _ s3 0%nat _ (OpA 0 0) (OpA 1 1) L3 eq_refl eq_refl eq_refl)
    as (s4 & E4 & L4 & _).
  cbn [op_matrix op_val lookup list_lookup fst snd insert list_insert] in E4, L4.
  rewrite E4. cbn [mbind StrassenAlloc.result_bind].
  destruct (Hsum _ s4 1%nat _ (OpB 0 0) (OpB 1 1) L4 eq_refl eq_refl eq_refl)
    as (s5 & E5 & L5 & _).
  cbn [op_matrix op_val lookup list_lookup fst snd insert list_insert] in E5, L5.
  rewrite E5. cbn [mbind StrassenAlloc.result_bind].
  destruct L5 as (_ & _ & Htemps & _).
  pose proof (proj1 (Forall_lookup _ _) Htemps 0%nat _ eq_refl) as (He0 & Hn0 & _).
  pose proof (proj1 (Forall_lookup _ _) Htemps 1%nat _ eq_refl) as (He1 & Hn1 & _).
  pose proof (proj1 (Forall_lookup _ _) Htemps 2%nat _ eq_refl) as (He2 & Hn2 & _).
  cbn [fst] in *.
  eexists T0, T1, T2, s5, _. split; [reflexivity|].
  split; [now apply alloc_exact_wf|]. split; [now apply alloc_exact_wf|]. done.
Qed.

(** With a cutoff below 1 no amount of fuel lets [mul] finish: a matrix of
    side 1 is split into matrices of side 1. *)
Lemma alloc_mul_out_of_fuel cutoff fuel :
  cutoff ≤ 0 → ∀ n a b c s, 1 ≤ n →
  alloc_wf (shape (StrassenAlloc.st_heap s)) a = true →
  alloc_wf (shape (StrassenAlloc.st_heap s)) b = true →
  StrassenAlloc.mat_n a = n → StrassenAlloc.mat_n b = n →
  StrassenAlloc.mat_n c = n →
  StrassenAlloc.mul cutoff fuel a b c s = StrassenAlloc.OutOfFuel.
Proof.
  intros Hc. induction fuel as [|fuel IH]; intros n a b c s Hn Ha Hb Hna Hnb Hnc;
    [done|].
  cbn [StrassenAlloc.mul]. unfold StrassenAlloc.mul_body.
  rewrite Hna, Hnb, Hnc, Z.eqb_refl. cbn [andb negb].
  assert ((n <=? cutoff) = false) as -> by (apply Z.leb_gt; lia).
  destruct (mul_split_first_call (StrassenAlloc.mul cutoff fuel) n a b c s)
    as (a' & b' & c' & s' & rest & -> & Ha' & Hb' & Hna' & Hnb' & Hnc');
    try done.
  rewrite (IH (StrassenAlloc.ceil_divide n)); try done.
  pose proof (alloc_ceil_bounds n ltac:(lia)). lia.
Qed.

(** ** The allocating program: what it guarantees *)

(** X17.  [matrix::at] and [matrix::set] of the second program, on a buffer
    of side [N] whose vector holds [N * N] cells, at the buffer coordinates
    [X = x + i], [Y = y + j]: inside the buffer the cell [(X, Y)] is read
    and written, and nothing else is written; at or beyond the side, in
    either coordinate, the read yields 0 and the write is dropped.  There
    is no check from below: a negative linear index throws, and a negative
    [X] whose index is not negative reads a cell of the previous column. *)
Theorem alloc_matrix_access (h : heap) (m : StrassenAlloc.matrix) (x y v : Z) :
  let N := StrassenAlloc.md_N (StrassenAlloc.mat_data m) in
  let p := StrassenAlloc.md_data (StrassenAlloc.mat_data m) in
  let X := x + StrassenAlloc.mat_i m in
  let Y := y + StrassenAlloc.mat_j m in
  0 ≤ N → vsize (shape h) p = N * N →
  (0 ≤ X < N → 0 ≤ Y < N →
     StrassenAlloc.matrix_at h m x y
     = StrassenAlloc.Return (load h (Cell p (Z.to_nat (X + N * Y))))
     ∧ ∃ h', StrassenAlloc.matrix_set m x y v h = StrassenAlloc.Return h'
         ∧ StrassenAlloc.matrix_at h' m x y = StrassenAlloc.Return v
         ∧ ∀ r, r ≠ Cell p (Z.to_nat (X + N * Y)) → load h' r = load h r)
  ∧ (N ≤ X ∨ N ≤ Y →
     StrassenAlloc.matrix_at h m x y = StrassenAlloc.Return 0
     ∧ StrassenAlloc.matrix_set m x y v h = StrassenAlloc.Return h)
  ∧ (X < N → Y < N → X + N * Y < 0 →
     StrassenAlloc.matrix_at h m x y = StrassenAlloc.Abort
     ∧ StrassenAlloc.matrix_set m x y v h = StrassenAlloc.Abort)
  ∧ (X < 0 → Y < N → 0 ≤ X + N * Y →
     StrassenAlloc.matrix_at h m x y
     = StrassenAlloc.Return (load h (Cell p (Z.to_nat (X + N * Y))))).
Proof.
  intros N p X Y HN Hs.
  unfold StrassenAlloc.matrix_at, StrassenAlloc.matrix_set,
    StrassenAlloc.vector_at, StrassenAlloc.vector_put.
  fold N p X Y. rewrite Hs.
  split; [|split; [|split]].
  - intros HX HY.
    assert ((X <? N) && (Y <? N) = true) as ->
      by (rewrite andb_true_iff, !Z.ltb_lt; lia).
    assert ((0 <=? X + N * Y) && (X + N * Y <? N * N) = true) as Hin
      by (rewrite andb_true_iff, Z.leb_le, Z.ltb_lt; nia).
    rewrite Hin. split; [done|]. eexists. split; [reflexivity|].
    rewrite shape_store, Hs, Hin. split.
    + f_equal. apply load_store_same. rewrite Hs. nia.
    + intros r Hr. now apply load_store_other.
  - intros Hout.
    assert ((X <? N) && (Y <? N) = false) as ->
      by (rewrite andb_false_iff, !Z.ltb_ge; lia).
    done.
  - intros HX HY Hneg.
    assert ((X <? N) && (Y <? N) = true) as ->
      by (rewrite andb_true_iff, !Z.ltb_lt; lia).
    assert ((0 <=? X + N * Y) = false) as -> by (apply Z.leb_gt; lia).
    done.
  - intros HX HY Hpos.
    assert ((X <? N) && (Y <? N) = true) as ->
      by (rewrite andb_true_iff, !Z.ltb_lt; lia).
    assert ((0 <=? X + N * Y) && (X + N * Y <? N * N) = true) as ->
      by (rewrite andb_true_iff, Z.leb_le, Z.ltb_lt; nia).
    done.
Qed.

Lemma alloc_matrix_access_witness :
  let h := [[1; 2; 3; 4; 5; 6; 7; 8; 9]] in
  let m := StrassenAlloc.Matrix 1 1 2 (StrassenAlloc.MatrixData 0 3) in
  (0 ≤ 1 + 1 < 3 → 0 ≤ 0 + 1 < 3 →
     StrassenAlloc.matrix_at h m 1 0
     = StrassenAlloc.Return (load h (Cell 0 (Z.to_nat (1 + 1 + 3 * (0 + 1)))))
     ∧ ∃ h', StrassenAlloc.matrix_set m 1 0 42 h = StrassenAlloc.Return h'
         ∧ StrassenAlloc.matrix_at h' m 1 0 = StrassenAlloc.Return 42
         ∧ ∀ r, r ≠ Cell 0 (Z.to_nat (1 + 1 + 3 * (0 + 1))) →
             load h' r = load h r)
  ∧ (3 ≤ 1 + 1 ∨ 3 ≤ 0 + 1 →
     StrassenAlloc.matrix_at h m 1 0 = StrassenAlloc.Return 0
     ∧ StrassenAlloc.matrix_set m 1 0 42 h = StrassenAlloc.Return h)
  ∧ (1 + 1 < 3 → 0 + 1 < 3 → 1 + 1 + 3 * (0 + 1) < 0 →
     StrassenAlloc.matrix_at h m 1 0 = StrassenAlloc.Abort
     ∧ StrassenAlloc.matrix_set m 1 0 42 h = StrassenAlloc.Abort)
  ∧ (1 + 1 < 0 → 0 + 1 < 3 → 0 ≤ 1 + 1 + 3 * (0 + 1) →
     StrassenAlloc.matrix_at h m 1 0
     = StrassenAlloc.Return (load h (Cell 0 (Z.to_nat (1 + 1 + 3 * (0 + 1)))))).
Proof.
  intros h m. apply (alloc_matrix_access h m 1 0 42); [simpl; lia|reflexivity].
Defined.

(** X18.  The lambdas [sum] and [sub] of the second program: on well-formed
    views, with each input either the target itself or in another buffer,
    they return, every cell of the target inside its buffer holds the sum
    (the difference) of what the inputs held, no other cell has changed,
    and [stats.additions] has grown by [n * n]. *)
Theorem alloc_sum_sub (a b c : StrassenAlloc.matrix) (s : StrassenAlloc.state) :
  let h := StrassenAlloc.st_heap s in
  let n := StrassenAlloc.mat_n c in
  alloc_wf (shape h) a = true → alloc_wf (shape h) b = true →
  alloc_wf (shape h) c = true → 0 ≤ n →
  a = c ∨ alloc_ptr a ≠ alloc_ptr c → b = c ∨ alloc_ptr b ≠ alloc_ptr c →
  (∃ s', StrassenAlloc.sum a b c s = StrassenAlloc.Return s'
     ∧ alloc_written (shape h) c
         (λ x y, int_add (alloc_val h a x y) (alloc_val h b x y))
         h (StrassenAlloc.st_heap s')
     ∧ counted 0 (n * n) 0 (StrassenAlloc.st_stats s) (StrassenAlloc.st_stats s'))
  ∧ (∃ s', StrassenAlloc.sub a b c s = StrassenAlloc.Return s'
       ∧ alloc_written (shape h) c
           (λ x y, int_sub (alloc_val h a x y) (alloc_val h b x y))
           h (StrassenAlloc.st_heap s')
       ∧ counted 0 (n * n) 0 (StrassenAlloc.st_stats s)
           (StrassenAlloc.st_stats s')).
Proof.
  intros h n Ha Hb Hc Hn Hac Hbc.
  assert (∀ v, v = c ∨ alloc_ptr v ≠ alloc_ptr c → alloc_compat v c) as Hcompat.
  { intros v [-> | Hp]; [exact (alloc_cell_inj _ _ Hc)|now apply alloc_compat_ptr]. }
  split.
  - apply alloc_sum_spec; auto.
  - apply alloc_sub_spec; auto.
Qed.

Lemma alloc_sum_sub_witness :
  let s := StrassenAlloc.State [[1; 2; 3; 4]; [10; 20; 30; 40; 50; 60; 70; 80; 90]]
             (StrassenAlloc.GlobalStats 0 0 0) in
  let a := StrassenAlloc.Matrix 0 0 2 (StrassenAlloc.MatrixData 0 2) in
  let c := StrassenAlloc.Matrix 2 2 2 (StrassenAlloc.MatrixData 1 3) in
  let h := StrassenAlloc.st_heap s in
  (∃ s', StrassenAlloc.sum a c c s = StrassenAlloc.Return s'
     ∧ alloc_written (shape h) c
         (λ x y, int_add (alloc_val h a x y) (alloc_val h c x y))
         h (StrassenAlloc.st_heap s')
     ∧ counted 0 (2 * 2) 0 (StrassenAlloc.st_stats s) (StrassenAlloc.st_stats s'))
  ∧ (∃ s', StrassenAlloc.sub a c c s = StrassenAlloc.Return s'
       ∧ alloc_written (shape h) c
           (λ x y, int_sub (alloc_val h a x y) (alloc_val h c x y))
           h (StrassenAlloc.st_heap s')
       ∧ counted 0 (2 * 2) 0 (StrassenAlloc.st_stats s)
           (StrassenAlloc.st_stats s')).
Proof.
  intros s a c h.
  apply (alloc_sum_sub a c c s);
    first [reflexivity | simpl; lia | by left | right; vm_compute; lia].
Defined.

(** X19.  The base case of [mul] accumulates: called on matrices of side
    [n <= cutoff] it adds the product to what [c] held, so [c] has to be
    zeroed by the caller (a fresh [matrix(N)] is); it counts [n³]
    multiplications and [n³] additions and allocates nothing. *)
Theorem alloc_mul_base_accumulates cutoff fuel (a b c : StrassenAlloc.matrix)
    (s : StrassenAlloc.state) :
  let h := StrassenAlloc.st_heap s in
  let n := StrassenAlloc.mat_n c in
  n ≤ cutoff → 0 ≤ n →
  alloc_wf (shape h) a = true → alloc_wf (shape h) b = true →
  alloc_exact (shape h) c = true →
  StrassenAlloc.mat_n a = n → StrassenAlloc.mat_n b = n →
  alloc_ptr a ≠ alloc_ptr c → alloc_ptr b ≠ alloc_ptr c →
  ∃ s', StrassenAlloc.mul cutoff (S fuel) a b c s = StrassenAlloc.Return s'
    ∧ shape (StrassenAlloc.st_heap s') = shape h
    ∧ (∀ x y, 0 ≤ x < n → 0 ≤ y < n →
         alloc_val (StrassenAlloc.st_heap s') c x y
         = wrap (alloc_val h c x y
                 + zsum n (λ z, alloc_val h a x z * alloc_val h b z y)))
    ∧ (∀ p k, p ≠ alloc_ptr c →
         load (StrassenAlloc.st_heap s') (Cell p k) = load h (Cell p k))
    ∧ counted (n * n * n) (n * n * n) 0 (StrassenAlloc.st_stats s)
        (StrassenAlloc.st_stats s').
Proof.
  intros h n Hcut Hn Ha Hb Hc Hna Hnb Hpa Hpb.
  cbn [StrassenAlloc.mul]. unfold StrassenAlloc.mul_body.
  fold n. rewrite Hna, Hnb, Z.eqb_refl. cbn [andb negb].
  assert ((n <=? cutoff) = true) as -> by (now apply Z.leb_le).
  destruct (alloc_mul_base_spec (shape h) a b c s)
    as (s' & E & (Hs' & Hval & Hfr) & Hcnt); try done.
  { now apply alloc_exact_wf. }
  fold n in Hval, Hfr, Hcnt.
  exists s'. split; [exact E|]. split; [done|]. split; [|split; [|done]].
  - intros x y Hx Hy. unfold alloc_val at 1.
    rewrite Hval; [|done|done|apply (alloc_exact_cell _ _ _ _ Hc); done].
    rewrite accumulate_wrap by lia. apply wrap_eq_iff.
    fold (alloc_val h c x y).
    apply eqw_add; [reflexivity|].
    apply zsum_eqw. intros k Hk. unfold int_mul. apply wrap_eqw.
  - intros p k Hp. apply Hfr. intros x y _ _ Heq.
    apply alloc_cell_ptr in Heq. congruence.
Qed.

Lemma alloc_mul_base_accumulates_witness :
  let s := StrassenAlloc.State [[1; 3; 2; 4]; [5; 7; 6; 8]; [100; 0; 0; 0]]
             (StrassenAlloc.GlobalStats 0 0 0) in
  let a := StrassenAlloc.Matrix 0 0 2 (StrassenAlloc.MatrixData 0 2) in
  let b := StrassenAlloc.Matrix 0 0 2 (StrassenAlloc.MatrixData 1 2) in
  let c := StrassenAlloc.Matrix 0 0 2 (StrassenAlloc.MatrixData 2 2) in
  let h := StrassenAlloc.st_heap s in
  ∃ s', StrassenAlloc.mul 2 1 a b c s = StrassenAlloc.Return s'
    ∧ shape (StrassenAlloc.st_heap s') = shape h
    ∧ (∀ x y, 0 ≤ x < 2 → 0 ≤ y < 2 →
         alloc_val (StrassenAlloc.st_heap s') c x y
         = wrap (alloc_val h c x y
                 + zsum 2 (λ z, alloc_val h a x z * alloc_val h b z y)))
    ∧ (∀ p k, p ≠ alloc_ptr c →
         load (StrassenAlloc.st_heap s') (Cell p k) = load h (Cell p k))
    ∧ counted (2 * 2 * 2) (2 * 2 * 2) 0 (StrassenAlloc.st_stats s)
        (StrassenAlloc.st_stats s').
Proof.
  intros s a b c h.
  apply (alloc_mul_base_accumulates 2 0 a b c s);
    first [reflexivity | simpl; lia | vm_compute; lia].
Defined.

(** X20.  [mul] of the second program multiplies: with a cutoff of at least
    1, well-formed inputs of the side of [c] of which one is a buffer of
    its own, and [c] a zeroed buffer of its own, the call returns, [c]
    holds the product in machine arithmetic, no cell of another vector
    that existed before has changed, and the counters have moved by what
    [mul_counts] computes. *)
Theorem alloc_mul_correct cutoff fuel (a b c : StrassenAlloc.matrix)
    (s : StrassenAlloc.state) :
  let h := StrassenAlloc.st_heap s in
  let n := StrassenAlloc.mat_n c in
  1 ≤ cutoff → (Z.to_nat n < fuel)%nat →
  alloc_wf (shape h) a = true → alloc_wf (shape h) b = true →
  alloc_exact (shape h) a || alloc_exact (shape h) b = true →
  alloc_exact (shape h) c = true →
  StrassenAlloc.mat_n a = n → StrassenAlloc.mat_n b = n →
  alloc_ptr a ≠ alloc_ptr c → alloc_ptr b ≠ alloc_ptr c →
  (∀ x y, 0 ≤ x < n → 0 ≤ y < n → alloc_val h c x y = 0) →
  ∃ s' K, StrassenAlloc.mul cutoff fuel a b c s = StrassenAlloc.Return s'
    ∧ mul_counts cutoff fuel n = Some K
    ∧ (∀ x y, 0 ≤ x < n → 0 ≤ y < n →
         alloc_val (StrassenAlloc.st_heap s') c x y = alloc_product h a b n x y)
    ∧ (∀ p k, (p < length h)%nat → p ≠ alloc_ptr c →
         load (StrassenAlloc.st_heap s') (Cell p k) = load h (Cell p k))
    ∧ counted K.1.1 K.1.2 K.2 (StrassenAlloc.st_stats s)
        (StrassenAlloc.st_stats s').
Proof.
  intros h n Hcut Hf Ha Hb Hab Hc Hna Hnb Hpa Hpb Hzero.
  assert (0 ≤ n) as Hn.
  { pose proof (alloc_exact_elim _ _ Hc) as (Hwf & _ & _ & HcN).
    apply alloc_wf_elim in Hwf as (_ & _ & HN & _). unfold n. lia. }
  destruct (mul_counts_total cutoff fuel Hcut n Hn Hf) as [K HK].
  destruct (alloc_mul_multiplies cutoff fuel n K Hn HK a b c s)
    as (s' & E & _ & Hfr & Hval & Hcnt); try done.
  { apply orb_prop in Hab as [He|He]; [left|right].
    - intros x k Hx Hk. apply (alloc_exact_beyond (shape h)); [done|]. lia.
    - intros k y Hk Hy. apply (alloc_exact_beyond (shape h)); [done|]. lia. }
  now exists s', K.
Qed.

Lemma alloc_mul_correct_witness :
  let s := StrassenAlloc.State
             [[1; 2; 3; 4; 5; 6; 7; 8; 9]; [9; 8; 7; 6; 5; 4; 3; 2; 1];
              replicate 9 0]
             (StrassenAlloc.GlobalStats 0 0 0) in
  let a := StrassenAlloc.Matrix 0 0 3 (StrassenAlloc.MatrixData 0 3) in
  let b := StrassenAlloc.Matrix 0 0 3 (StrassenAlloc.MatrixData 1 3) in
  let c := StrassenAlloc.Matrix 0 0 3 (StrassenAlloc.MatrixData 2 3) in
  let h := StrassenAlloc.st_heap s in
  ∃ s' K, StrassenAlloc.mul 1 4 a b c s = StrassenAlloc.Return s'
    ∧ mul_counts 1 4 3 = Some K
    ∧ (∀ x y, 0 ≤ x < 3 → 0 ≤ y < 3 →
         alloc_val (StrassenAlloc.st_heap s') c x y = alloc_product h a b 3 x y)
    ∧ (∀ p k, (p < length h)%nat → p ≠ alloc_ptr c →
         load (StrassenAlloc.st_heap s') (Cell p k) = load h (Cell p k))
    ∧ counted K.1.1 K.1.2 K.2 (StrassenAlloc.st_stats s)
        (StrassenAlloc.st_stats s').
Proof.
  intros s a b c h.
  apply (alloc_mul_correct 1 4 a b c s);
    first [reflexivity | simpl; lia | vm_compute; lia | idtac].
  intros x y Hx Hy. unfold c in Hx, Hy. simpl in Hx, Hy.
  assert (x = 0 ∨ x = 1 ∨ x = 2) as [-> | [-> | ->]] by lia;
    assert (y = 0 ∨ y = 1 ∨ y = 2) as [-> | [-> | ->]] by lia; reflexivity.
Defined.

(** X21.  What [main] of the second program computes: for a dimension and
    a cutoff of at least 1 the run returns, the matrices read are left as
    they were, and entry [(x, y)] of [c] is the product of the inputs in
    machine arithmetic, whatever the dimension: no padding is computed
    beforehand, odd sides are halved upwards and the views read 0 beyond
    the buffers. *)
Theorem alloc_main_product N cutoff va vb :
  1 ≤ N → 1 ≤ cutoff →
  Z.of_nat (length va) = N * N → Z.of_nat (length vb) = N * N →
  ∀ fuel, (Z.to_nat N < fuel)%nat →
  ∃ c s, StrassenAlloc.main_mul fuel N cutoff va vb = StrassenAlloc.Return (c, s)
    ∧ StrassenAlloc.st_heap s !! 0%nat = Some va
    ∧ StrassenAlloc.st_heap s !! 1%nat = Some vb
    ∧ ∀ x y, 0 ≤ x < N → 0 ≤ y < N →
        alloc_val (StrassenAlloc.st_heap s) c x y = matrix_product N va vb x y.
Proof.
  intros HN Hc La Lb fuel Hf.
  destruct (mul_counts_total cutoff fuel Hc N ltac:(lia) Hf) as [K HK].
  destruct (main_mul_product N cutoff va vb K fuel HN La Lb HK)
    as (h & E & Ha & Hb & Hv).
  eexists _, _. split; [exact E|]. done.
Qed.

Lemma alloc_main_product_witness :
  ∃ c s, StrassenAlloc.main_mul 4 3 1 [1; 2; 3; 4; 5; 6; 7; 8; 9]
           [9; 8; 7; 6; 5; 4; 3; 2; 1] = StrassenAlloc.Return (c, s)
    ∧ StrassenAlloc.st_heap s !! 0%nat = Some [1; 2; 3; 4; 5; 6; 7; 8; 9]
    ∧ StrassenAlloc.st_heap s !! 1%nat = Some [9; 8; 7; 6; 5; 4; 3; 2; 1]
    ∧ ∀ x y, 0 ≤ x < 3 → 0 ≤ y < 3 →
        alloc_val (StrassenAlloc.st_heap s) c x y
        = matrix_product 3 [1; 2; 3; 4; 5; 6; 7; 8; 9]
            [9; 8; 7; 6; 5; 4; 3; 2; 1] x y.
Proof.
  apply (alloc_main_product 3 1 [1; 2; 3; 4; 5; 6; 7; 8; 9]
           [9; 8; 7; 6; 5; 4; 3; 2; 1]); first [lia | reflexivity].
Defined.

(** X22.  The two programs agree: on the same inputs of a dimension up to
    23170 (where the padded buffer of the arena program can be
    allocated), with any cutoffs of at least 1, the arena program
    (padding, one scratch arena, linear multiplier at odd sides) and the
    allocating program (no padding, temporaries at every level) leave
    the same [N × N] matrix. *)
Theorem programs_agree N cutoff1 cutoff2 va vb :
  1 ≤ N ≤ 23170 → 1 ≤ cutoff1 → 1 ≤ cutoff2 →
  Z.of_nat (length va) = N * N → Z.of_nat (length vb) = N * N →
  ∃ fuel0 : nat, ∀ fuel1 fuel2, (fuel0 ≤ fuel1)%nat → (fuel0 ≤ fuel2)%nat →
    ∃ h1 c1 c2 s2,
      main_multiply fuel1 N cutoff1 va vb = Some (h1, c1)
      ∧ StrassenAlloc.main_mul fuel2 N cutoff2 va vb
        = StrassenAlloc.Return (c2, s2)
      ∧ ∀ x y, 0 ≤ x < N → 0 ≤ y < N →
          get h1 c1 x y = alloc_val (StrassenAlloc.st_heap s2) c2 x y.
Proof.
  intros HN Hc1 Hc2 La Lb.
  destruct (main_multiply_padded N cutoff1 va vb ltac:(lia) Hc1 La Lb)
    as (P & _ & Hsmall & Hrun).
  destruct Hsmall as [HP Hfit]; [lia|].
  exists (S (Z.to_nat P)). intros fuel1 fuel2 Hf1 Hf2.
  destruct (Hrun HP Hfit fuel1 ltac:(lia)) as (h1 & E1 & _ & _ & _ & Hv1).
  destruct (mul_counts_total cutoff2 fuel2 Hc2 N ltac:(lia) ltac:(lia))
    as [K HK].
  destruct (main_mul_product N cutoff2 va vb K fuel2 ltac:(lia) La Lb HK)
    as (h2 & E2 & _ & _ & Hv2).
  eexists _, _, _, _. split; [exact E1|]. split; [exact E2|].
  intros x y Hx Hy. cbn [StrassenAlloc.st_heap]. now rewrite Hv1, Hv2.
Qed.

Lemma programs_agree_witness :
  ∃ fuel0 : nat, ∀ fuel1 fuel2, (fuel0 ≤ fuel1)%nat → (fuel0 ≤ fuel2)%nat →
    ∃ h1 c1 c2 s2,
      main_multiply fuel1 3 32 [1; 2; 3; 4; 5; 6; 7; 8; 9]
        [9; 8; 7; 6; 5; 4; 3; 2; 1] = Some (h1, c1)
      ∧ StrassenAlloc.main_mul fuel2 3 1 [1; 2; 3; 4; 5; 6; 7; 8; 9]
          [9; 8; 7; 6; 5; 4; 3; 2; 1] = StrassenAlloc.Return (c2, s2)
      ∧ ∀ x y, 0 ≤ x < 3 → 0 ≤ y < 3 →
          get h1 c1 x y = alloc_val (StrassenAlloc.st_heap s2) c2 x y.
Proof.
  apply (programs_agree 3 32 1 [1; 2; 3; 4; 5; 6; 7; 8; 9]
           [9; 8; 7; 6; 5; 4; 3; 2; 1]); first [lia | reflexivity].
Defined.

Lemma mul_counts_pow2 (k fuel : nat) :
  (k < fuel)%nat →
  mul_counts 1 fuel (2 ^ Z.of_nat k)
  = Some (7 ^ Z.of_nat k, 7 * 7 ^ Z.of_nat k - 6 * 4 ^ Z.of_nat k,
          3 * 7 ^ Z.of_nat k - 3 * 4 ^ Z.of_nat k).
Proof.
  revert fuel. induction k as [|k IH]; intros fuel Hf.
  - destruct fuel as [|fuel]; [lia|]. reflexivity.
  - destruct fuel as [|fuel]; [lia|]. cbn [mul_counts].
    rewrite Nat2Z.inj_succ, !Z.pow_succ_r by lia.
    pose proof (Z.pow_pos_nonneg 2 (Z.of_nat k) ltac:(lia) ltac:(lia)) as Hpos.
    assert ((2 * 2 ^ Z.of_nat k <=? 1) = false) as -> by (apply Z.leb_gt; lia).
    rewrite alloc_ceil_divide, ceil_divide_even, IH by lia.
    cbn [mbind option_bind].
    assert (2 ^ Z.of_nat k * 2 ^ Z.of_nat k = 4 ^ Z.of_nat k) as ->.
    { rewrite <- Z.pow_mul_l. reflexivity. }
    do 2 f_equal; [f_equal|]; lia.
Qed.

(** The amount [main] takes off the allocation counter at dimension
    [2 ^ k]: [3 * 4 ^ k] up to [k = 14]; at [k = 15] the [int] product has
    wrapped around. *)
Lemma int_mul_three_pow (k : nat) :
  (k ≤ 15)%nat →
  int_mul (int_mul 3 (2 ^ Z.of_nat k)) (2 ^ Z.of_nat k)
  = 3 * 4 ^ Z.of_nat k - (if (k <=? 14)%nat then 0 else 2 ^ 32).
Proof.
  intros Hk. do 16 (destruct k as [|k]; [reflexivity|]). lia.
Qed.

(** X23.  The cost of Strassen's scheme as the program counts it: with the
    cutoff 1 of the file mode and a dimension [2^k] up to [2^15], [main]
    reports [7^k] multiplications and [7 * 7^k - 6 * 4^k] additions; the
    integers allocated for temporaries are reported as
    [3 * 7^k - 3 * 4^k] up to [k = 14] and [2^32] higher at [k = 15],
    where [3 * dimension * dimension] overflows the [int] it is computed
    in. *)
Theorem alloc_main_counts (k : nat) (va vb : list Z) :
  (k ≤ 15)%nat →
  Z.of_nat (length va) = 2 ^ Z.of_nat k * 2 ^ Z.of_nat k →
  Z.of_nat (length vb) = 2 ^ Z.of_nat k * 2 ^ Z.of_nat k →
  ∀ fuel, (k < fuel)%nat →
  ∃ c h, StrassenAlloc.main_mul fuel (2 ^ Z.of_nat k) 1 va vb
         = StrassenAlloc.Return
             (c, StrassenAlloc.State h
                   (StrassenAlloc.GlobalStats (7 ^ Z.of_nat k)
                      (7 * 7 ^ Z.of_nat k - 6 * 4 ^ Z.of_nat k)
                      (3 * 7 ^ Z.of_nat k - 3 * 4 ^ Z.of_nat k
                       + (if (k <=? 14)%nat then 0 else 2 ^ 32)))).
Proof.
  intros Hk La Lb fuel Hf.
  pose proof (Z.pow_pos_nonneg 2 (Z.of_nat k) ltac:(lia) ltac:(lia)) as Hpos.
  destruct (main_mul_product (2 ^ Z.of_nat k) 1 va vb _ fuel ltac:(lia) La Lb
              (mul_counts_pow2 k fuel Hf)) as (h & E & _).
  eexists _, _. rewrite E. do 4 f_equal. cbn [fst snd].
  rewrite int_mul_three_pow by done.
  assert (2 ^ Z.of_nat k * 2 ^ Z.of_nat k = 4 ^ Z.of_nat k) as ->.
  { rewrite <- Z.pow_mul_l. reflexivity. }
  lia.
Qed.

Lemma alloc_main_counts_witness :
  ∃ c h, StrassenAlloc.main_mul 3 (2 ^ Z.of_nat 2) 1 (seqZ 1 16) (seqZ 2 16)
         = StrassenAlloc.Return
             (c, StrassenAlloc.State h
                   (StrassenAlloc.GlobalStats (7 ^ Z.of_nat 2)
                      (7 * 7 ^ Z.of_nat 2 - 6 * 4 ^ Z.of_nat 2)
                      (3 * 7 ^ Z.of_nat 2 - 3 * 4 ^ Z.of_nat 2
                       + (if (2 <=? 14)%nat then 0 else 2 ^ 32)))).
Proof.
  apply (alloc_main_counts 2 (seqZ 1 16) (seqZ 2 16)); first [reflexivity | lia].
Defined.

(** X24.  A cutoff below 1, which the random mode of the second program
    takes from the command line unchecked, makes [mul] recurse for ever:
    a matrix of side 1 is split into matrices of side 1.  No amount of
    fuel lets the call return or abort. *)
Theorem alloc_mul_diverges N cutoff va vb :
  1 ≤ N → cutoff ≤ 0 →
  Z.of_nat (length va) = N * N → Z.of_nat (length vb) = N * N →
  ∀ fuel, StrassenAlloc.main_mul fuel N cutoff va vb = StrassenAlloc.OutOfFuel.
Proof.
  intros HN Hc La Lb fuel.
  unfold StrassenAlloc.main_mul, StrassenAlloc.new_matrix.
  cbn [StrassenAlloc.st_heap StrassenAlloc.st_stats length].
  rewrite (alloc_mul_out_of_fuel cutoff fuel Hc N); try done.
  all: cbn [StrassenAlloc.st_heap]; unfold alloc_wf, alloc_ptr, shape, vsize;
    simpl; rewrite !andb_true_iff, !Z.leb_le, Z.eqb_eq;
    repeat split; try done; lia.
Qed.

Lemma alloc_mul_diverges_witness :
  StrassenAlloc.main_mul 1000 1 0 [3] [4] = StrassenAlloc.OutOfFuel.
Proof.
  apply (alloc_mul_diverges 1 0 [3] [4]); first [lia | reflexivity].
Defined.

(** X25.  [matrix::sub] of the second program: the quadrant [(qx, qy)] of a
    view addresses the cells of the view shifted by [qx] and [qy] times the
    half side, rounded up; over a buffer of its own of side [n] every cell
    [(x, y)] of the buffer is a cell of one quadrant, and no two quadrants
    share a cell. *)
Theorem alloc_quadrants (h : heap) (c : StrassenAlloc.matrix) :
  let n := StrassenAlloc.mat_n c in
  let m := StrassenAlloc.ceil_divide n in
  alloc_exact (shape h) c = true →
  (∀ qx qy x y,
     alloc_cell (StrassenAlloc.matrix_sub c qx qy) x y
     = alloc_cell c (x + qx * m) (y + qy * m))
  ∧ (∀ x y, 0 ≤ x < n → 0 ≤ y < n →
       ∃ qx qy x' y', (qx = 0 ∨ qx = 1) ∧ (qy = 0 ∨ qy = 1)
         ∧ 0 ≤ x' < m ∧ 0 ≤ y' < m
         ∧ alloc_cell (StrassenAlloc.matrix_sub c qx qy) x' y' = alloc_cell c x y
         ∧ alloc_cell c x y ≠ Padding)
  ∧ (∀ qx qy tx ty x y x' y',
       0 ≤ qx → 0 ≤ qy → 0 ≤ tx → 0 ≤ ty →
       0 ≤ x < m → 0 ≤ y < m → 0 ≤ x' < m → 0 ≤ y' < m →
       alloc_cell (StrassenAlloc.matrix_sub c qx qy) x y
       = alloc_cell (StrassenAlloc.matrix_sub c tx ty) x' y' →
       alloc_cell (StrassenAlloc.matrix_sub c qx qy) x y ≠ Padding →
       qx = tx ∧ qy = ty ∧ x = x' ∧ y = y').
Proof.
  intros n m Hc.
  assert (0 ≤ n) as Hn.
  { pose proof (alloc_exact_elim _ _ Hc) as (Hwf & _ & _ & HcN).
    apply alloc_wf_elim in Hwf as (_ & _ & HN & _). unfold n. lia. }
  pose proof (alloc_ceil_bounds n Hn) as [Hb Hm]. fold m in Hb, Hm.
  split; [|split].
  - intros qx qy x y. apply alloc_cell_sub.
  - intros x y Hx Hy.
    assert (∃ qx x', (qx = 0 ∨ qx = 1) ∧ 0 ≤ x' < m ∧ x = x' + qx * m)
      as (qx & x' & Hqx & Hx' & ->).
    { destruct (decide (x < m)); [exists 0, x|exists 1, (x - m)]; lia. }
    assert (∃ qy y', (qy = 0 ∨ qy = 1) ∧ 0 ≤ y' < m ∧ y = y' + qy * m)
      as (qy & y' & Hqy & Hy' & ->).
    { destruct (decide (y < m)); [exists 0, y|exists 1, (y - m)]; lia. }
    exists qx, qy, x', y'. repeat (split; [done|]). split.
    + apply alloc_cell_sub.
    + now apply (alloc_exact_cell (shape h)).
  - intros qx qy tx ty x y x' y' Hqx Hqy Htx Hty Hx Hy Hx' Hy' Heq Hne.
    destruct (quadrants_apart h c m Hc eq_refl Hn qx qy tx ty x y x' y')
      as [-> ->]; try done.
    split; [done|]. split; [done|].
    assert (alloc_wf (shape h) (StrassenAlloc.matrix_sub c tx ty) = true) as Hwf.
    { apply alloc_wf_sub; [now apply alloc_exact_wf|done..]. }
    destruct (alloc_cell_inj _ _ Hwf x y x' y'); done || lia.
Qed.

Lemma alloc_quadrants_witness :
  let c := StrassenAlloc.Matrix 0 0 3 (StrassenAlloc.MatrixData 0 3) in
  let n := StrassenAlloc.mat_n c in
  let m := StrassenAlloc.ceil_divide n in
  (∀ qx qy x y,
     alloc_cell (StrassenAlloc.matrix_sub c qx qy) x y
     = alloc_cell c (x + qx * m) (y + qy * m))
  ∧ (∀ x y, 0 ≤ x < n → 0 ≤ y < n →
       ∃ qx qy x' y', (qx = 0 ∨ qx = 1) ∧ (qy = 0 ∨ qy = 1)
         ∧ 0 ≤ x' < m ∧ 0 ≤ y' < m
         ∧ alloc_cell (StrassenAlloc.matrix_sub c qx qy) x' y' = alloc_cell c x y
         ∧ alloc_cell c x y ≠ Padding)
  ∧ (∀ qx qy tx ty x y x' y',
       0 ≤ qx → 0 ≤ qy → 0 ≤ tx → 0 ≤ ty →
       0 ≤ x < m → 0 ≤ y < m → 0 ≤ x' < m → 0 ≤ y' < m →
       alloc_cell (StrassenAlloc.matrix_sub c qx qy) x y
       = alloc_cell (StrassenAlloc.matrix_sub c tx ty) x' y' →
       alloc_cell (StrassenAlloc.matrix_sub c qx qy) x y ≠ Padding →
       qx = tx ∧ qy = ty ∧ x = x' ∧ y = y').
Proof.
  intros c. apply (alloc_quadrants [replicate 9 0] c). reflexivity.
Defined.

(** ** The first program *)

Lemma for_loop_opt_pure {St} (I : St → Prop) n
    (body : Z → St → option St) (body' : Z → St → St) s :
  I s →
  (∀ k t, 0 ≤ k < n → I t → body k t = Some (body' k t) ∧ I (body' k t)) →
  LinearOnly.for_loop_opt n body s = Some (for_loop n body' s)
  ∧ I (for_loop n body' s).
Proof.
  intros Hs Hb. unfold LinearOnly.for_loop_opt.
  destruct (Z.le_gt_cases 0 n) as [Hn|Hn].
  2:{ now rewrite !for_loop_nonpos by lia. }
  assert (∀ k, 0 ≤ k → k ≤ n →
    for_loop k (λ k r, r ≫= body k) (Some s) = Some (for_loop k body' s)
    ∧ I (for_loop k body' s)) as H; [|apply H; lia].
  intros k Hk. pattern k. apply natlike_ind; [| |exact Hk].
  - intros _. now rewrite !for_loop_nonpos by lia.
  - intros x Hx IH Hle. destruct IH as [E HI]; [lia|].
    unfold Z.succ. rewrite !for_loop_succ, E by lia. cbn [mbind option_bind].
    apply Hb; [lia|done].
Qed.

(** On a view that lies inside its buffer the two programs address alike:
    nothing is thrown. *)
Lemma linear_only_at_proper sh m x y :
  proper sh m = true →
  LinearOnly.submatrix_at sh m x y = Some (submatrix_at sh m x y).
Proof.
  intros Hp. unfold LinearOnly.submatrix_at, submatrix_at.
  destruct ((x <? 0) || (sm_dimension m <=? x) || (y <? 0)
            || (sm_dimension m <=? y)) eqn:E.
  - assert (submatrix_in_bounds sh m x y = false) as ->; [|done].
    apply not_true_is_false. intros Hin.
    apply submatrix_in_bounds_iff in Hin.
    rewrite !orb_true_iff, !Z.ltb_lt, !Z.leb_le in E. lia.
  - rewrite !orb_false_iff, !Z.ltb_ge, !Z.leb_gt in E.
    pose proof (proper_in_bounds sh m x y Hp ltac:(lia) ltac:(lia)) as Hin.
    rewrite Hin. apply submatrix_in_bounds_iff in Hin.
    pose proof (proper_buffer sh m Hp) as HD. unfold ptr in Hin.
    assert ((0 <=? x + sm_i m + md_dimension (sm_data m) * (y + sm_j m))
            && (x + sm_i m + md_dimension (sm_data m) * (y + sm_j m)
                <? vsize sh (md_data (sm_data m))) = true) as ->; [|done].
    rewrite andb_true_iff, Z.leb_le, Z.ltb_lt. nia.
Qed.

Lemma linear_only_get_proper h m x y :
  proper (shape h) m = true → LinearOnly.get h m x y = Some (get h m x y).
Proof.
  intros Hp. unfold LinearOnly.get. now rewrite linear_only_at_proper.
Qed.

(** On views of one side that lie inside their buffers the first
    program's multiplier is the second program's, and returns. *)
Lemma linear_only_linear_mul a b c h :
  proper (shape h) a = true → proper (shape h) b = true →
  proper (shape h) c = true →
  sm_dimension a = sm_dimension c → sm_dimension b = sm_dimension c →
  LinearOnly.linear_mul a b c h = Some (linear_mul a b c h).
Proof.
  intros Ha Hb Hc Hna Hnb. unfold LinearOnly.linear_mul, linear_mul.
  rewrite Hna, Hnb, Z.max_id, Z.leb_refl.
  set (n := sm_dimension c). set (sh := shape h) in *.
  apply (for_loop_opt_pure (λ t, shape t = sh)); [done|].
  intros k t Hk Ht.
  apply (for_loop_opt_pure (λ t, shape t = sh)); [done|].
  intros i t' Hi Ht'. rewrite <- Ht' in Ha, Hb, Hc.
  rewrite linear_only_get_proper by done. cbn [mbind option_bind].
  rewrite Ht' in Ha, Hb, Hc.
  apply (for_loop_opt_pure (λ t, shape t = sh)); [done|].
  intros j t'' Hj Ht''. rewrite <- Ht'' in Ha, Hb, Hc.
  rewrite linear_only_get_proper, linear_only_at_proper by done.
  cbn [mbind option_bind]. split; [reflexivity|].
  unfold set. now rewrite shape_store.
Qed.

(** X26.  [submatrix::at] of the first program checks the coordinates
    against the side of the view and nothing else: outside the side a read
    yields 0 and a write is dropped; inside the side the cell at the
    view's offset is addressed when its index is inside the vector, and
    [vector::at] throws when it is not, where the later program reads 0. *)
Theorem linear_only_at (h : heap) (m : submatrix) (x y : Z) :
  let k := (x + sm_i m) + md_dimension (sm_data m) * (y + sm_j m) in
  (¬ (0 ≤ x < sm_dimension m ∧ 0 ≤ y < sm_dimension m) →
     LinearOnly.submatrix_at (shape h) m x y = Some Padding
     ∧ LinearOnly.get h m x y = Some 0)
  ∧ (0 ≤ x < sm_dimension m → 0 ≤ y < sm_dimension m →
     0 ≤ k < vsize (shape h) (md_data (sm_data m)) →
     LinearOnly.submatrix_at (shape h) m x y
     = Some (Cell (md_data (sm_data m)) (Z.to_nat k))
     ∧ LinearOnly.get h m x y
       = Some (load h (Cell (md_data (sm_data m)) (Z.to_nat k))))
  ∧ (0 ≤ x < sm_dimension m → 0 ≤ y < sm_dimension m →
     ¬ 0 ≤ k < vsize (shape h) (md_data (sm_data m)) →
     LinearOnly.submatrix_at (shape h) m x y = None
     ∧ LinearOnly.get h m x y = None
     ∧ (0 ≤ x + sm_i m → 0 ≤ y + sm_j m → 0 ≤ md_dimension (sm_data m) →
        get h m x y = 0)).
Proof.
  intros k. unfold LinearOnly.get, LinearOnly.submatrix_at. fold k.
  split; [|split].
  - intros Hout.
    assert ((x <? 0) || (sm_dimension m <=? x) || (y <? 0)
            || (sm_dimension m <=? y) = true) as ->; [|done].
    rewrite !orb_true_iff, !Z.ltb_lt, !Z.leb_le. lia.
  - intros Hx Hy Hk.
    assert ((x <? 0) || (sm_dimension m <=? x) || (y <? 0)
            || (sm_dimension m <=? y) = false) as ->
      by (rewrite !orb_false_iff, !Z.ltb_ge, !Z.leb_gt; lia).
    assert ((0 <=? k) && (k <? vsize (shape h) (md_data (sm_data m))) = true)
      as -> by (rewrite andb_true_iff, Z.leb_le, Z.ltb_lt; lia).
    done.
  - intros Hx Hy Hk.
    assert ((x <? 0) || (sm_dimension m <=? x) || (y <? 0)
            || (sm_dimension m <=? y) = false) as ->
      by (rewrite !orb_false_iff, !Z.ltb_ge, !Z.leb_gt; lia).
    assert ((0 <=? k) && (k <? vsize (shape h) (md_data (sm_data m))) = false)
      as -> by (rewrite andb_false_iff, Z.leb_gt, Z.ltb_ge; lia).
    split; [done|]. split; [done|]. intros Hxi Hyj HD.
    unfold get, submatrix_at.
    destruct (submatrix_in_bounds (shape h) m x y) eqn:E; [|done].
    apply submatrix_in_bounds_iff in E. unfold ptr in E. fold k in E.
    exfalso. apply Hk. split; [unfold k; nia|lia].
Qed.

Lemma linear_only_at_witness :
  let h := [[1; 2; 3; 4]] in
  let m := Submatrix (MatrixData 2 0) 1 1 2 in
  (¬ (0 ≤ 1 < sm_dimension m ∧ 0 ≤ 1 < sm_dimension m) →
     LinearOnly.submatrix_at (shape h) m 1 1 = Some Padding
     ∧ LinearOnly.get h m 1 1 = Some 0)
  ∧ (0 ≤ 1 < sm_dimension m → 0 ≤ 1 < sm_dimension m →
     0 ≤ 1 + sm_i m + md_dimension (sm_data m) * (1 + sm_j m)
       < vsize (shape h) (md_data (sm_data m)) →
     LinearOnly.submatrix_at (shape h) m 1 1
     = Some (Cell (md_data (sm_data m))
               (Z.to_nat (1 + sm_i m + md_dimension (sm_data m) * (1 + sm_j m))))
     ∧ LinearOnly.get h m 1 1
       = Some (load h (Cell (md_data (sm_data m))
                 (Z.to_nat (1 + sm_i m
                            + md_dimension (sm_data m) * (1 + sm_j m))))))
  ∧ (0 ≤ 1 < sm_dimension m → 0 ≤ 1 < sm_dimension m →
     ¬ 0 ≤ 1 + sm_i m + md_dimension (sm_data m) * (1 + sm_j m)
         < vsize (shape h) (md_data (sm_data m)) →
     LinearOnly.submatrix_at (shape h) m 1 1 = None
     ∧ LinearOnly.get h m 1 1 = None
     ∧ (0 ≤ 1 + sm_i m → 0 ≤ 1 + sm_j m → 0 ≤ md_dimension (sm_data m) →
        get h m 1 1 = 0)).
Proof. intros h m. exact (linear_only_at h m 1 1). Defined.

(** X27.  [main] of the first program: for a dimension of at least 1 the
    multiplication returns without a throw or a failed [assert], the
    inputs are left as they were, entry [(x, y)] of [c] is the product of
    the inputs in machine arithmetic, and the comparison the [VERIFY]
    branch asserts is true. *)
Theorem linear_only_main N va vb :
  1 ≤ N → Z.of_nat (length va) = N * N → Z.of_nat (length vb) = N * N →
  ∃ h c, LinearOnly.main_multiply N va vb = Some (h, c)
    ∧ h !! 0%nat = Some va ∧ h !! 1%nat = Some vb
    ∧ (∀ x y, 0 ≤ x < N → 0 ≤ y < N →
         get h c x y = matrix_product N va vb x y)
    ∧ LinearOnly.main_verify N h c = Some true.
Proof.
  intros HN La Lb.
  assert (∀ h : heap, h !! 0%nat = Some va → h !! 1%nat = Some vb →
            let check := fst (alloc_matrix_data N h) in
            let h1 := snd (alloc_matrix_data N h) in
            LinearOnly.linear_mul (submatrix_of (MatrixData N 0))
              (submatrix_of (MatrixData N 1)) (submatrix_of check) h1
            = Some (linear_mul (submatrix_of (MatrixData N 0))
                      (submatrix_of (MatrixData N 1)) (submatrix_of check) h1))
    as Hrun.
  { intros h E0 E1 check h1.
    assert (∀ p v, h !! p = Some v → Z.of_nat (length v) = N * N →
              proper (shape h1) (submatrix_of (MatrixData N p)) = true) as Hin.
    { intros p v E L. unfold h1, alloc_matrix_data. cbn [snd].
      rewrite shape_app, proper_app
        by (unfold ptr; simpl; rewrite length_shape;
            now apply lookup_lt_Some in E).
      unfold proper, ptr, submatrix_of. simpl.
      rewrite (vsize_lookup h p v E), L.
      rewrite !andb_true_iff, !Z.leb_le, Z.eqb_eq. lia. }
    apply linear_only_linear_mul; [now apply (Hin 0%nat va)
      |now apply (Hin 1%nat vb)|apply alloc_matrix_data_proper; lia|done..]. }
  unfold LinearOnly.main_multiply.
  pose proof (Hrun [va; vb] eq_refl eq_refl) as E.
  unfold alloc_matrix_data in E |- *. cbn [fst snd length] in E |- *. rewrite E.
  cbn [mbind option_bind].
  destruct (linear_mul_fresh [va; vb] N 0 1 va vb) as (Hs & Hv & Hfr);
    try done; [lia|].
  unfold alloc_matrix_data in Hs, Hv, Hfr. cbn [fst snd length] in Hs, Hv, Hfr.
  set (h2 := linear_mul _ _ _ _) in *.
  assert (length h2 = 3%nat) as Hlen.
  { rewrite <- length_shape, Hs. done. }
  assert (∀ p, (p < 2)%nat → h2 !! p = [va; vb] !! p) as Hkeep.
  { intros p Hp. apply lookup_eq_of_load_prefix.
    - by eexists.
    - intros k. apply Hfr. simpl. lia.
    - simpl. lia. }
  assert (h2 !! 0%nat = Some va) as E0 by (now rewrite Hkeep by lia).
  assert (h2 !! 1%nat = Some vb) as E1 by (now rewrite Hkeep by lia).
  set (c := submatrix_of (MatrixData N 2)) in *.
  exists h2, c. split; [reflexivity|].
  split; [done|]. split; [done|]. split; [exact Hv|].
  unfold LinearOnly.main_verify.
  pose proof (Hrun h2 E0 E1) as E'.
  unfold alloc_matrix_data in E' |- *. cbn [fst snd] in E' |- *. rewrite E'.
  cbn [mbind option_bind]. clear E'.
  destruct (linear_mul_fresh h2 N 0 1 va vb) as (Hs' & Hv' & Hfr');
    try done; [lia|].
  unfold alloc_matrix_data in Hs', Hv', Hfr'. cbn [fst snd] in Hs', Hv', Hfr'.
  rewrite Hlen in Hs', Hv', Hfr' |- *.
  set (h4 := linear_mul _ _ _ (h2 ++ _)) in *.
  assert (∀ p, (p = 2 ∨ p = 3)%nat →
            holds_square (shape h4) (MatrixData N p) N = true) as Hsq.
  { intros p Hp. unfold holds_square. simpl. rewrite Hs', Hs. unfold vsize.
    rewrite andb_true_iff, Z.leb_le, Z.eqb_eq.
    destruct Hp as [-> | ->]; simpl; lia. }
  destruct (submatrix_eq_squares h4 c (submatrix_of (MatrixData N 3)) N)
    as (bres & Eb & Hb); [done|done|apply Hsq; lia|apply Hsq; lia|].
  rewrite Eb. f_equal. apply Hb. intros x y Hx Hy.
  transitivity (matrix_product N va vb x y).
  - unfold buffer_cell. rewrite Hfr' by (simpl; lia).
    rewrite <- Hv by done. symmetry.
    apply (get_origin h2 c N); try done.
    unfold holds_square, c. simpl. rewrite Hs. unfold vsize. simpl.
    rewrite andb_true_iff, Z.leb_le, Z.eqb_eq. lia.
  - rewrite <- Hv' by done.
    apply (get_origin h4 (submatrix_of (MatrixData N 3)) N); try done.
    apply Hsq. lia.
Qed.

Lemma linear_only_main_witness :
  ∃ h c, LinearOnly.main_multiply 2 [1; 3; 2; 4] [5; 7; 6; 8] = Some (h, c)
    ∧ h !! 0%nat = Some [1; 3; 2; 4] ∧ h !! 1%nat = Some [5; 7; 6; 8]
    ∧ (∀ x y, 0 ≤ x < 2 → 0 ≤ y < 2 →
         get h c x y = matrix_product 2 [1; 3; 2; 4] [5; 7; 6; 8] x y)
    ∧ LinearOnly.main_verify 2 h c = Some true.
Proof.
  apply (linear_only_main 2 [1; 3; 2; 4] [5; 7; 6; 8]);
    first [lia | reflexivity].
Defined.

(** X28.  [operator<<] of the first program on a view that lies inside its
    buffer: nothing is thrown, one row is printed per [x] and one entry
    per [y], and the entry at [(x, y)] is the cell the view has at
    [(x + i, y + j)], that is the buffer's cell [(x + 2 i, y + 2 j)], or 0
    when [x + i] or [y + j] is not below the side.  For a view at the
    origin of its buffer, which is all [main] prints, these are the
    view's own cells. *)
Theorem linear_only_print (h : heap) (m : submatrix) :
  proper (shape h) m = true →
  ∃ rows,
    LinearOnly.print h m = Some rows
    ∧ length rows = Z.to_nat (sm_dimension m)
    ∧ (∀ x y, 0 ≤ x < sm_dimension m → 0 ≤ y < sm_dimension m →
         rows !! Z.to_nat x ≫= (λ row, row !! Z.to_nat y)
         = Some (if (x + sm_i m <? sm_dimension m)
                    && (y + sm_j m <? sm_dimension m)
                 then load h (Cell (md_data (sm_data m))
                        (Z.to_nat ((x + 2 * sm_i m)
                          + md_dimension (sm_data m) * (y + 2 * sm_j m))))
                 else 0))
    ∧ (sm_i m = 0 → sm_j m = 0 →
       ∀ x y, 0 ≤ x < sm_dimension m → 0 ≤ y < sm_dimension m →
         rows !! Z.to_nat x ≫= (λ row, row !! Z.to_nat y)
         = Some (get h m x y)).
Proof.
  intros Hp.
  set (n := sm_dimension m).
  set (entry := λ x y, get h m (x + sm_i m) (y + sm_j m)).
  set (rows := (λ x, entry x <$> seqZ 0 n) <$> seqZ 0 n).
  assert (LinearOnly.print h m = Some rows) as Hprint.
  { unfold LinearOnly.print. fold n. apply mapM_Some_2.
    unfold rows. apply Forall2_fmap_r, Forall_Forall2_diag, Forall_forall.
    intros x _. apply mapM_Some_2.
    apply Forall2_fmap_r, Forall_Forall2_diag, Forall_forall.
    intros y _. now apply linear_only_get_proper. }
  assert (∀ x y, 0 ≤ x < n → 0 ≤ y < n →
    rows !! Z.to_nat x ≫= (λ row, row !! Z.to_nat y) = Some (entry x y))
    as Hrows.
  { intros x y Hx Hy. unfold rows.
    rewrite list_lookup_fmap, lookup_seqZ_lt by lia.
    cbn [fmap option_fmap option_map mbind option_bind].
    rewrite list_lookup_fmap, lookup_seqZ_lt by lia.
    cbn [fmap option_fmap option_map]. now rewrite !Z2Nat.id by lia. }
  exists rows. split; [exact Hprint|]. split; [|split].
  - unfold rows. now rewrite length_fmap, length_seqZ.
  - intros x y Hx Hy. rewrite Hrows by done. f_equal. unfold entry, get.
    pose proof Hp as Hp'. unfold proper in Hp'.
    rewrite !andb_true_iff, !Z.leb_le, Z.eqb_eq in Hp'.
    destruct Hp' as (((((Hi & Hj) & Hn) & Hin) & Hjn) & Hsz).
    unfold submatrix_at.
    fold n in Hn, Hin, Hjn |- *.
    destruct ((x + sm_i m <? n) && (y + sm_j m <? n)) eqn:E.
    + rewrite andb_true_iff, !Z.ltb_lt in E.
      rewrite (proper_in_bounds _ m _ _ Hp) by (fold n; lia).
      apply (f_equal (load h)), (f_equal (Cell _)), (f_equal Z.to_nat). lia.
    + assert (submatrix_in_bounds (shape h) m (x + sm_i m) (y + sm_j m)
              = false) as ->; [|done].
      apply not_true_is_false. intros Hb.
      apply submatrix_in_bounds_iff in Hb.
      rewrite andb_false_iff, !Z.ltb_ge in E. lia.
  - intros Hi Hj x y Hx Hy. rewrite Hrows by done. unfold entry.
    now rewrite Hi, Hj, !Z.add_0_r.
Qed.

Lemma linear_only_print_witness :
  let h := [[1; 2; 3; 4; 5; 6; 7; 8; 9]] in
  let m := Submatrix (MatrixData 3 0) 1 1 2 in
  proper (shape h) m = true
  ∧ ∃ rows, LinearOnly.print h m = Some rows
      ∧ rows !! 0%nat ≫= (λ row, row !! 0%nat) = Some 9
      ∧ get h m 0 0 = 5.
Proof.
  intros h m. split; [reflexivity|].
  destruct (linear_only_print h m eq_refl) as (rows & Hprint & _ & Hrows & _).
  exists rows. split; [exact Hprint|]. split; [|reflexivity].
  exact (Hrows 0 0 ltac:(simpl; lia) ltac:(simpl; lia)).
Defined.
